(** * VesiKolay Pro: the photo standardisation core, embedded and verified

    The development follows [src/photo_processor.py] (the dimension
    resolver [CropDimensions], the face locator and the compositors of
    [PhotoProcessor]) and [src/app.py] (the size optimiser and the
    watermark font size of [VesiKolayApp]).

    Python values are modelled as the interpreter has them: [int] is [Z],
    [float] is IEEE binary64 (the Standard Library's [spec_float] at
    precision 53, round to nearest even), an exception is a value of the
    error monad [result].  Pillow and OpenCV are outside the repository:
    images are a size with a pixel function, and the resampling kernel,
    the sharpening filter, the codec and the face detector are parameters.

    The second half follows the code around that core: the face croppers
    and the matching and grouping of photos and records of
    [PhotoProcessor], and [process_single_photo], [clean_filename] and
    the naming of renamed photos of [VesiKolayApp].  There a [str] is the
    list of its code points and a [dict] the list of its items in
    insertion order. *)

From Stdlib Require Import ZArith QArith Qabs Qpower Lqa Bool List String Lia SpecFloat
  DecimalN.
From Equations Require Import Equations.
Import ListNotations.
Local Open Scope Z_scope.

(* ===================================================================== *)
(** * The Python runtime: exceptions, floats, numbers                     *)
(* ===================================================================== *)

Module Py.

(** The exceptions the modelled code can meet. *)
Inductive exn : Type :=
| ZeroDivisionError
| OverflowError
| ValueError
| TypeError
| ImportError
| OSError.

(** A computation returns a value or raises. *)
Inductive result (A : Type) : Type :=
| Ok (a : A)
| Raise (e : exn).
Arguments Ok {A} a.
Arguments Raise {A} e.

Definition bind {A B : Type} (m : result A) (k : A -> result B) : result B :=
  match m with
  | Ok a => k a
  | Raise e => Raise e
  end.

Module Notations.
Notation "x <- m ;; k" := (bind m (fun x => k))
  (at level 61, m at next level, right associativity).
Notation "' pat <- m ;; k" := (bind m (fun x => match x with pat => k end))
  (at level 61, pat pattern, m at next level, right associativity).
End Notations.
Import Notations.

(** ** Floats: IEEE binary64 *)

Definition prec : Z := 53.
Definition emax : Z := 1024.

Definition float : Type := spec_float.

Definition fmul : float -> float -> float := SFmul prec emax.
Definition fdiv_ieee : float -> float -> float := SFdiv prec emax.
Definition fsub : float -> float -> float := SFsub prec emax.
Definition fabs : float -> float := SFabs.
Definition fltb : float -> float -> bool := SFltb.

(** [float(z)] for an [int]: the nearest double, [OverflowError] beyond
    the finite range. *)
Definition float_of_int (z : Z) : result float :=
  match binary_normalize prec emax z 0 false with
  | S754_infinity _ => Raise OverflowError
  | f => Ok f
  end.

(** A literal [n / 10^k], read as the double nearest to it (division is
    correctly rounded and [n], [10^k] are exact). *)
Definition literal (n : Z) (pow10 : Z) : float :=
  fdiv_ieee (binary_normalize prec emax n 0 false)
            (binary_normalize prec emax pow10 0 false).

Definition is_zero (f : float) : bool :=
  match f with S754_zero _ => true | _ => false end.

(** [a / b] on floats: Python raises on a zero divisor instead of
    producing an infinity. *)
Definition fdiv (a b : float) : result float :=
  if is_zero b then Raise ZeroDivisionError else Ok (fdiv_ieee a b).

(** [int(f)]: truncation toward zero; infinities and NaN raise. *)
Definition int_of_float (f : float) : result Z :=
  match f with
  | S754_zero _ => Ok 0
  | S754_infinity _ => Raise OverflowError
  | S754_nan => Raise ValueError
  | S754_finite s m e =>
      let mag := Z.shiftl (Z.pos m) e in
      Ok (if s then - mag else mag)
  end.



(** The rational a finite double stands for (0 for the others). *)
Definition value (f : float) : Q :=
  match f with
  | S754_finite s m e =>
      let q := match e with
               | Z0 => inject_Z (Z.pos m)
               | Zpos p => inject_Z (Z.pos m * Z.pow_pos 2 p)
               | Zneg p => Qmake (Z.pos m) (Pos.pow 2 p)
               end in
      if s then Qopp q else q
  | _ => 0%Q
  end.


(** [f] is NaN or carries the sign bit [s]. *)
Definition signed (s : bool) (f : float) : Prop :=
  match f with
  | S754_zero s' | S754_infinity s' | S754_finite s' _ _ => s' = s
  | S754_nan => True
  end.

(** A positive normal double (a 53-digit mantissa) whose magnitude
    (digits + exponent) lies in [lo, hi]: its value is in
    [2^(lo - 1), 2^hi). *)
Definition ranged (lo hi : Z) (f : float) : Prop :=
  match f with
  | S754_finite false m e =>
      Z.pos (digits2_pos m) = 53 /\ lo <= 53 + e <= hi
  | _ => False
  end.

(** One unit in the last place of a 53-digit mantissa, and closeness
    of a computed value [F] to an exact one [X] within a relative [d]. *)
Definition ulp : Q := 1 # (2 ^ 52).

Definition near (d : Q) (F X : Q) : Prop :=
  (F * (1 - d) <= X)%Q /\ (X <= F * (1 + d))%Q.



(** ** Numbers: an [int] or a [float] *)

Inductive num : Type :=
| Int (z : Z)
| Float (f : float).

Definition to_float (n : num) : result float :=
  match n with
  | Int z => float_of_int z
  | Float f => Ok f
  end.

(** [a / b], true division. *)
Definition truediv (a b : num) : result float :=
  x <- to_float a ;;
  y <- to_float b ;;
  fdiv x y.

(** [a * b] where one side is a float. *)
Definition mulf (a b : num) : result float :=
  x <- to_float a ;;
  y <- to_float b ;;
  Ok (fmul x y).





(** [n] is the floor of the double [p]. *)
Definition floor_of (p : float) (n : Z) : Prop :=
  int_of_float p = Ok n /\
  0 <= n /\ (inject_Z n <= value p)%Q /\ (value p < inject_Z (n + 1))%Q.

(** Truthiness of [None] and of an [int]. *)
Definition truthy (o : option Z) : bool :=
  match o with
  | None => false
  | Some z => negb (z =? 0)
  end.

End Py.

Import Py Py.Notations.

(* ===================================================================== *)
(** * [CropDimensions]: the dimension resolver                            *)
(* ===================================================================== *)

Module CropDimensions.

Record t : Type := mk {
  width : num;
  height : num;
  unit : string;
  dpi : Z;
  min_dpi : option Z
}.

(** The float literals [25.4] and [2.54]. *)
Definition f25_4 : float := literal 254 10.
Definition f2_54 : float := literal 254 100.

(** [int((mm / 25.4) * self.dpi)] *)
Definition _mm_to_px (self : t) (mm : num) : result Z :=
  q <- truediv mm (Float f25_4) ;;
  p <- mulf (Float q) (Int (dpi self)) ;;
  int_of_float p.

(** [int((cm / 2.54) * self.dpi)] *)
Definition _cm_to_px (self : t) (cm : num) : result Z :=
  q <- truediv cm (Float f2_54) ;;
  p <- mulf (Float q) (Int (dpi self)) ;;
  int_of_float p.

Definition to_pixels (self : t) : result (num * num) :=
  if (unit self =? "px")%string then
    Ok (width self, height self)
  else if (unit self =? "mm")%string then
    w <- _mm_to_px self (width self) ;;
    h <- _mm_to_px self (height self) ;;
    Ok (Int w, Int h)
  else if (unit self =? "cm")%string then
    w <- _cm_to_px self (width self) ;;
    h <- _cm_to_px self (height self) ;;
    Ok (Int w, Int h)
  else
    Ok (width self, height self).







(** What the specification words say about the DPI floor: the effective
    DPI is raised to [min_dpi] before the pixel size is computed. *)
Definition effective_dpi (self : t) : Z :=
  match min_dpi self with
  | Some m => if dpi self <? m then m else dpi self
  | None => dpi self
  end.

Definition with_dpi (self : t) (d : Z) : t :=
  mk (width self) (height self) (unit self) d (min_dpi self).

Definition with_min_dpi (self : t) (m : option Z) : t :=
  mk (width self) (height self) (unit self) (dpi self) m.


Definition spec_to_pixels_raised (self : t) : result (num * num) :=
  to_pixels (with_dpi self (effective_dpi self)).

End CropDimensions.

Import CropDimensions.

(* ===================================================================== *)
(** * Pillow: images as a size and a pixel function                       *)
(* ===================================================================== *)

Module PIL.

Definition rgb : Type := (Z * Z * Z)%type.
Definition white : rgb := (255, 255, 255).
Definition black : rgb := (0, 0, 0).

Record Image : Type := mkImage {
  width : Z;
  height : Z;
  getpixel : Z -> Z -> rgb
}.

Definition size (im : Image) : Z * Z := (width im, height im).

(** The two filters the code asks Pillow for: the LANCZOS resampling
    kernel (source, requested size, output position) and the sharpening
    of [ImageEnhance.Sharpness] (source, factor in tenths, position). *)
Record filters : Type := mkFilters {
  lanczos : Image -> Z -> Z -> Z -> Z -> rgb;
  sharpness : Image -> Z -> Z -> rgb
}.

(** [Image.new('RGB', (w, h), color)] *)
Definition new (w h : Z) (color : rgb) : result Image :=
  if (w <? 0) || (h <? 0) then Raise ValueError
  else Ok (mkImage w h (fun _ _ => color)).

(** [im.crop((left, upper, right, lower))]; outside the source the
    result is black. *)
Definition crop (im : Image) (left upper right lower : Z) : result Image :=
  if right <? left then Raise ValueError
  else if lower <? upper then Raise ValueError
  else Ok (mkImage (right - left) (lower - upper)
             (fun i j =>
                let sx := left + i in
                let sy := upper + j in
                if (0 <=? sx) && (sx <? width im) && (0 <=? sy) && (sy <? height im)
                then getpixel im sx sy else black)).

(** [im.resize((w, h), Image.Resampling.LANCZOS)] *)
Definition resize (K : filters) (im : Image) (w h : Z) : result Image :=
  if (w =? width im) && (h =? height im) then Ok im
  else if (w <? 1) || (h <? 1) then Raise ValueError
  else Ok (mkImage w h (lanczos K im w h)).

(** [canvas.paste(im, (x, y))]: the part of [im] that falls on the
    canvas replaces it. *)
Definition covers (im : Image) (x y i j : Z) : bool :=
  (x <=? i) && (i <? x + width im) && (y <=? j) && (j <? y + height im).

Definition paste (canvas im : Image) (x y : Z) : Image :=
  mkImage (width canvas) (height canvas)
    (fun i j => if covers im x y i j then getpixel im (i - x) (j - y)
                else getpixel canvas i j).

(** [ImageEnhance.Sharpness(im).enhance(1.1)] *)
Definition enhance (K : filters) (im : Image) : Image :=
  mkImage (width im) (height im) (sharpness K im).

(** An encoded file: what [save] was asked to write. *)
Inductive format : Type := PNG | JPEG.

Record Artifact : Type := mkArtifact {
  art_format : format;
  art_quality : option Z;
  art_dpi : Z * Z;
  art_image : Image
}.

(** Reading a computed image: a pixel of it, or its size. *)
Definition pixel_of (r : result Image) (i j : Z) : option rgb :=
  match r with
  | Ok im => Some (getpixel im i j)
  | Raise _ => None
  end.

Definition size_of (r : result Image) : option (Z * Z) :=
  match r with
  | Ok im => Some (size im)
  | Raise _ => None
  end.

Definition pixel_of_saved (r : bool * option Artifact) (i j : Z) : option rgb :=
  match snd r with
  | Some art => Some (getpixel (art_image art) i j)
  | None => None
  end.

(** A size argument must be an [int]. *)
Definition as_int (n : num) : result Z :=
  match n with
  | Int z => Ok z
  | Float _ => Raise TypeError
  end.

End PIL.

(* ===================================================================== *)
(** * Python strings                                                      *)
(* ===================================================================== *)

Module Str.

(** A [str] is the list of its code points. *)
Definition str : Type := list N.

(** A literal of ASCII characters. *)
Definition of_ascii (s : string) : str :=
  map Ascii.N_of_ascii (list_ascii_of_string s).

(** [not s] *)
Definition is_empty (s : str) : bool :=
  match s with
  | [] => true
  | _ :: _ => false
  end.

Fixpoint eqb (s t : str) : bool :=
  match s, t with
  | [], [] => true
  | a :: s', b :: t' => (a =? b)%N && eqb s' t'
  | _, _ => false
  end.

(** [c in chars] for a character. *)
Fixpoint mem (c : N) (chars : str) : bool :=
  match chars with
  | [] => false
  | d :: rest => (c =? d)%N || mem c rest
  end.

(** [s.startswith(p)] *)
Fixpoint startswith (p s : str) : bool :=
  match p, s with
  | [], _ => true
  | a :: p', b :: s' => (a =? b)%N && startswith p' s'
  | _ :: _, [] => false
  end.

(** [p in s] *)
Fixpoint contains (p s : str) : bool :=
  startswith p s ||
  match s with
  | [] => false
  | _ :: rest => contains p rest
  end.

(** [s.replace(old, new)] for a non-empty [old]: the occurrences of
    [old] are found from the left and do not overlap; [skip] counts the
    characters of the occurrence just replaced that are still to be
    passed over. *)
Fixpoint replace_from (skip : nat) (old new s : str) : str :=
  match s with
  | [] => []
  | c :: rest =>
      match skip with
      | S k => replace_from k old new rest
      | O =>
          if startswith old s
          then new ++ replace_from (List.length old - 1) old new rest
          else c :: replace_from 0 old new rest
      end
  end.

Definition replace (old new s : str) : str := replace_from 0 old new s.

(** [s.lstrip(chars)], [s.rstrip(chars)] and [s.strip(chars)]: [chars] is
    a set of characters. *)
Fixpoint lstrip (chars s : str) : str :=
  match s with
  | [] => []
  | c :: rest => if mem c chars then lstrip chars rest else s
  end.

Definition rstrip (chars s : str) : str := rev (lstrip chars (rev s)).

Definition strip (chars s : str) : str := rstrip chars (lstrip chars s).

(** [c.isspace()]: the characters [str.split()] and [str.strip()] treat
    as whitespace. *)
Definition isspace (c : N) : bool :=
  ((9 <=? c) && (c <=? 13) || (28 <=? c) && (c <=? 32) || (c =? 133) || (c =? 160)
   || (c =? 5760) || (8192 <=? c) && (c <=? 8202) || (c =? 8232) || (c =? 8233)
   || (c =? 8239) || (c =? 8287) || (c =? 12288))%N.

(** [s.strip()]: whitespace taken off both ends. *)
Fixpoint lstrip_ws (s : str) : str :=
  match s with
  | [] => []
  | c :: rest => if isspace c then lstrip_ws rest else s
  end.

Definition strip_ws (s : str) : str := rev (lstrip_ws (rev (lstrip_ws s))).

(** [s.split()]: the maximal runs of characters that are not whitespace.
    [word] is the run being read, last character first. *)
Fixpoint split_from (word : str) (s : str) : list str :=
  match s with
  | [] => if is_empty word then [] else [rev word]
  | c :: rest =>
      if isspace c then
        if is_empty word then split_from [] rest
        else rev word :: split_from [] rest
      else split_from (c :: word) rest
  end.

Definition split (s : str) : list str := split_from [] s.

(** A word as [split] returns them: not empty, without whitespace. *)
Definition nospace_word (w : str) : Prop :=
  w <> [] /\ forall x, In x w -> isspace x = false.

(** [sep.join(parts)] *)
Fixpoint join (sep : str) (parts : list str) : str :=
  match parts with
  | [] => []
  | [p] => p
  | p :: rest => p ++ sep ++ join sep rest
  end.

(** [while sep + sep in s: s = s.replace(sep + sep, sep)], for a
    non-empty [sep] (an empty one is returned at once: the source never
    runs the loop on it). *)
Equations dedupe (sep : str) (s : str) : str by wf (List.length s) lt :=
dedupe sep s with
    Sumbool.sumbool_of_bool (negb (is_empty sep) && contains (sep ++ sep) s) := {
  | left _ => dedupe sep (replace (sep ++ sep) sep s)
  | right _ => s }.
Next Obligation.
  apply andb_prop in e. destruct e as [Hne Hc].
  unfold replace. set (old := sep ++ sep) in *.
  assert (Hlen : (List.length sep < List.length old)%nat).
  { unfold old. rewrite List.length_app. destruct sep; [discriminate | simpl; lia]. }
  assert (Hsw : forall p t, startswith p t = true ->
                            (List.length p <= List.length t)%nat).
  { induction p as [| a p IH]; intros [| b t] H; simpl in *; try lia; try discriminate.
    apply andb_prop in H. destruct H as [_ H]. apply IH in H. lia. }
  assert (HA : forall txt skip, (skip <= List.length txt)%nat ->
             (List.length (replace_from skip old sep txt) + skip <= List.length txt)%nat).
  { induction txt as [| c rest IH]; intros skip Hs.
    - simpl in *. lia.
    - destruct skip as [| k].
      + cbn [replace_from]. destruct (startswith old (c :: rest)) eqn:E.
        * apply Hsw in E. cbn [List.length] in E. rewrite List.length_app.
          specialize (IH (List.length old - 1)%nat ltac:(lia)). cbn [List.length]. lia.
        * cbn [List.length]. specialize (IH O ltac:(lia)). lia.
      + cbn [replace_from List.length] in *. specialize (IH k ltac:(lia)). lia. }
  assert (HB : forall txt, contains old txt = true ->
             (List.length (replace_from 0 old sep txt) < List.length txt)%nat).
  { induction txt as [| c rest IH]; intros H.
    - simpl in H. rewrite orb_false_r in H. apply Hsw in H. simpl in H. lia.
    - cbn [contains] in H. cbn [replace_from].
      destruct (startswith old (c :: rest)) eqn:E.
      + apply Hsw in E. cbn [List.length] in E. rewrite List.length_app.
        pose proof (HA rest (List.length old - 1)%nat ltac:(lia)).
        cbn [List.length]. lia.
      + cbn [orb] in H. apply IH in H. cbn [List.length]. lia. }
  exact (HB s Hc).
Qed.

End Str.

(* ===================================================================== *)
(** * Python dicts with string keys                                       *)
(* ===================================================================== *)

Module Dict.

(** A [dict]: its items in insertion order. *)
Definition dict (V : Type) : Type := list (Str.str * V).

(** [d.get(key)] *)
Fixpoint lookup {V : Type} (key : Str.str) (d : dict V) : option V :=
  match d with
  | [] => None
  | (k, v) :: rest => if Str.eqb k key then Some v else lookup key rest
  end.

(** [d[key] = value]: a key that is there keeps its place. *)
Fixpoint insert {V : Type} (key : Str.str) (value : V) (d : dict V) : dict V :=
  match d with
  | [] => [(key, value)]
  | (k, v) :: rest =>
      if Str.eqb k key then (k, value) :: rest else (k, v) :: insert key value rest
  end.

Definition keys {V : Type} (d : dict V) : list Str.str := map fst d.

End Dict.

(* ===================================================================== *)
(** * [PhotoProcessor]                                                    *)
(* ===================================================================== *)

Module PhotoProcessor.

Import PIL.

Definition region : Type := (Z * Z * Z * Z)%type.

(** ** The face locator *)

Definition face : Type := (Z * Z * Z * Z)%type.

(** OpenCV as the locator sees it: [import cv2], [cv2.imread] (which
    answers [None] for a file it cannot decode), [cv2.cvtColor] and the
    cascade's [detectMultiScale]. *)
Record opencv (Path Mat Cascade : Type) : Type := mkOpenCV {
  import_cv2 : result Datatypes.unit;
  imread : Path -> result (option Mat);
  cvtColor : Mat -> result Mat;
  detectMultiScale : Cascade -> Mat -> result (list face)
}.
Arguments mkOpenCV {Path Mat Cascade} _ _ _ _.
Arguments import_cv2 {Path Mat Cascade} _.
Arguments imread {Path Mat Cascade} _ _.
Arguments cvtColor {Path Mat Cascade} _ _.
Arguments detectMultiScale {Path Mat Cascade} _ _ _.

Section FaceLocator.
Context {Path Mat Cascade : Type}.
Variable cv2 : opencv Path Mat Cascade.

(** The body of the [try] block. *)
Definition detect_faces_try (cascade : Cascade) (image_path : Path)
  : result (list face) :=
  _ <- import_cv2 cv2 ;;
  img <- imread cv2 image_path ;;
  match img with
  | None => Ok []
  | Some img =>
      gray <- cvtColor cv2 img ;;
      faces <- detectMultiScale cv2 cascade gray ;;
      Ok (map (fun '(x, y, w, h) => (x, y, w, h)) faces)
  end.

(** [self.face_cascade] is [None] when the classifier could not be
    loaded. *)
Definition detect_faces (face_cascade : option Cascade) (image_path : Path)
  : result (list face) :=
  match face_cascade with
  | None => Ok []
  | Some cascade =>
      match detect_faces_try cascade image_path with
      | Ok faces => Ok faces
      | Raise ImportError => Ok []
      | Raise _ => Ok []
      end
  end.
End FaceLocator.

(** ** Centre crop and clipping, shared by the compositors *)

(** Lines 493-510 of [crop_image] (and the same lines of the two
    white-background variants). *)
Definition center_crop (orig_width orig_height : Z) (target_width target_height : num)
  : result region :=
  aspect_ratio <- truediv target_width target_height ;;
  orig_ratio <- truediv (Int orig_width) (Int orig_height) ;;
  if fltb aspect_ratio orig_ratio then
    p <- mulf (Int orig_height) (Float aspect_ratio) ;;
    new_width <- int_of_float p ;;
    Ok ((orig_width - new_width) / 2, 0, new_width, orig_height)
  else
    q <- truediv (Int orig_width) (Float aspect_ratio) ;;
    new_height <- int_of_float q ;;
    Ok (0, (orig_height - new_height) / 2, orig_width, new_height).


(** "Ensure crop coordinates are within image bounds". *)
Definition clamp (orig_width orig_height : Z) (r : region) : region :=
  let '(x, y, width, height) := r in
  let x := Z.max 0 (Z.min x orig_width) in
  let y := Z.max 0 (Z.min y orig_height) in
  let width := Z.min width (orig_width - x) in
  let height := Z.min height (orig_height - y) in
  (x, y, width, height).

(** The region the compositors crop: the caller's, or the centre crop
    when a coordinate is [None]. *)
Definition plan (orig_width orig_height : Z) (target_width target_height : num)
    (x y width height : option Z) : result region :=
  r <- match x, y, width, height with
       | Some x, Some y, Some width, Some height => Ok (x, y, width, height)
       | _, _, _, _ => center_crop orig_width orig_height target_width target_height
       end ;;
  Ok (clamp orig_width orig_height r).

(** ** The compositors *)

(** What one call finds outside the program: the outcome of
    [Image.open(image_path)], the lower-cased suffixes of the two paths,
    whether the output path contains the word "original", and whether the
    output directory and file can be written. *)
Record call : Type := mkCall {
  opened : result Image;
  original_format : string;
  output_suffix : string;
  names_original : bool;
  disk : result Datatypes.unit
}.

(** A [try] whose handler logs and returns [False]. *)
Definition returns (body : result Artifact) : bool * option Artifact :=
  match body with
  | Ok art => (true, Some art)
  | Raise _ => (false, None)
  end.

(** The float literal [0.01]. *)
Definition f0_01 : float := literal 1 100.

(** The size the crop is resized to before it is pasted (lines 321-328). *)
Definition scaled_size (target_width target_height : Z) (target_ratio cropped_ratio : float)
  : result (Z * Z) :=
  if fltb target_ratio cropped_ratio then
    let new_height := target_height in
    p <- mulf (Int new_height) (Float cropped_ratio) ;;
    new_width <- int_of_float p ;;
    Ok (new_width, new_height)
  else
    let new_width := target_width in
    q <- truediv (Int new_width) (Float cropped_ratio) ;;
    new_height <- int_of_float q ;;
    Ok (new_width, new_height).

(** What the specification words say of that size: the resized crop
    fits fully within the target. *)
Definition fits_within (new_size target : Z * Z) : Prop :=
  fst new_size <= fst target /\ snd new_size <= snd target.

(** The ratio test of line 315. *)
Definition ratios_close (cropped_ratio target_ratio : float) : bool :=
  fltb (fabs (fsub cropped_ratio target_ratio)) f0_01.

(** Lines 306-339: from the cropped image to [final_img]. *)
Definition compose (K : filters) (cropped : Image) (target_width target_height : num)
    (white_background : bool) : result Image :=
  target_ratio <- truediv target_width target_height ;;
  cropped_ratio <- truediv (Int (width cropped)) (Int (height cropped)) ;;
  if white_background then
    tw <- as_int target_width ;;
    th <- as_int target_height ;;
    white_bg <- new tw th white ;;
    if ratios_close cropped_ratio target_ratio then
      resize K cropped tw th
    else
      '(new_width, new_height) <- scaled_size tw th target_ratio cropped_ratio ;;
      resized <- resize K cropped new_width new_height ;;
      let paste_x := (tw - new_width) / 2 in
      let paste_y := (th - new_height) / 2 in
      Ok (paste white_bg resized paste_x paste_y)
  else
    tw <- as_int target_width ;;
    th <- as_int target_height ;;
    resize K cropped tw th.

(** Lines 349-357: the DPI written into the file. *)
Definition final_dpi (dimensions : CropDimensions.t) : Z :=
  let dpi_value := dpi dimensions in
  match min_dpi dimensions with
  | Some min_dpi_required =>
      if truthy (Some min_dpi_required) && (dpi_value <? min_dpi_required)
      then min_dpi_required else dpi_value
  | None => dpi_value
  end.

Definition crop_image_with_white_background_optimized (K : filters) (c : call)
    (dimensions : CropDimensions.t) (x y width height : option Z)
    (white_background : bool) : bool * option Artifact :=
  returns (
    '(target_width, target_height) <- to_pixels dimensions ;;
    let output_suffix :=
      if (original_format c =? ".png")%string then output_suffix c else ".jpg"%string in
    img <- opened c ;;
    let '(orig_width, orig_height) := size img in
    '(x, y, width, height) <-
      plan orig_width orig_height target_width target_height x y width height ;;
    cropped <- crop img x y (x + width) (y + height) ;;
    final_img <- compose K cropped target_width target_height white_background ;;
    let enhanced := enhance K final_img in
    _ <- disk c ;;
    let final_dpi := final_dpi dimensions in
    if (output_suffix =? ".png")%string then
      Ok (mkArtifact PNG None (final_dpi, final_dpi) enhanced)
    else
      Ok (mkArtifact JPEG (Some 90) (final_dpi, final_dpi) enhanced)).

Definition crop_image (K : filters) (c : call)
    (dimensions : CropDimensions.t) (x y width height : option Z)
    : bool * option Artifact :=
  returns (
    let output_format :=
      if (output_suffix c =? ".original")%string || names_original c
      then original_format c else output_suffix c in
    img <- opened c ;;
    let '(orig_width, orig_height) := size img in
    '(target_width, target_height) <- to_pixels dimensions ;;
    '(x, y, width, height) <-
      plan orig_width orig_height target_width target_height x y width height ;;
    cropped <- crop img x y (x + width) (y + height) ;;
    tw <- as_int target_width ;;
    th <- as_int target_height ;;
    resized <- resize K cropped tw th ;;
    let enhanced := enhance K resized in
    _ <- disk c ;;
    if (output_format =? ".png")%string then
      Ok (mkArtifact PNG None (300, 300) enhanced)
    else
      Ok (mkArtifact JPEG (Some 95) (300, 300) enhanced)).

(** ** Records of people, and matching photos to them *)

(** A record as the Excel reader builds it: text fields, and under
    ['_original_data'] the texts of the original columns.  A text is true
    when it is not empty; a missing key is [None] where the source would
    raise [KeyError]. *)
Record person : Type := mkPerson {
  fields : Dict.dict Str.str;
  original_data : option (Dict.dict Str.str)
}.

Definition truthy_text (s : Str.str) : bool := negb (Str.is_empty s).

(** [key in record and record[key]]: the text, when it is there and not
    empty. *)
Definition filled (key : Str.str) (d : Dict.dict Str.str) : option Str.str :=
  match Dict.lookup key d with
  | Some v => if truthy_text v then Some v else None
  | None => None
  end.

Definition _get_person_key (p : person) : option Str.str :=
  match filled (Str.of_ascii "student_no") (fields p) with
  | Some student_no =>
      match Dict.lookup (Str.of_ascii "first_name") (fields p),
            Dict.lookup (Str.of_ascii "last_name") (fields p) with
      | Some first_name, Some last_name =>
          Some (student_no ++ Str.of_ascii "_" ++ first_name
                ++ Str.of_ascii "_" ++ last_name)
      | _, _ => None
      end
  | None =>
      match Dict.lookup (Str.of_ascii "first_name") (fields p),
            Dict.lookup (Str.of_ascii "last_name") (fields p) with
      | Some first_name, Some last_name =>
          Some (first_name ++ Str.of_ascii "_" ++ last_name)
      | _, _ => None
      end
  end.

(** The photos that a table of matches hands out. *)
Definition assigned {Path : Type} (matches : Dict.dict (option Path)) : list Path :=
  flat_map (fun item => match snd item with Some p => [p] | None => [] end) matches.

(** What the two matchers by name keep true of the table and of the
    photos used: the photos handed out are all different, were all marked
    as used, and each entry is justified. *)
Definition sound {Path : Type} (justified : Str.str -> Path -> Prop)
    (matches : Dict.dict (option Path)) (used : list Path) : Prop :=
  NoDup (assigned matches) /\
  (forall p, In p (assigned matches) -> In p used) /\
  (forall k p, Dict.lookup k matches = Some (Some p) -> justified k p).

Section Matching.
Context {Path : Type}.
(** Equality of paths, [photo.stem] and [str.lower]. *)
Variable path_eqb : Path -> Path -> bool.
Variable stem : Path -> Str.str.
Variable lower : Str.str -> Str.str.

(** Lines 628-635: the photos in order. *)
Fixpoint sequential (i : nat) (photos : list Path) (people : list person)
    (matches : Dict.dict (option Path)) : option (Dict.dict (option Path)) :=
  match people with
  | [] => Some matches
  | p :: rest =>
      match _get_person_key p with
      | None => None
      | Some person_key =>
          sequential (S i) photos rest
            (Dict.insert person_key (nth_error photos i) matches)
      end
  end.

(** Lines 714-722: the first photo not yet used whose name holds the
    number. *)
Fixpoint first_with_number (used : list Path) (student_no : Str.str)
    (photos : list Path) : option Path :=
  match photos with
  | [] => None
  | photo :: rest =>
      if existsb (path_eqb photo) used then first_with_number used student_no rest
      else if Str.contains student_no (stem photo) then Some photo
      else first_with_number used student_no rest
  end.

Fixpoint by_student_number (photos : list Path) (people : list person)
    (matches : Dict.dict (option Path)) (used_photos : list Path)
  : option (Dict.dict (option Path)) :=
  match people with
  | [] => Some matches
  | p :: rest =>
      match _get_person_key p with
      | None => None
      | Some person_key =>
          match filled (Str.of_ascii "student_no") (fields p) with
          | None =>
              by_student_number photos rest (Dict.insert person_key None matches)
                used_photos
          | Some student_no =>
              match first_with_number used_photos student_no photos with
              | Some best_match =>
                  by_student_number photos rest
                    (Dict.insert person_key (Some best_match) matches)
                    (best_match :: used_photos)
              | None =>
                  by_student_number photos rest (Dict.insert person_key None matches)
                    used_photos
              end
          end
      end
  end.

Definition _match_by_student_number (photos : list Path) (people : list person)
  : option (Dict.dict (option Path)) :=
  by_student_number photos people [] [].

(** Lines 680-684: the lengths of the search terms found in the name. *)
Definition score_of (search_terms : list Str.str) (filename : Str.str) : Z :=
  fold_left (fun score term =>
               if Str.contains term filename
               then score + Z.of_nat (List.length term) else score)
            search_terms 0.

(** Lines 675-688: the first photo not yet used of the highest score. *)
Fixpoint best_by_score (used : list Path) (search_terms : list Str.str)
    (photos : list Path) (best_match : option Path) (best_score : Z)
  : option Path * Z :=
  match photos with
  | [] => (best_match, best_score)
  | photo :: rest =>
      if existsb (path_eqb photo) used
      then best_by_score used search_terms rest best_match best_score
      else
        let score := score_of search_terms (lower (stem photo)) in
        if best_score <? score
        then best_by_score used search_terms rest (Some photo) score
        else best_by_score used search_terms rest best_match best_score
  end.

Fixpoint by_filename (photos : list Path) (people : list person)
    (matches : Dict.dict (option Path)) (used_photos : list Path)
  : option (Dict.dict (option Path)) :=
  match people with
  | [] => Some matches
  | p :: rest =>
      match _get_person_key p with
      | None => None
      | Some person_key =>
          match Dict.lookup (Str.of_ascii "first_name") (fields p),
                Dict.lookup (Str.of_ascii "last_name") (fields p) with
          | Some first_name, Some last_name =>
              let search_terms :=
                [lower first_name; lower last_name;
                 lower (first_name ++ Str.of_ascii " " ++ last_name);
                 lower (last_name ++ Str.of_ascii " " ++ first_name)]
                ++ match filled (Str.of_ascii "student_no") (fields p) with
                   | Some student_no => [student_no]
                   | None => []
                   end in
              match best_by_score used_photos search_terms photos None 0 with
              | (Some best_match, best_score) =>
                  if 0 <? best_score then
                    by_filename photos rest
                      (Dict.insert person_key (Some best_match) matches)
                      (best_match :: used_photos)
                  else
                    by_filename photos rest (Dict.insert person_key None matches)
                      used_photos
              | (None, _) =>
                  by_filename photos rest (Dict.insert person_key None matches)
                    used_photos
              end
          | _, _ => None
          end
      end
  end.

Definition _match_by_filename (photos : list Path) (people : list person)
  : option (Dict.dict (option Path)) :=
  by_filename photos people [] [].

Definition match_photos_to_people (photos : list Path) (people : list person)
    (match_method : string) : option (Dict.dict (option Path)) :=
  if (match_method =? "sequential")%string then sequential 0 photos people []
  else if (match_method =? "name_matching")%string then _match_by_filename photos people
  else if (match_method =? "student_number")%string then
    _match_by_student_number photos people
  else Some [].
End Matching.

(** ** Photos by class *)

(** ['sınıf'], ['sınıf_adı'] and ["Sınıf_Bilgisi_Yok"]: 305 is the
    dotless i. *)
Definition sinif_tr : Str.str := [115; 305; 110; 305; 102]%N.
Definition sinif_adi_tr : Str.str := sinif_tr ++ Str.of_ascii "_ad" ++ [305%N].
Definition no_class : Str.str :=
  [83; 305; 110; 305; 102]%N ++ Str.of_ascii "_Bilgisi_Yok".

Definition possible_class_fields : list Str.str :=
  [Str.of_ascii "class_name"; sinif_tr; Str.of_ascii "sinif"; Str.of_ascii "class";
   sinif_adi_tr; Str.of_ascii "sinif_adi"].

(** The first of the fields that is there and not empty. *)
Fixpoint first_filled (names : list Str.str) (d : Dict.dict Str.str) : option Str.str :=
  match names with
  | [] => None
  | field :: rest =>
      match filled field d with
      | Some v => Some v
      | None => first_filled rest d
      end
  end.

Section ByClass.
Context {Path : Type}.
Variable lower : Str.str -> Str.str.

(** Lines 1047-1050: the first non-empty column whose name holds a word
    for "class". *)
Fixpoint first_class_column (items : Dict.dict Str.str) : option Str.str :=
  match items with
  | [] => None
  | (col_name, value) :: rest =>
      if truthy_text value &&
         existsb (fun keyword => Str.contains keyword (lower col_name))
                 [sinif_tr; Str.of_ascii "sinif"; Str.of_ascii "class"]
      then Some value
      else first_class_column rest
  end.

(** The definition of lines 1031-1052, which replaces the one of lines
    850-870 in the class. *)
Definition _get_class_name_from_record (record : person) : option Str.str :=
  match first_filled possible_class_fields (fields record) with
  | Some v => Some (Str.strip_ws v)
  | None =>
      let original_data :=
        match original_data record with Some d => d | None => [] end in
      match first_filled possible_class_fields original_data with
      | Some v => Some (Str.strip_ws v)
      | None =>
          match first_class_column original_data with
          | Some v => Some (Str.strip_ws v)
          | None => None
          end
      end
  end.

(** Lines 1016-1018: the class a record is filed under. *)
Definition class_of (record : person) : Str.str :=
  match _get_class_name_from_record record with
  | Some class_name => if truthy_text class_name then class_name else no_class
  | None => no_class
  end.

(** [photos_by_class[class_name].append(photo)], after the list was
    created if it was not there. *)
Definition append_to (class_name : Str.str) (photo : Path)
    (photos_by_class : Dict.dict (list Path)) : Dict.dict (list Path) :=
  match Dict.lookup class_name photos_by_class with
  | Some l => Dict.insert class_name (l ++ [photo]) photos_by_class
  | None => Dict.insert class_name [photo] photos_by_class
  end.

Fixpoint by_class (photos : list Path) (excel_data : list person)
    (photos_by_class : Dict.dict (list Path)) : Dict.dict (list Path) :=
  match excel_data, photos with
  | record :: records, photo :: rest =>
      by_class rest records (append_to (class_of record) photo photos_by_class)
  | _, _ => photos_by_class
  end.

(** [naming_pattern] and [selected_column] are not read. *)
Definition get_photos_by_class_from_data (photos : list Path)
    (excel_data : list person) (naming_pattern : string)
    (selected_column : option Str.str) : Dict.dict (list Path) :=
  by_class photos excel_data [].
End ByClass.

(** ** [crop_image_with_white_background] *)

(** The variant that fits the crop within the target.  [thumbnail] is
    Pillow's [Image.thumbnail((w, h), LANCZOS)], which shrinks the image
    in place: here it returns the shrunk image. *)
Definition crop_image_with_white_background
    (K : filters) (thumbnail : Image -> Z -> Z -> result Image) (c : call)
    (dimensions : CropDimensions.t) (x y width height : option Z)
    (white_background : bool) : bool * option Artifact :=
  returns (
    '(target_width, target_height) <- to_pixels dimensions ;;
    img <- opened c ;;
    let '(orig_width, orig_height) := size img in
    '(x, y, width, height) <-
      plan orig_width orig_height target_width target_height x y width height ;;
    cropped <- crop img x y (x + width) (y + height) ;;
    final_img <-
      (if white_background then
         tw <- as_int target_width ;;
         th <- as_int target_height ;;
         white_bg <- new tw th white ;;
         cropped <- thumbnail cropped tw th ;;
         let paste_x := (tw - PIL.width cropped) / 2 in
         let paste_y := (th - PIL.height cropped) / 2 in
         Ok (paste white_bg cropped paste_x paste_y)
       else
         tw <- as_int target_width ;;
         th <- as_int target_height ;;
         resize K cropped tw th) ;;
    let enhanced := enhance K final_img in
    _ <- disk c ;;
    Ok (mkArtifact JPEG (Some 90) (400, 400) enhanced)).

(** ** [add_watermark] *)

(** Lines 1119-1127: where the watermark goes; a name that is not in the
    table means the bottom right corner. *)
Definition watermark_position (position : string)
    (base_width base_height wm_width wm_height : Z) : Z * Z :=
  let bottom_right := (base_width - wm_width - 10, base_height - wm_height - 10) in
  if (position =? "bottom_right")%string then bottom_right
  else if (position =? "bottom_left")%string then (10, base_height - wm_height - 10)
  else if (position =? "top_right")%string then (base_width - wm_width - 10, 10)
  else if (position =? "top_left")%string then (10, 10)
  else if (position =? "center")%string then
    ((base_width - wm_width) / 2, (base_height - wm_height) / 2)
  else bottom_right.

(** [base.paste(im, (x, y), im)]: within the box of [im] the pixel is a
    mixture of the two, weighted by the alpha of [im] there ([blend], a
    stand-in for Pillow's compositing, sees the watermark, the place in
    it and the pixel under it). *)
Definition paste_masked (blend : Image -> Z -> Z -> rgb -> rgb)
    (base im : Image) (x y : Z) : Image :=
  mkImage (PIL.width base) (PIL.height base)
    (fun i j => if covers im x y i j
                then blend im (i - x) (j - y) (getpixel base i j)
                else getpixel base i j).

(** [add_watermark]: the two files as opened, the mixture, and whether
    the result could be saved; the answer and the image saved. *)
Definition add_watermark (K : filters) (blend : Image -> Z -> Z -> rgb -> rgb)
    (base_opened watermark_opened : result Image) (save : result Datatypes.unit)
    (watermark_size : Z * Z) (position : string) : bool * option Image :=
  match (base_img <- base_opened ;;
         watermark_img <- watermark_opened ;;
         watermark_resized <-
           resize K watermark_img (fst watermark_size) (snd watermark_size) ;;
         let '(base_width, base_height) := size base_img in
         let '(wm_width, wm_height) := size watermark_resized in
         let pos := watermark_position position base_width base_height
                      wm_width wm_height in
         let stamped := paste_masked blend base_img watermark_resized (fst pos) (snd pos) in
         _ <- save ;;
         Ok stamped) with
  | Ok stamped => (true, Some stamped)
  | Raise _ => (false, None)
  end.

(** ** The face croppers *)

(** [f[2] * f[3]], the key of [max(faces, key=...)]. *)
Definition area (f : face) : Z :=
  let '(_, _, w, h) := f in w * h.

(** [max] keeps the first of the largest: a later face replaces the best
    so far only when its key is strictly greater. *)
Fixpoint largest_from (best : face) (faces : list face) : face :=
  match faces with
  | [] => best
  | f :: rest => largest_from (if area best <? area f then f else best) rest
  end.

(** [max(faces, key=lambda f: f[2] * f[3])] *)
Definition largest_face (faces : list face) : result face :=
  match faces with
  | [] => Raise ValueError
  | f :: rest => Ok (largest_from f rest)
  end.

(** [int(side * factor)] *)
Definition padding (side : Z) (factor : float) : result Z :=
  p <- mulf (Int side) (Float factor) ;;
  int_of_float p.

(** The float literals of the paddings. *)
Definition f0_4 : float := literal 4 10.
Definition f0_8 : float := literal 8 10.

(** Lines 134-143 (the same in the three croppers): the padded face,
    kept within the image. *)
Definition face_box (img_width img_height : Z) (f : face)
    (padding_w padding_h_top padding_h_bottom : Z) : region :=
  let '(x, y, w, h) := f in
  let crop_x := Z.max 0 (x - padding_w) in
  let crop_y := Z.max 0 (y - padding_h_top) in
  let crop_w := Z.min (w + 2 * padding_w) (img_width - crop_x) in
  let crop_h := Z.min (h + padding_h_top + padding_h_bottom) (img_height - crop_y) in
  let crop_w := if img_width <? crop_x + crop_w then img_width - crop_x else crop_w in
  let crop_h := if img_height <? crop_y + crop_h then img_height - crop_y else crop_h in
  (crop_x, crop_y, crop_w, crop_h).

(** The lines the three croppers share, from the largest face to the
    crop box: the paddings are [int(w * side)], [int(h * top)] and
    [int(h * bottom)], and the image is opened for its size. *)
Definition padded_box (faces : list face) (c : call) (side top bottom : float)
  : result region :=
  largest <- largest_face faces ;;
  let '(x, y, w, h) := largest in
  padding_w <- padding w side ;;
  padding_h_top <- padding h top ;;
  padding_h_bottom <- padding h bottom ;;
  img <- opened c ;;
  let '(img_width, img_height) := size img in
  Ok (face_box img_width img_height largest padding_w padding_h_top padding_h_bottom).

(** A [try] whose handler logs and returns [False], around a body that
    returns what a compositor returned. *)
Definition guarded (body : result (bool * option Artifact)) : bool * option Artifact :=
  match body with
  | Ok r => r
  | Raise _ => (false, None)
  end.

Section FaceCroppers.
Context {Path Mat Cascade : Type}.
Variable cv2 : opencv Path Mat Cascade.
Variable K : filters.



Definition crop_face_auto (face_cascade : option Cascade)
    (image_path : Path) (c : call) (dimensions : CropDimensions.t)
    (padding_factor : float) : bool * option Artifact :=
  guarded (
    faces <- detect_faces cv2 face_cascade image_path ;;
    match faces with
    | [] => Ok (false, None)
    | _ :: _ =>
        '(crop_x, crop_y, crop_w, crop_h) <- padded_box faces c padding_factor f0_8 f0_4 ;;
        Ok (crop_image K c dimensions
              (Some crop_x) (Some crop_y) (Some crop_w) (Some crop_h))
    end).
End FaceCroppers.


End PhotoProcessor.

(* ===================================================================== *)
(** * [VesiKolayApp]: the size optimiser and the watermark                *)
(* ===================================================================== *)

Module VesiKolayApp.

(** The codec as the optimiser sees it: the bytes on disk, their count
    ([os.path.getsize]) and "open the file and save it again as JPEG at
    this quality", which yields the new bytes or raises. *)
Record codec (File : Type) : Type := mkCodec {
  getsize : File -> Z;
  save_jpeg : File -> Z -> result File
}.
Arguments mkCodec {File} _ _.
Arguments getsize {File} _ _.
Arguments save_jpeg {File} _ _ _.

Record size_config : Type := mkConfig {
  file_size_limit : option (Z * Z);
  quality : Z
}.

(** Where a run of the optimiser stands: the file, the quality reached
    and, as a ghost, the qualities of the re-encodings done so far (most
    recent first). *)
Record run (File : Type) : Type := mkRun {
  file : File;
  reached : Z;
  passes : list Z
}.
Arguments mkRun {File} _ _ _.
Arguments file {File} _.
Arguments reached {File} _.
Arguments passes {File} _.

(** The qualities of [n] successive passes that start below [q], most
    recent first: [q - 5n; ...; q - 10; q - 5]. *)
Fixpoint descending (q : Z) (n : nat) : list Z :=
  match n with
  | O => []
  | S k => (q - 5 * Z.of_nat (S k)) :: descending q k
  end.

Section Optimizer.
Context {File : Type}.
Variable C : codec File.

(** The [while] loop of lines 3880-3892.  An exception leaves the loop
    with the file as the last successful save wrote it. *)
Equations shrink (max_bytes : Z) (st : run File) : run File * option exn
  by wf (Z.to_nat (reached st - 20)) lt :=
shrink max_bytes st with
    Sumbool.sumbool_of_bool ((max_bytes <? getsize C (file st)) && (20 <? reached st)) := {
  | left _ with save_jpeg C (file st) (reached st - 5) := {
      | Ok f' => shrink max_bytes
                   (mkRun f' (reached st - 5) ((reached st - 5) :: passes st))
      | Raise e => (st, Some e) }
  | right _ => (st, None) }.
Next Obligation.
  apply andb_prop in e. destruct e as [_ Hq].
  apply Z.ltb_lt in Hq. lia.
Qed.

(** What a run of the loop from [st] has done when it ends in [r]: [n]
    passes, each five below the one before, the last of them entered
    above quality 20; a normal exit found the file small enough or the
    quality at 20 or below; and only a save that raises ends it early. *)
Definition shrunk (max_bytes : Z) (st : run File) (r : run File * option exn) : Prop :=
  exists n : nat,
    passes (fst r) = descending (reached st) n ++ passes st /\
    reached (fst r) = reached st - 5 * Z.of_nat n /\
    (n <> O -> 20 < reached st - 5 * (Z.of_nat n - 1)) /\
    (snd r = None ->
     getsize C (file (fst r)) <= max_bytes \/ reached (fst r) <= 20) /\
    ((forall f q, exists f', save_jpeg C f q = Ok f') -> snd r = None).

(** Lines 3894-3900: one re-encoding at a higher quality when the file
    ended up too small. *)
Definition grow (min_bytes original_quality : Z) (st : run File)
  : run File * option exn :=
  if (getsize C (file st) <? min_bytes) && (reached st <? original_quality) then
    let quality := Z.min 95 (reached st + 20) in
    match save_jpeg C (file st) quality with
    | Ok f' => (mkRun f' quality (quality :: passes st), None)
    | Raise e => (st, Some e)
    end
  else (st, None).

(** [optimize_file_size]: the answer, and the run it made (the file
    left on disk and the re-encodings done). *)
Definition optimize_file_size (f : File) (cfg : size_config) : bool * run File :=
  let start := mkRun f (quality cfg) [] in
  match file_size_limit cfg with
  | None => (false, start)
  | Some (min_kb, max_kb) =>
      let min_bytes := min_kb * 1024 in
      let max_bytes := max_kb * 1024 in
      let current_size := getsize C f in
      if (min_bytes <=? current_size) && (current_size <=? max_bytes) then
        (true, start)
      else
        let original_quality := quality cfg in
        match shrink max_bytes start with
        | (st, Some _) => (false, st)
        | (st, None) =>
            match grow min_bytes original_quality st with
            | (st', Some _) => (false, st')
            | (st', None) => (true, st')
            end
        end
  end.
End Optimizer.



(** ** [clean_filename] *)

(** The characters that are not allowed in a file name: less-than,
    greater-than, colon, double quote (code point 34), slash, backslash,
    bar, question mark and star. *)
Definition invalid_chars : Str.str :=
  Str.of_ascii "<>:" ++ [34%N] ++ Str.of_ascii "/\|?*".

Definition clean_filename (filename : Str.str) (preserve_spaces : bool) : Str.str :=
  let filename :=
    fold_left (fun filename char => Str.replace [char] (Str.of_ascii "_") filename)
      invalid_chars filename in
  let filename :=
    if negb preserve_spaces then
      let filename := Str.replace (Str.of_ascii " ") (Str.of_ascii "_") filename in
      let filename := Str.dedupe (Str.of_ascii "_") filename in
      Str.strip (Str.of_ascii "_") filename
    else
      Str.join (Str.of_ascii " ") (Str.split filename) in
  if Str.is_empty filename then Str.of_ascii "unnamed" else filename.

(** What a cleaned name looks like: not empty and free of the invalid
    characters; with spaces preserved, its words are separated by single
    spaces and nothing else; otherwise it has no space, no doubled
    underscore, and no underscore at either end. *)
Definition clean_name (preserve_spaces : bool) (r : Str.str) : Prop :=
  r <> [] /\
  (forall c, In c invalid_chars -> ~ In c r) /\
  if preserve_spaces then r = Str.join (Str.of_ascii " ") (Str.split r)
  else
    ~ In 32%N r /\
    Str.contains (Str.of_ascii "__") r = false /\
    (forall c rest, r = c :: rest -> c <> 95%N) /\
    (forall c rest, rev r = c :: rest -> c <> 95%N).

(** ** [process_single_photo] *)

(** The [size_config] dict as [process_single_photo] reads it: a key
    that is absent is [None]; [force_biometric] is the truth value of
    [size_config.get('force_biometric')] and [white_background] is
    [size_config.get('white_background', False)]. *)
Record configuration : Type := mkConfiguration {
  width_px : option num;
  height_px : option num;
  cfg_unit : option string;
  cfg_width : option num;
  cfg_height : option num;
  width_cm : option num;
  height_cm : option num;
  width_mm : option num;
  height_mm : option num;
  cfg_dpi : option Z;
  cfg_min_dpi : option Z;
  force_biometric : bool;
  white_background : bool;
  limits : size_config
}.






Section Pipeline.
Context {Path Mat Cascade File : Type}.
Variable cv2 : PhotoProcessor.opencv Path Mat Cascade.
Variable K : PIL.filters.
Variable C : codec File.
(** The bytes that saving an artifact writes, and what
    [apply_watermark_to_photo] leaves of a file (itself, when it returns
    early or fails: it swallows every exception). *)
Variable encode : PIL.Artifact -> File.
Variable apply_watermark_to_photo : File -> File.

End Pipeline.

(** ** Naming a renamed photo ([rename_photos], lines 2905-2936) *)

(** [str(n)] of a number that is not negative: its decimal digits. *)
Fixpoint of_uint (d : Decimal.uint) : Str.str :=
  match d with
  | Decimal.Nil => []
  | Decimal.D0 d => 48%N :: of_uint d
  | Decimal.D1 d => 49%N :: of_uint d
  | Decimal.D2 d => 50%N :: of_uint d
  | Decimal.D3 d => 51%N :: of_uint d
  | Decimal.D4 d => 52%N :: of_uint d
  | Decimal.D5 d => 53%N :: of_uint d
  | Decimal.D6 d => 54%N :: of_uint d
  | Decimal.D7 d => 55%N :: of_uint d
  | Decimal.D8 d => 56%N :: of_uint d
  | Decimal.D9 d => 57%N :: of_uint d
  end.

Definition str_of_int (n : N) : Str.str := of_uint (N.to_uint n).

(** Lines 2908-2911: the value of a selected column, when the column is
    in [_original_data] and its stripped text is neither empty nor
    ['nan']. *)
Definition usable_value (data_record : PhotoProcessor.person) (col : Str.str)
  : option Str.str :=
  let original_data :=
    match PhotoProcessor.original_data data_record with Some d => d | None => [] end in
  match Dict.lookup col original_data with
  | Some v =>
      let value := Str.strip_ws v in
      if PhotoProcessor.truthy_text value && negb (Str.eqb value (Str.of_ascii "nan"))
      then Some value
      else None
  | None => None
  end.

(** Lines 2906-2914; [i] is the index of the photo, from 0. *)
Definition name_parts (selected_columns : list Str.str)
    (data_record : PhotoProcessor.person) (i : N) : list Str.str :=
  let name_parts :=
    flat_map (fun col =>
                match usable_value data_record col with
                | Some value => [value]
                | None => []
                end) selected_columns in
  match name_parts with
  | [] => [Str.of_ascii "photo_" ++ str_of_int (i + 1)]
  | _ :: _ => name_parts
  end.

(** Lines 2917-2924: the file name, from the parts, the separator and the
    suffix of the photo. *)
Definition new_filename (selected_columns : list Str.str) (separator : Str.str)
    (photo_suffix : Str.str) (data_record : PhotoProcessor.person) (i : N) : Str.str :=
  let name_parts := name_parts selected_columns data_record i in
  let base_name :=
    if Str.eqb separator (Str.of_ascii " ") then Str.join (Str.of_ascii " ") name_parts
    else Str.join separator name_parts in
  let clean_name :=
    clean_filename base_name (Str.eqb separator (Str.of_ascii " ")) in
  clean_name ++ photo_suffix.

Section Renaming.
(** [Path.stem] and [Path.suffix] of a file name, and the names of
    [renamed_dir] for which [exists()] answers [True]. *)
Variable stem suffix : Str.str -> Str.str.
Variable existing : list Str.str.

Definition path_exists (name : Str.str) : bool := existsb (Str.eqb name) existing.

(** [f"{stem}_{counter}{suffix}"] of the first name. *)
Definition numbered (original_new_path : Str.str) (counter : N) : Str.str :=
  stem original_new_path ++ Str.of_ascii "_" ++ str_of_int counter
  ++ suffix original_new_path.

(** Lines 2930-2936: [while new_path.exists(): ...], [fuel] tests of
    [exists()] at most. *)
Fixpoint free_path (fuel : nat) (original_new_path new_path : Str.str) (counter : N)
  : option Str.str :=
  match fuel with
  | O => None
  | S fuel =>
      if path_exists new_path then
        free_path fuel original_new_path (numbered original_new_path counter)
          (counter + 1)
      else Some new_path
  end.

(** Lines 2905-2936: the path a photo is copied to. *)
Definition new_path (fuel : nat) (selected_columns : list Str.str) (separator : Str.str)
    (photo_suffix : Str.str) (data_record : PhotoProcessor.person) (i : N)
  : option Str.str :=
  let new_filename :=
    new_filename selected_columns separator photo_suffix data_record i in
  free_path fuel new_filename new_filename 1.
End Renaming.

End VesiKolayApp.


(* ===================================================================== *)
(** * Concrete inputs                                                     *)
(* ===================================================================== *)

Module Inputs.

Import PIL PhotoProcessor VesiKolayApp.

(** The size configurations of [get_size_configuration] used below. *)
Definition e_okul : CropDimensions.t :=
  CropDimensions.mk (Float (literal 35 1)) (Float (literal 45 1)) "mm" 300 None.

(** A 100 x 100 pixel spec. *)
Definition square_100 : CropDimensions.t :=
  CropDimensions.mk (Int 100) (Int 100) "px" 300 None.
Definition acik_lise : CropDimensions.t :=
  CropDimensions.mk (Int 394) (Int 512) "px" 400 (Some 400).

(** 35 x 45 mm at 300 DPI with a 400 DPI floor. *)
Definition e_okul_floor_400 : CropDimensions.t :=
  with_min_dpi e_okul (Some 400).

(** A unit the resolver does not know. *)
Definition in_inches : CropDimensions.t :=
  CropDimensions.mk (Int 2) (Int 3) "inch" 300 None.

(** A stand-in for Pillow's filters, to run the compositors: nearest
    neighbour for the resampling kernel, no sharpening. *)
Definition nearest : filters :=
  mkFilters
    (fun im w h i j => getpixel im (i * PIL.width im / w) (j * PIL.height im / h))
    (fun im i j => getpixel im i j).

(** A readable 1200 x 1600 source, black throughout, and a call that
    finds it and can write its output. *)
Definition portrait : Image := mkImage 1200 1600 (fun _ _ => black).

(** A 200 x 100 crop, black throughout. *)
Definition wide_black : Image := mkImage 200 100 (fun _ _ => black).


(** The E-Okul budget: 20 to 150 KB from quality 85. *)
Definition e_okul_budget : size_config := mkConfig (Some (20, 150)) 85.

(** A toy codec: a file is its byte count, and saving at quality [q]
    leaves [q] percent of it. *)
Definition percent_codec : codec Z :=
  mkCodec (fun f => f) (fun f q => Ok (f * q / 100)).

(** An OpenCV whose [imread] decodes nothing. *)
Definition undecodable : opencv string Datatypes.unit Datatypes.unit :=
  mkOpenCV (Ok tt) (fun _ => Ok None) (fun m => Ok m) (fun _ _ => Ok []).

Definition readable (img : Image) : call :=
  mkCall (Ok img) ".jpg" ".jpg" false (Ok tt).

(** An OpenCV that decodes every file and finds one 300 x 300 face at
    (400, 500). *)
Definition one_face : opencv string Datatypes.unit Datatypes.unit :=
  mkOpenCV (Ok tt) (fun _ => Ok (Some tt)) (fun m => Ok m)
           (fun _ _ => Ok [(400, 500, 300, 300)]).

(** The configurations of 'e_okul' and 'acik_lise' in
    [get_size_configuration]. *)
Definition e_okul_config : configuration :=
  mkConfiguration None None None None None None None (Some (Int 35)) (Some (Int 45))
    (Some 300) None false false (mkConfig (Some (20, 150)) 85).
Definition acik_lise_config : configuration :=
  mkConfiguration (Some (Int 394)) (Some (Int 512)) None None None None None None None
    (Some 400) (Some 400) true true (mkConfig (Some (1, 150)) 90).

(** Three pupils: Ali Kaya (no. 101), Veli Demir (no number) and a
    second Ali Kaya with the number 101. *)
Definition ali : person :=
  mkPerson [(Str.of_ascii "first_name", Str.of_ascii "Ali");
            (Str.of_ascii "last_name", Str.of_ascii "Kaya");
            (Str.of_ascii "student_no", Str.of_ascii "101");
            (Str.of_ascii "class_name", Str.of_ascii " 9A ")] None.
Definition veli : person :=
  mkPerson [(Str.of_ascii "first_name", Str.of_ascii "Veli");
            (Str.of_ascii "last_name", Str.of_ascii "Demir")]
           (Some [(Str.of_ascii "Sinif", Str.of_ascii "9B")]).
Definition anonymous : person :=
  mkPerson [(Str.of_ascii "student_no", Str.of_ascii "102")] None.

(** Paths as texts: the stem is the text before the last dot (here: the
    text itself when it has no dot), and [lower] leaves ASCII capitals
    aside. *)
Definition stem_of (path : Str.str) : Str.str :=
  match Str.split_from [] (map (fun c => if (c =? 46)%N then 32%N else c) path) with
  | s :: _ => s
  | [] => []
  end.
Definition ascii_lower (s : Str.str) : Str.str :=
  map (fun c => if ((65 <=? c) && (c <=? 90))%N then (c + 32)%N else c) s.

End Inputs.

(* ===================================================================== *)
(** * Facts about the runtime                                             *)
(* ===================================================================== *)

Section FloatFacts.










(** [int] of a double that is not negative is its floor. *)
Lemma int_of_float_floor f w :
  signed false f -> int_of_float f = Ok w -> floor_of f w.
Proof.
  unfold floor_of. intros Hs0 H0. split; [exact H0 |]. revert Hs0 H0.
  destruct f as [s|s| |s m e]; cbn [signed int_of_float value]; intros Hs H;
    try discriminate; inversion H; subst; clear H.
  - repeat split; try lia; unfold Qle, Qlt; simpl; lia.
  - destruct e as [|p|p].
    + rewrite Z.shiftl_0_r.
      repeat split; try lia; unfold Qle, Qlt; cbn [Qnum Qden inject_Z]; lia.
    + rewrite Z.shiftl_mul_pow2 by lia.
      change (Z.pow_pos 2 p) with (2 ^ Z.pos p).
      assert (0 < 2 ^ Z.pos p) by (apply Z.pow_pos_nonneg; lia).
      repeat split; try nia; unfold Qle, Qlt; cbn [Qnum Qden inject_Z]; lia.
    + rewrite Z.shiftl_div_pow2 by lia.
      change (- Z.neg p) with (Z.pos p).
      assert (Hp : 0 < 2 ^ Z.pos p) by (apply Z.pow_pos_nonneg; lia).
      pose proof (Z.div_mod (Z.pos m) (2 ^ Z.pos p) ltac:(lia)) as Hdm.
      pose proof (Z.mod_pos_bound (Z.pos m) (2 ^ Z.pos p) Hp) as Hb.
      assert (Hq : 0 <= Z.pos m / 2 ^ Z.pos p) by (apply Z.div_pos; lia).
      repeat split; try lia; unfold Qle, Qlt; cbn [Qnum Qden inject_Z];
        rewrite Pos2Z.inj_pow; nia.
Qed.



End FloatFacts.

(* ===================================================================== *)
(** * The range of rounded results                                        *)
(* ===================================================================== *)

Section FloatRange.

Lemma digits2_pos_bounds (p : positive) :
  2 ^ (Z.pos (digits2_pos p) - 1) <= Z.pos p < 2 ^ Z.pos (digits2_pos p).
Proof.
  induction p as [p IH | p IH |]; cbn [digits2_pos].
  - rewrite Pos2Z.inj_succ.
    replace (Z.succ (Z.pos (digits2_pos p)) - 1) with (Z.succ (Z.pos (digits2_pos p) - 1)) by lia.
    rewrite !Z.pow_succ_r by lia. lia.
  - rewrite Pos2Z.inj_succ.
    replace (Z.succ (Z.pos (digits2_pos p)) - 1) with (Z.succ (Z.pos (digits2_pos p) - 1)) by lia.
    rewrite !Z.pow_succ_r by lia. lia.
  - simpl. lia.
Qed.

Lemma Zdigits2_bounds (m : Z) :
  0 < m -> 2 ^ (Zdigits2 m - 1) <= m < 2 ^ Zdigits2 m.
Proof.
  destruct m as [|p|p]; try lia. intros _. apply digits2_pos_bounds.
Qed.

Lemma Zdigits2_pos (m : Z) : 0 < m -> 0 < Zdigits2 m.
Proof. destruct m as [|p|p]; simpl; lia. Qed.

Lemma Zdigits2_unique (m k : Z) :
  2 ^ (k - 1) <= m < 2 ^ k -> 0 < m -> Zdigits2 m = k.
Proof.
  intros [Hlo Hhi] Hm.
  pose proof (Zdigits2_bounds m Hm) as [Dlo Dhi].
  pose proof (Zdigits2_pos m Hm) as Dpos.
  assert (Hk : 0 < k).
  { destruct (Z_lt_le_dec 0 k) as [|Hk]; [assumption |].
    assert (2 ^ k <= 2 ^ 0) by (destruct (Z_lt_le_dec k 0);
      [rewrite Z.pow_neg_r by lia; simpl; lia | apply Z.pow_le_mono_r; lia]).
    simpl in *. lia. }
  destruct (Z_lt_le_dec (Zdigits2 m) k) as [Hlt | Hge].
  - assert (2 ^ Zdigits2 m <= 2 ^ (k - 1)) by (apply Z.pow_le_mono_r; lia). lia.
  - destruct (Z_lt_le_dec k (Zdigits2 m)) as [Hgt | Hle]; [| lia].
    assert (2 ^ k <= 2 ^ (Zdigits2 m - 1)) by (apply Z.pow_le_mono_r; lia). lia.
Qed.

Lemma shr_1_m (mrs : shr_record) :
  0 <= shr_m mrs -> shr_m (shr_1 mrs) = shr_m mrs / 2.
Proof.
  destruct mrs as [m r s]. cbn [shr_m]. intros Hm.
  destruct m as [|p|p]; try lia.
  - reflexivity.
  - destruct p as [p|p|]; cbn [shr_1 shr_m].
    + rewrite Pos2Z.inj_xI. apply Z.div_unique with (r := 1); lia.
    + rewrite Pos2Z.inj_xO. apply Z.div_unique with (r := 0); lia.
    + reflexivity.
Qed.

Lemma iter_shr_1_m (p : positive) (mrs : shr_record) :
  0 <= shr_m mrs ->
  shr_m (iter_pos shr_1 p mrs) = shr_m mrs / 2 ^ Z.pos p.
Proof.
  revert mrs. induction p as [p IH | p IH |]; intros mrs Hm; cbn [iter_pos].
  - assert (H1 : 0 <= shr_m (shr_1 mrs))
      by (rewrite shr_1_m by assumption; apply Z.div_pos; lia).
    assert (H2 : 0 <= shr_m (iter_pos shr_1 p (shr_1 mrs)))
      by (rewrite IH by assumption; apply Z.div_pos; lia).
    rewrite IH by assumption. rewrite IH by assumption.
    rewrite shr_1_m by assumption.
    rewrite !Z.div_div by lia.
    assert (E : 2 ^ Z.pos p~1 = 2 * (2 ^ Z.pos p * 2 ^ Z.pos p)).
    { rewrite (Pos2Z.inj_xI p).
      rewrite Z.pow_add_r, Z.pow_1_r by lia.
      replace (2 * Z.pos p) with (Z.pos p + Z.pos p) by lia.
      rewrite Z.pow_add_r by lia. lia. }
    rewrite E. reflexivity.
  - assert (H2 : 0 <= shr_m (iter_pos shr_1 p mrs))
      by (rewrite IH by assumption; apply Z.div_pos; lia).
    rewrite IH by assumption. rewrite IH by assumption.
    rewrite !Z.div_div by lia.
    assert (E : 2 ^ Z.pos p~0 = 2 ^ Z.pos p * 2 ^ Z.pos p).
    { rewrite (Pos2Z.inj_xO p).
      replace (2 * Z.pos p) with (Z.pos p + Z.pos p) by lia.
      rewrite Z.pow_add_r by lia. reflexivity. }
    rewrite E. reflexivity.
  - rewrite shr_1_m by assumption. reflexivity.
Qed.

Lemma shr_record_of_loc_m m l : shr_m (shr_record_of_loc m l) = m.
Proof. destruct l as [|[| |]]; reflexivity. Qed.

(** [shr_fexp] divides the mantissa by the power of two that brings the
    exponent up to [fexp]. *)
Lemma shr_fexp_m (m e : Z) (l : location) :
  0 <= m ->
  let n := fexp prec emax (Zdigits2 m + e) - e in
  shr_m (fst (shr_fexp prec emax m e l)) = (if 0 <? n then m / 2 ^ n else m) /\
  snd (shr_fexp prec emax m e l) = (if 0 <? n then e + n else e).
Proof.
  intros Hm n. unfold shr_fexp, shr. fold n.
  destruct n as [|p|p]; cbn [fst snd].
  - rewrite shr_record_of_loc_m. split; reflexivity.
  - change (0 <? Z.pos p) with true. cbv iota.
    rewrite iter_shr_1_m by (rewrite shr_record_of_loc_m; assumption).
    rewrite shr_record_of_loc_m. split; reflexivity.
  - rewrite shr_record_of_loc_m. split; reflexivity.
Qed.

Lemma round_nearest_even_near mx lx :
  round_nearest_even mx lx = mx \/ round_nearest_even mx lx = mx + 1.
Proof.
  destruct lx as [|[| |]]; cbn [round_nearest_even]; auto.
  destruct (Z.even mx); auto.
Qed.

Lemma fexp_normal (x : Z) : -1021 <= x -> fexp prec emax x = x - 53.
Proof.
  intros Hx. change (fexp prec emax x) with (Z.max (x - 53) (-1074)). lia.
Qed.

Lemma Zdigits2_succ (m : Z) :
  0 < m ->
  Zdigits2 (m + 1) = Zdigits2 m \/
  (m + 1 = 2 ^ Zdigits2 m /\ Zdigits2 (m + 1) = Zdigits2 m + 1).
Proof.
  intros Hm. pose proof (Zdigits2_bounds m Hm) as [Hlo Hhi].
  pose proof (Zdigits2_pos m Hm) as Hd.
  destruct (Z_lt_le_dec (m + 1) (2 ^ Zdigits2 m)) as [Hlt | Hge].
  - left. apply Zdigits2_unique; lia.
  - right. assert (E : m + 1 = 2 ^ Zdigits2 m) by lia.
    split; [exact E |]. apply Zdigits2_unique; [| lia].
    replace (Zdigits2 m + 1 - 1) with (Zdigits2 m) by lia.
    rewrite Z.pow_add_r, Z.pow_1_r by lia. lia.
Qed.

Lemma Zdigits2_shifted (m n : Z) :
  0 < m -> 0 < n -> n < Zdigits2 m ->
  0 < m / 2 ^ n /\ Zdigits2 (m / 2 ^ n) = Zdigits2 m - n.
Proof.
  intros Hm Hn Hnd. pose proof (Zdigits2_bounds m Hm) as [Hlo Hhi].
  set (d := Zdigits2 m) in *.
  assert (Hp : 0 < 2 ^ n) by (apply Z.pow_pos_nonneg; lia).
  assert (Elo : 2 ^ (d - 1) = 2 ^ (d - n - 1) * 2 ^ n)
    by (rewrite <- Z.pow_add_r by lia; f_equal; lia).
  assert (Ehi : 2 ^ d = 2 ^ (d - n) * 2 ^ n)
    by (rewrite <- Z.pow_add_r by lia; f_equal; lia).
  assert (Hq1 : 2 ^ (d - n - 1) <= m / 2 ^ n).
  { apply Z.div_le_lower_bound; [exact Hp |]. lia. }
  assert (Hq2 : m / 2 ^ n < 2 ^ (d - n)).
  { apply Z.div_lt_upper_bound; [exact Hp |]. lia. }
  assert (Hpos : 0 < 2 ^ (d - n - 1)) by (apply Z.pow_pos_nonneg; lia).
  split; [lia |].
  apply Zdigits2_unique; [| lia].
  replace (d - n - 1) with (d - n - 1) in Hq1 by lia. split; assumption.
Qed.

(** Rounding a mantissa of 53 digits or more, in the normal range: the
    result is a finite double with a 53-digit mantissa, within one unit
    in the last place of what was rounded; a 53-digit mantissa with
    nothing beyond it is kept as it is. *)
Lemma binary_round_aux_normal (s : bool) (m e : Z) (l : location) :
  0 < m -> 53 <= Zdigits2 m -> -1000 <= Zdigits2 m + e <= 900 ->
  exists m' e',
    binary_round_aux prec emax s m e l = S754_finite s m' e' /\
    Z.pos (digits2_pos m') = 53 /\
    Zdigits2 m + e <= 53 + e' <= Zdigits2 m + e + 1 /\
    e <= e' /\
    (Z.pos m' - 1) * 2 ^ (e' - e) <= m <= (Z.pos m' + 1) * 2 ^ (e' - e) /\
    (Zdigits2 m = 53 -> l = loc_Exact -> Z.pos m' = m /\ e' = e).
Proof.
  intros Hm Hd53 Hrange. set (d := Zdigits2 m) in *.
  unfold binary_round_aux.
  pose proof (shr_record_of_loc_m m l) as Hrec.
  assert (Hloc : d = 53 -> l = loc_Exact ->
                 loc_of_shr_record (fst (shr_fexp prec emax m e l)) = loc_Exact).
  { intros E53 ->. unfold shr_fexp, shr. fold d.
    rewrite (fexp_normal (d + e)) by lia.
    replace (d + e - 53 - e) with 0 by lia. reflexivity. }
  destruct (shr_fexp_m m e l ltac:(lia)) as [Hm0 He1]. fold d in Hm0, He1.
  rewrite (fexp_normal (d + e)) in Hm0, He1 by lia.
  replace (d + e - 53 - e) with (d - 53) in Hm0, He1 by lia.
  destruct (shr_fexp prec emax m e l) as [mrs' e1]. cbn [fst snd] in Hm0, He1, Hloc.
  set (m0 := shr_m mrs') in *.
  set (n := d - 53) in *.
  assert (Hn : 0 <= n) by (unfold n; lia).
  assert (Pn : 0 < 2 ^ n) by (apply Z.pow_pos_nonneg; lia).
  (* after the first shift: 53 digits, m0 = floor (m / 2^n), e1 = e + n *)
  assert (H0 : 0 < m0 /\ Zdigits2 m0 = 53 /\ e1 = e + n /\
               m0 * 2 ^ n <= m < (m0 + 1) * 2 ^ n).
  { destruct (0 <? n) eqn:En.
    - apply Z.ltb_lt in En.
      destruct (Zdigits2_shifted m n Hm En ltac:(fold d; unfold n; lia)) as [Hp Hdig].
      fold d in Hdig. rewrite Hm0, He1.
      split; [exact Hp |]. split; [unfold n in *; lia |]. split; [reflexivity |].
      pose proof (Z.div_mod m (2 ^ n) ltac:(lia)) as Hdm.
      pose proof (Z.mod_pos_bound m (2 ^ n) Pn) as Hb. nia.
    - apply Z.ltb_ge in En. assert (E0 : n = 0) by lia.
      rewrite Hm0, He1, E0. fold d.
      split; [exact Hm |]. split; [unfold n in *; lia |]. split; [lia |].
      rewrite Z.pow_0_r. lia. }
  destruct H0 as (Hm0pos & Hd0 & He1' & Hfloor).
  set (m1 := round_nearest_even m0 (loc_of_shr_record mrs')).
  assert (Hm1 : m1 = m0 \/ m1 = m0 + 1)
    by (apply round_nearest_even_near).
  assert (Hm1pos : 0 < m1) by lia.
  assert (Hd1 : Zdigits2 m1 = 53 \/ (m1 = 2 ^ 53 /\ m1 = m0 + 1 /\ Zdigits2 m1 = 54)).
  { destruct Hm1 as [E | E]; rewrite E.
    - left. exact Hd0.
    - destruct (Zdigits2_succ m0 Hm0pos) as [H | [H1 H2]].
      + left. rewrite H. exact Hd0.
      + right. rewrite Hd0 in H1, H2. rewrite E in *. lia. }
  assert (Hexact : d = 53 -> l = loc_Exact -> m1 = m /\ e1 = e).
  { intros E53 El. unfold m1. rewrite (Hloc E53 El). cbn [round_nearest_even].
    assert (n = 0) by (unfold n; lia).
    split; [| lia]. replace n with 0 in Hfloor by lia.
    rewrite Z.pow_0_r in Hfloor. lia. }
  destruct (shr_fexp_m m1 e1 loc_Exact ltac:(lia)) as [Hm2 He2].
  rewrite (fexp_normal (Zdigits2 m1 + e1)) in Hm2, He2
    by (destruct Hd1 as [-> | (_ & _ & ->)]; lia).
  replace (Zdigits2 m1 + e1 - 53 - e1) with (Zdigits2 m1 - 53) in Hm2, He2 by lia.
  destruct (shr_fexp prec emax m1 e1 loc_Exact) as [mrs'' e2]. cbn [fst snd] in Hm2, He2.
  destruct Hd1 as [Hd1 | (E253 & Esucc & Hd1)].
  - (* no carry *)
    rewrite Hd1 in Hm2, He2. change (0 <? 53 - 53) with false in Hm2, He2.
    cbv iota in Hm2, He2. rewrite Hm2.
    destruct m1 as [|p1|p1] eqn:Ep1; try lia.
    assert (Ele : (e2 <=? emax - prec) = true)
      by (apply Z.leb_le; change (emax - prec) with 971; lia).
    rewrite Ele. exists p1, e2.
    split; [reflexivity |].
    split; [exact Hd1 |].
    split; [unfold n in *; lia |].
    split; [lia |].
    split.
    + replace (e2 - e) with n by lia. nia.
    + intros E53 El. destruct (Hexact E53 El) as [A B]. split; [exact A | lia].
  - (* the rounding carried into a 54th digit *)
    rewrite Hd1 in Hm2, He2. change (0 <? 54 - 53) with true in Hm2, He2.
    cbv iota in Hm2, He2. rewrite E253 in Hm2.
    change (2 ^ 53 / 2 ^ (54 - 53)) with (Z.pos (2 ^ 52)) in Hm2.
    rewrite Hm2.
    assert (Ele : (e2 <=? emax - prec) = true)
      by (apply Z.leb_le; change (emax - prec) with 971; unfold n in *; lia).
    rewrite Ele. exists (2 ^ 52)%positive, e2.
    split; [reflexivity |].
    split; [reflexivity |].
    split; [unfold n in *; lia |].
    split; [lia |].
    split.
    + replace (e2 - e) with (n + 1) by lia.
      rewrite Z.pow_add_r, Z.pow_1_r by lia.
      change (Z.pos (2 ^ 52)) with (2 ^ 52).
      assert (E : m0 + 1 = 2 * 2 ^ 52) by (rewrite <- Esucc, E253; reflexivity).
      nia.
    + intros E53 El. destruct (Hexact E53 El) as [A B].
      exfalso. assert (n = 0) by (unfold n; lia).
      replace n with 0 in Hfloor by lia. rewrite Z.pow_0_r in Hfloor.
      pose proof (Zdigits2_bounds m Hm) as [_ Hhi]. fold d in Hhi. rewrite E53 in Hhi.
      lia.
Qed.

Lemma digits2_pos_iter_xO (m d : positive) :
  Z.pos (digits2_pos (Pos.iter xO m d)) = Z.pos (digits2_pos m) + Z.pos d.
Proof.
  induction d as [|d IH] using Pos.peano_ind.
  - cbn [Pos.iter digits2_pos]. lia.
  - rewrite Pos.iter_succ. cbn [digits2_pos]. lia.
Qed.

Lemma iter_xO_value (m d : positive) :
  Z.pos (Pos.iter xO m d) = Z.pos m * 2 ^ Z.pos d.
Proof.
  induction d as [|d IH] using Pos.peano_ind.
  - cbn [Pos.iter]. rewrite Z.pow_1_r. lia.
  - rewrite Pos.iter_succ, Pos2Z.inj_succ, Z.pow_succ_r by lia.
    rewrite (Pos2Z.inj_xO (Pos.iter xO m d)), IH. lia.
Qed.

(** [shl_align] to the exponent of a 53-digit mantissa: the mantissa
    gets at least 53 digits and the value is kept. *)
Lemma shl_align_normal (mx : positive) (ex : Z) :
  -1000 <= Z.pos (digits2_pos mx) + ex ->
  exists mz ez,
    shl_align mx ex (fexp prec emax (Z.pos (digits2_pos mx) + ex)) = (mz, ez) /\
    53 <= Z.pos (digits2_pos mz) /\
    Z.pos (digits2_pos mz) + ez = Z.pos (digits2_pos mx) + ex /\
    ez <= ex /\
    Z.pos mz = Z.pos mx * 2 ^ (ex - ez) /\
    (Z.pos (digits2_pos mx) <= 53 -> Z.pos (digits2_pos mz) = 53).
Proof.
  intros Hr. rewrite fexp_normal by lia. unfold shl_align.
  destruct (Z.pos (digits2_pos mx) + ex - 53 - ex) as [|p|p] eqn:E.
  - exists mx, ex. split; [reflexivity |].
    replace (ex - ex) with 0 by lia. rewrite Z.pow_0_r. lia.
  - exists mx, ex. split; [reflexivity |].
    replace (ex - ex) with 0 by lia. rewrite Z.pow_0_r. lia.
  - exists (Pos.iter xO mx p), (Z.pos (digits2_pos mx) + ex - 53).
    split; [reflexivity |].
    rewrite digits2_pos_iter_xO, iter_xO_value.
    replace (ex - (Z.pos (digits2_pos mx) + ex - 53)) with (Z.pos p) by lia.
    lia.
Qed.

(** [binary_round] in the normal range, on integers. *)
Lemma binary_round_normal (s : bool) (mx : positive) (ex : Z) :
  -1000 <= Z.pos (digits2_pos mx) + ex <= 900 ->
  exists mz ez m' e',
    binary_round prec emax s mx ex = S754_finite s m' e' /\
    Z.pos (digits2_pos m') = 53 /\
    Z.pos (digits2_pos mx) + ex <= 53 + e' <= Z.pos (digits2_pos mx) + ex + 1 /\
    ez <= ex /\ ez <= e' /\
    Z.pos mz = Z.pos mx * 2 ^ (ex - ez) /\
    (Z.pos m' - 1) * 2 ^ (e' - ez) <= Z.pos mz <= (Z.pos m' + 1) * 2 ^ (e' - ez) /\
    (Z.pos (digits2_pos mx) <= 53 ->
     Z.pos m' = Z.pos mz /\ e' = ez /\ 53 + e' = Z.pos (digits2_pos mx) + ex).
Proof.
  intros Hr. unfold binary_round.
  destruct (shl_align_normal mx ex ltac:(lia)) as (mz & ez & E & D53 & Hmag & Hez & Hval & Hex).
  rewrite E.
  destruct (binary_round_aux_normal s (Z.pos mz) ez loc_Exact ltac:(lia))
    as (m' & e' & E' & Hdig & Hm' & Hee & Herr & Hexact).
  { exact D53. }
  { change (Zdigits2 (Z.pos mz)) with (Z.pos (digits2_pos mz)). lia. }
  change (Zdigits2 (Z.pos mz)) with (Z.pos (digits2_pos mz)) in *.
  exists mz, ez, m', e'. rewrite E'.
  split; [reflexivity |]. split; [exact Hdig |]. split; [lia |].
  split; [exact Hez |]. split; [exact Hee |]. split; [exact Hval |].
  split; [exact Herr |].
  intros Hd. destruct (Hexact (Hex Hd) eq_refl) as [A B].
  split; [exact A |]. split; [exact B |]. specialize (Hex Hd). lia.
Qed.

Lemma pow2_pos (e : Z) : (0 < 2 ^ e)%Q.
Proof. apply Qpower_0_lt. reflexivity. Qed.

Lemma pow2_add (a b : Z) : (2 ^ (a + b) == 2 ^ a * 2 ^ b)%Q.
Proof. apply Qpower_plus. intros H. discriminate H. Qed.

Lemma pow2_inject (n : Z) : 0 <= n -> (inject_Z (2 ^ n) == 2 ^ n)%Q.
Proof. intros Hn. rewrite Zpower_Qpower by exact Hn. reflexivity. Qed.

Lemma value_finite (m : positive) (e : Z) :
  (value (S754_finite false m e) == inject_Z (Z.pos m) * 2 ^ e)%Q.
Proof.
  cbn [value]. destruct e as [|p|p].
  - change (2 ^ 0)%Q with 1%Q. ring.
  - rewrite inject_Z_mult. change (Z.pow_pos 2 p) with (2 ^ Z.pos p)%Z.
    rewrite pow2_inject by lia. reflexivity.
  - rewrite Qmake_Qdiv. unfold Qdiv.
    change (2 ^ Z.neg p)%Q with (/ (2 ^ Z.pos p))%Q.
    rewrite <- pow2_inject by lia.
    rewrite Pos2Z.inj_pow. reflexivity.
Qed.

(** A 53-digit mantissa within one of the mantissa that was rounded is
    within one unit in the last place of it. *)
Lemma round_near (mz m' : positive) (ez e' : Z) :
  ez <= e' -> Z.pos (digits2_pos m') = 53 ->
  (Z.pos m' - 1) * 2 ^ (e' - ez) <= Z.pos mz <= (Z.pos m' + 1) * 2 ^ (e' - ez) ->
  near ulp (inject_Z (Z.pos m') * 2 ^ e') (inject_Z (Z.pos mz) * 2 ^ ez).
Proof.
  intros Hee Hdig [Hlo Hhi].
  pose proof (digits2_pos_bounds m') as [H52 _]. rewrite Hdig in H52.
  change (2 ^ (53 - 1)) with 4503599627370496 in H52.
  assert (Ha : (4503599627370496 <= inject_Z (Z.pos m'))%Q).
  { change 4503599627370496%Q with (inject_Z 4503599627370496).
    rewrite <- Zle_Qle. exact H52. }
  assert (Hlo' : ((inject_Z (Z.pos m') + inject_Z (-1)) * 2 ^ (e' - ez)
                  <= inject_Z (Z.pos mz))%Q).
  { rewrite <- pow2_inject by lia.
    rewrite <- inject_Z_plus, <- inject_Z_mult.
    rewrite <- Zle_Qle. exact Hlo. }
  change (inject_Z (-1)) with (-1 # 1)%Q in Hlo'.
  assert (Hhi' : (inject_Z (Z.pos mz) <= (inject_Z (Z.pos m') + 1) * 2 ^ (e' - ez))%Q).
  { rewrite <- pow2_inject by lia.
    change 1%Q with (inject_Z 1). rewrite <- inject_Z_plus, <- inject_Z_mult.
    rewrite <- Zle_Qle. exact Hhi. }
  assert (Epow : (2 ^ e' == 2 ^ (e' - ez) * 2 ^ ez)%Q).
  { rewrite <- pow2_add. replace (e' - ez + ez) with e' by lia. reflexivity. }
  pose proof (pow2_pos (e' - ez)) as Pb. pose proof (pow2_pos ez) as Pc.
  unfold near, ulp. rewrite Epow.
  set (a := inject_Z (Z.pos m')) in *. set (x := inject_Z (Z.pos mz)) in *.
  set (b := (2 ^ (e' - ez))%Q) in *. set (c := (2 ^ ez)%Q) in *.
  assert (Pbc : (0 < b * c)%Q) by nra.
  assert (Hx1 : ((a - 1) * b * c <= x * c)%Q) by nra.
  assert (Hx2 : (x * c <= (a + 1) * b * c)%Q) by nra.
  assert (Hu : (b * c <= a * (b * c) * (1 # 2 ^ 52))%Q).
  { assert (E : (a * (b * c) * (1 # 2 ^ 52) == (a * (1 # 2 ^ 52)) * (b * c))%Q) by ring.
    rewrite E.
    assert (H1 : (1 <= a * (1 # 2 ^ 52))%Q).
    { change (1 # 2 ^ 52)%Q with (1 # 4503599627370496)%Q. lra. }
    nra. }
  split; nra.
Qed.

Lemma ranged_value_pos lo hi f : ranged lo hi f -> (0 < value f)%Q.
Proof.
  destruct f as [| | |[|] m e]; try contradiction. intros _.
  rewrite value_finite. pose proof (pow2_pos e) as P.
  assert (H : (0 < inject_Z (Z.pos m))%Q)
    by (change 0%Q with (inject_Z 0); rewrite <- Zlt_Qlt; lia).
  nra.
Qed.

Lemma Zdigits2_below (z k : Z) : 0 < z < 2 ^ k -> 1 <= Zdigits2 z <= k.
Proof.
  intros [Hz Hk]. pose proof (Zdigits2_bounds z Hz) as [Hlo _].
  pose proof (Zdigits2_pos z Hz) as Hd.
  split; [lia |].
  destruct (Z_lt_le_dec k (Zdigits2 z)) as [Hlt | Hle]; [| exact Hle].
  assert (0 <= k).
  { destruct (Z_lt_le_dec k 0); [rewrite Z.pow_neg_r in Hk by lia; lia | lia]. }
  assert (2 ^ k <= 2 ^ (Zdigits2 z - 1)) by (apply Z.pow_le_mono_r; lia). lia.
Qed.

Lemma Zdigits2_mul (a b : Z) :
  0 < a -> 0 < b ->
  Zdigits2 a + Zdigits2 b - 1 <= Zdigits2 (a * b) <= Zdigits2 a + Zdigits2 b.
Proof.
  intros Ha Hb.
  pose proof (Zdigits2_bounds a Ha) as [Alo Ahi].
  pose proof (Zdigits2_bounds b Hb) as [Blo Bhi].
  pose proof (Zdigits2_pos a Ha) as Da. pose proof (Zdigits2_pos b Hb) as Db.
  set (da := Zdigits2 a) in *. set (db := Zdigits2 b) in *.
  assert (Hlo : 2 ^ (da + db - 2) <= a * b).
  { replace (da + db - 2) with ((da - 1) + (db - 1)) by lia.
    rewrite Z.pow_add_r by lia.
    assert (0 < 2 ^ (da - 1)) by (apply Z.pow_pos_nonneg; lia).
    assert (0 < 2 ^ (db - 1)) by (apply Z.pow_pos_nonneg; lia). nia. }
  assert (Hhi : a * b < 2 ^ (da + db)).
  { rewrite Z.pow_add_r by lia. nia. }
  destruct (Z_lt_le_dec (a * b) (2 ^ (da + db - 1))) as [Hlt | Hge].
  - rewrite (Zdigits2_unique (a * b) (da + db - 1)); [lia | | nia].
    replace (da + db - 1 - 1) with (da + db - 2) by lia. split; assumption.
  - rewrite (Zdigits2_unique (a * b) (da + db)); [lia | | nia].
    split; assumption.
Qed.

(** [float(z)] of a positive int below [2^53] is exact. *)
Lemma float_of_int_exact (z k : Z) :
  0 < z < 2 ^ k -> k <= 53 ->
  exists f, float_of_int z = Ok f /\ ranged 1 k f /\ (value f == inject_Z z)%Q.
Proof.
  intros Hz Hk. pose proof (Zdigits2_below z k Hz) as Hd.
  destruct z as [|p|p]; try lia.
  change (Zdigits2 (Z.pos p)) with (Z.pos (digits2_pos p)) in Hd.
  unfold float_of_int, binary_normalize.
  destruct (binary_round_normal false p 0 ltac:(lia))
    as (mz & ez & m' & e' & E & Hdig & Hmag & Hez & Hee & Hval & Herr & Hexact).
  destruct (Hexact ltac:(lia)) as (Em & Ee & Emag).
  rewrite E. eexists. split; [reflexivity |].
  split.
  - cbn [ranged]. split; [exact Hdig | lia].
  - rewrite value_finite. rewrite Em, Ee, Hval.
    rewrite inject_Z_mult, pow2_inject by lia.
    assert (Ep : (2 ^ (0 - ez) * 2 ^ ez == 1)%Q).
    { rewrite <- pow2_add. replace (0 - ez + ez) with 0 by lia. reflexivity. }
    rewrite <- Qmult_assoc, Ep. ring.
Qed.

(** The product of two normal doubles is normal and within one unit in
    the last place of the exact product. *)
Lemma fmul_near (lo1 hi1 lo2 hi2 : Z) (x y : float) :
  ranged lo1 hi1 x -> ranged lo2 hi2 y ->
  -1000 <= lo1 + lo2 - 1 -> hi1 + hi2 <= 900 ->
  ranged (lo1 + lo2 - 1) (hi1 + hi2 + 1) (fmul x y) /\
  near ulp (value (fmul x y)) (value x * value y).
Proof.
  intros Hx Hy Hlo Hhi.
  destruct x as [| | |[|] mx ex]; try contradiction.
  destruct y as [| | |[|] my ey]; try contradiction.
  cbn [ranged] in Hx, Hy. destruct Hx as (Dx & Mx). destruct Hy as (Dy & My).
  unfold fmul, SFmul. cbn [xorb].
  pose proof (Zdigits2_mul (Z.pos mx) (Z.pos my) ltac:(lia) ltac:(lia)) as Hd.
  change (Zdigits2 (Z.pos mx)) with (Z.pos (digits2_pos mx)) in Hd.
  change (Zdigits2 (Z.pos my)) with (Z.pos (digits2_pos my)) in Hd.
  change (Z.pos mx * Z.pos my) with (Z.pos (mx * my)) in Hd.
  destruct (binary_round_aux_normal false (Z.pos (mx * my)) (ex + ey) loc_Exact
              ltac:(lia) ltac:(lia) ltac:(lia))
    as (m' & e' & E & Hdig & Hm' & Hee & Herr & _).
  rewrite E. split; [cbn [ranged]; lia |].
  pose proof (round_near (mx * my) m' (ex + ey) e' Hee Hdig Herr) as Hn.
  unfold near in *. rewrite !value_finite.
  assert (Eq : (inject_Z (Z.pos mx) * 2 ^ ex * (inject_Z (Z.pos my) * 2 ^ ey)
                == inject_Z (Z.pos (mx * my)) * 2 ^ (ex + ey))%Q).
  { rewrite pow2_add. change (Z.pos (mx * my)) with (Z.pos mx * Z.pos my).
    rewrite inject_Z_mult. ring. }
  rewrite Eq. exact Hn.
Qed.

(** The integer quotient that [SFdiv] rounds, for 53-digit mantissas. *)
Lemma div_core_normal (m1 m2 : positive) (e1 e2 : Z) :
  Z.pos (digits2_pos m1) = 53 -> Z.pos (digits2_pos m2) = 53 ->
  -1021 <= e1 - e2 ->
  exists q l,
    SFdiv_core_binary prec emax (Z.pos m1) e1 (Z.pos m2) e2 = (q, e1 - e2 - 53, l) /\
    q = Z.pos m1 * 2 ^ 53 / Z.pos m2 /\
    2 ^ 52 <= q < 2 ^ 54 /\
    53 <= Zdigits2 q <= 54.
Proof.
  intros D1 D2 Hmag. unfold SFdiv_core_binary.
  change (Zdigits2 (Z.pos m1)) with (Z.pos (digits2_pos m1)).
  change (Zdigits2 (Z.pos m2)) with (Z.pos (digits2_pos m2)).
  rewrite D1, D2.
  rewrite (fexp_normal (53 + e1 - (53 + e2))) by lia.
  replace (Z.min (53 + e1 - (53 + e2) - 53) (e1 - e2)) with (e1 - e2 - 53) by lia.
  replace (e1 - e2 - (e1 - e2 - 53)) with 53 by lia.
  cbv iota. rewrite Z.shiftl_mul_pow2 by lia.
  pose proof (digits2_pos_bounds m1) as [L1 H1]. rewrite D1 in L1, H1.
  pose proof (digits2_pos_bounds m2) as [L2 H2]. rewrite D2 in L2, H2.
  change (2 ^ (53 - 1)) with 4503599627370496 in L1, L2.
  change (2 ^ 53) with 9007199254740992 in *.
  change (2 ^ 52) with 4503599627370496.
  change (2 ^ 54) with 18014398509481984.
  set (m' := Z.pos m1 * 9007199254740992) in *.
  assert (Hq : Z.div_eucl m' (Z.pos m2) = (m' / Z.pos m2, m' mod Z.pos m2)).
  { unfold Z.div, Z.modulo. destruct (Z.div_eucl m' (Z.pos m2)); reflexivity. }
  rewrite Hq.
  assert (Q1 : 4503599627370496 <= m' / Z.pos m2)
    by (apply Z.div_le_lower_bound; [lia | unfold m'; nia]).
  assert (Q2 : m' / Z.pos m2 < 18014398509481984)
    by (apply Z.div_lt_upper_bound; [lia | unfold m'; nia]).
  exists (m' / Z.pos m2), (new_location (Z.pos m2) (m' mod Z.pos m2)).
  split; [reflexivity |]. split; [reflexivity |]. split; [lia |].
  destruct (Z_lt_le_dec (m' / Z.pos m2) 9007199254740992) as [Hlt | Hge].
  - rewrite (Zdigits2_unique (m' / Z.pos m2) 53); [lia | | lia].
    change (2 ^ (53 - 1)) with 4503599627370496.
    change (2 ^ 53) with 9007199254740992. lia.
  - rewrite (Zdigits2_unique (m' / Z.pos m2) 54); [lia | | lia].
    change (2 ^ (54 - 1)) with 9007199254740992.
    change (2 ^ 54) with 18014398509481984. lia.
Qed.

(** The quotient of two normal doubles is normal and within three units
    in the last place of the exact quotient. *)
Lemma fdiv_near (lo1 hi1 lo2 hi2 : Z) (x y : float) :
  ranged lo1 hi1 x -> ranged lo2 hi2 y ->
  -1000 <= lo1 - hi2 -> hi1 - lo2 + 1 <= 900 ->
  ranged (lo1 - hi2) (hi1 - lo2 + 2) (fdiv_ieee x y) /\
  near (3 * ulp) (value (fdiv_ieee x y)) (value x / value y).
Proof.
  intros Hx Hy Hlo Hhi.
  destruct x as [| | |[|] mx ex]; try contradiction.
  destruct y as [| | |[|] my ey]; try contradiction.
  cbn [ranged] in Hx, Hy. destruct Hx as (Dx & Mx). destruct Hy as (Dy & My).
  unfold fdiv_ieee, SFdiv. cbn [xorb].
  destruct (div_core_normal mx my ex ey Dx Dy ltac:(lia))
    as (q & l & E & Eq & Hq & Hdq).
  rewrite E.
  destruct q as [|qp|qp]; try lia.
  destruct (binary_round_aux_normal false (Z.pos qp) (ex - ey - 53) l
              ltac:(lia) ltac:(lia) ltac:(lia))
    as (m' & e' & E' & Hdig & Hm' & Hee & Herr & _).
  rewrite E'. split; [cbn [ranged]; lia |].
  pose proof (round_near qp m' (ex - ey - 53) e' Hee Hdig Herr) as [Hn1 Hn2].
  unfold near. rewrite !value_finite.
  (* the integer quotient brackets the exact one *)
  assert (Hmul1 : Z.pos my * Z.pos qp <= Z.pos mx * 2 ^ 53)
    by (rewrite Eq; apply Z.mul_div_le; lia).
  assert (Hmul2 : Z.pos mx * 2 ^ 53 < Z.pos my * (Z.pos qp + 1)).
  { rewrite Eq.
    pose proof (Z.mul_succ_div_gt (Z.pos mx * 2 ^ 53) (Z.pos my) ltac:(lia)) as H.
    unfold Z.succ in H. exact H. }
  assert (Q1 : (inject_Z (Z.pos my) * inject_Z (Z.pos qp)
                <= inject_Z (Z.pos mx) * 9007199254740992)%Q).
  { change 9007199254740992%Q with (inject_Z (2 ^ 53)).
    rewrite <- !inject_Z_mult, <- Zle_Qle. exact Hmul1. }
  assert (Q2 : (inject_Z (Z.pos mx) * 9007199254740992
                <= inject_Z (Z.pos my) * (inject_Z (Z.pos qp) + 1))%Q).
  { change 9007199254740992%Q with (inject_Z (2 ^ 53)).
    change 1%Q with (inject_Z 1).
    rewrite <- inject_Z_plus, <- !inject_Z_mult, <- Zle_Qle. lia. }
  assert (Q52 : (4503599627370496 <= inject_Z (Z.pos qp))%Q).
  { change 4503599627370496%Q with (inject_Z (2 ^ 52)). rewrite <- Zle_Qle. lia. }
  assert (Epow : (2 ^ ex == 2 ^ (ex - ey - 53) * 9007199254740992 * 2 ^ ey)%Q).
  { change 9007199254740992%Q with (2 ^ 53)%Q. rewrite <- !pow2_add.
    replace (ex - ey - 53 + 53 + ey) with ex by lia. reflexivity. }
  pose proof (pow2_pos (ex - ey - 53)) as Pp. pose proof (pow2_pos ey) as Pd.
  pose proof (pow2_pos e') as Pe'.
  assert (Pb : (0 < inject_Z (Z.pos my))%Q)
    by (change 0%Q with (inject_Z 0); rewrite <- Zlt_Qlt; lia).
  assert (Pm' : (0 < inject_Z (Z.pos m'))%Q)
    by (change 0%Q with (inject_Z 0); rewrite <- Zlt_Qlt; lia).
  set (a := inject_Z (Z.pos mx)) in *. set (b := inject_Z (Z.pos my)) in *.
  set (qq := inject_Z (Z.pos qp)) in *. set (p := (2 ^ (ex - ey - 53))%Q) in *.
  set (d := (2 ^ ey)%Q) in *. set (F := (inject_Z (Z.pos m') * 2 ^ e')%Q) in *.
  assert (PF : (0 < F)%Q) by (unfold F; nra).
  assert (Pbd : (0 < b * d)%Q) by nra.
  assert (ET : (a * 2 ^ ex / (b * d) == a * p * 9007199254740992 / b)%Q).
  { rewrite Epow. field. split; lra. }
  rewrite ET.
  assert (T1 : (qq * p <= a * p * 9007199254740992 / b)%Q).
  { apply Qle_shift_div_l; [exact Pb |]. nra. }
  assert (T2 : (a * p * 9007199254740992 / b <= (qq + 1) * p)%Q).
  { apply Qle_shift_div_r; [exact Pb |]. nra. }
  set (T := (a * p * 9007199254740992 / b)%Q) in *.
  assert (Hu : (p <= qq * p * ulp)%Q).
  { unfold ulp. change (1 # 2 ^ 52)%Q with (1 # 4503599627370496)%Q. nra. }
  unfold ulp in *. change (1 # 2 ^ 52)%Q with (1 # 4503599627370496)%Q in *.
  split; nra.
Qed.

Lemma mantissa_53 (m : positive) :
  Z.pos (digits2_pos m) = 53 ->
  (4503599627370496 <= inject_Z (Z.pos m))%Q /\
  (inject_Z (Z.pos m) + 1 <= 9007199254740992)%Q.
Proof.
  intros D. pose proof (digits2_pos_bounds m) as [L H]. rewrite D in L, H.
  change (2 ^ (53 - 1)) with 4503599627370496 in L.
  change (2 ^ 53) with 9007199254740992 in H.
  split.
  - change 4503599627370496%Q with (inject_Z 4503599627370496).
    rewrite <- Zle_Qle. exact L.
  - change 9007199254740992%Q with (inject_Z 9007199254740992).
    change 1%Q with (inject_Z 1). rewrite <- inject_Z_plus, <- Zle_Qle. lia.
Qed.

Lemma pow2_two_le (n : Z) : 0 < n -> (2 <= 2 ^ n)%Q.
Proof.
  intros Hn. rewrite <- pow2_inject by lia.
  change 2%Q with (inject_Z 2). rewrite <- Zle_Qle.
  change 2 with (2 ^ 1) at 1. apply Z.pow_le_mono_r; lia.
Qed.

(** On positive normal doubles [<] compares the values. *)
Lemma fltb_value (lo1 hi1 lo2 hi2 : Z) (x y : float) :
  ranged lo1 hi1 x -> ranged lo2 hi2 y ->
  (fltb x y = true <-> (value x < value y)%Q).
Proof.
  intros Hx Hy.
  destruct x as [| | |[|] mx ex]; try contradiction.
  destruct y as [| | |[|] my ey]; try contradiction.
  cbn [ranged] in Hx, Hy. destruct Hx as (Dx & _). destruct Hy as (Dy & _).
  destruct (mantissa_53 mx Dx) as [Lx Ux]. destruct (mantissa_53 my Dy) as [Ly Uy].
  rewrite !value_finite. unfold fltb, SFltb, SFcompare.
  set (a := inject_Z (Z.pos mx)) in *. set (b := inject_Z (Z.pos my)) in *.
  destruct (Z.compare_spec ex ey) as [E | E | E].
  - subst ey. pose proof (pow2_pos ex) as P.
    change (Pos.compare_cont Eq mx my) with (Pos.compare mx my).
    destruct (Pos.compare_spec mx my) as [C | C | C].
    + subst my. split; [discriminate |]. intros H. exfalso. unfold b in H. fold a in H. nra.
    + assert (Hab : (a < b)%Q) by (unfold a, b; rewrite <- Zlt_Qlt; lia).
      split; [intros _; nra | reflexivity].
    + assert (Hab : (b < a)%Q) by (unfold a, b; rewrite <- Zlt_Qlt; lia).
      split; [discriminate | intros H; exfalso; nra].
  - assert (Ep : (2 ^ ey == 2 ^ (ey - ex) * 2 ^ ex)%Q).
    { rewrite <- pow2_add. replace (ey - ex + ex) with ey by lia. reflexivity. }
    pose proof (pow2_two_le (ey - ex) ltac:(lia)) as P2.
    pose proof (pow2_pos ex) as P.
    rewrite Ep. split; [intros _ | reflexivity].
    rewrite Qmult_assoc. apply Qmult_lt_compat_r; [exact P | nra].
  - assert (Ep : (2 ^ ex == 2 ^ (ex - ey) * 2 ^ ey)%Q).
    { rewrite <- pow2_add. replace (ex - ey + ey) with ex by lia. reflexivity. }
    pose proof (pow2_two_le (ex - ey) ltac:(lia)) as P2.
    pose proof (pow2_pos ey) as P.
    rewrite Ep. split; [discriminate | intros H; exfalso].
    assert (H' : (b * 2 ^ ey < a * 2 ^ (ex - ey) * 2 ^ ey)%Q)
      by (apply Qmult_lt_compat_r; [exact P | nra]).
    rewrite <- Qmult_assoc in H'. lra.
Qed.

Lemma shl_align_down (mx : positive) (ex ez : Z) :
  ez <= ex -> Z.pos (fst (shl_align mx ex ez)) = Z.pos mx * 2 ^ (ex - ez).
Proof.
  intros H. unfold shl_align. destruct (ez - ex) as [|p|p] eqn:E; cbn [fst]; try lia.
  - replace (ex - ez) with 0 by lia. rewrite Z.pow_0_r. lia.
  - rewrite iter_xO_value. replace (ex - ez) with (Z.pos p) by lia. reflexivity.
Qed.

(** Rounding a positive integer times a power of two, as [binary_round]
    does for the difference of two doubles. *)
Lemma binary_round_near (s : bool) (p : positive) (ez : Z) :
  -1000 <= Z.pos (digits2_pos p) + ez <= 900 ->
  exists m' e',
    binary_round prec emax s p ez = S754_finite s m' e' /\
    Z.pos (digits2_pos m') = 53 /\
    -1000 <= 53 + e' <= 901 /\
    near ulp (inject_Z (Z.pos m') * 2 ^ e') (inject_Z (Z.pos p) * 2 ^ ez).
Proof.
  intros Hr.
  destruct (binary_round_normal s p ez Hr)
    as (mz & ez' & m' & e' & E & Hdig & Hmag & Hez & Hee & Hval & Herr & _).
  exists m', e'. split; [exact E |]. split; [exact Hdig |]. split; [lia |].
  pose proof (round_near mz m' ez' e' Hee Hdig Herr) as Hn.
  assert (Ev : (inject_Z (Z.pos mz) * 2 ^ ez' == inject_Z (Z.pos p) * 2 ^ ez)%Q).
  { rewrite Hval, inject_Z_mult, pow2_inject by lia.
    rewrite <- Qmult_assoc, <- pow2_add.
    replace (ez - ez' + ez') with ez by lia. reflexivity. }
  unfold near in *. rewrite <- Ev. exact Hn.
Qed.

(** The difference of two positive normal doubles: zero when they are
    equal, otherwise a normal double within one unit in the last place of
    the exact difference, with its sign. *)
Lemma fsub_near (lo hi : Z) (x y : float) :
  ranged lo hi x -> ranged lo hi y -> -900 <= lo -> hi <= 900 ->
  ((value x == value y)%Q -> fsub x y = S754_zero false) /\
  ((value y < value x)%Q ->
   ranged (-1000) 901 (fsub x y) /\
   near ulp (value (fsub x y)) (value x - value y)) /\
  ((value x < value y)%Q ->
   ranged (-1000) 901 (fabs (fsub x y)) /\
   near ulp (value (fabs (fsub x y))) (value y - value x)).
Proof.
  intros Hx Hy Hlo Hhi.
  destruct x as [| | |[|] mx ex]; try contradiction.
  destruct y as [| | |[|] my ey]; try contradiction.
  cbn [ranged] in Hx, Hy. destruct Hx as (Dx & Mx). destruct Hy as (Dy & My).
  unfold fsub, SFsub. cbn [cond_Zopp].
  set (ez := Z.min ex ey).
  rewrite (shl_align_down mx ex ez) by (unfold ez; lia).
  rewrite (shl_align_down my ey ez) by (unfold ez; lia).
  set (A := Z.pos mx * 2 ^ (ex - ez)). set (B := Z.pos my * 2 ^ (ey - ez)).
  assert (Pez : (0 < 2 ^ ez)%Q) by apply pow2_pos.
  assert (EA : (inject_Z (Z.pos mx) * 2 ^ ex == inject_Z A * 2 ^ ez)%Q).
  { unfold A. rewrite inject_Z_mult, pow2_inject by (unfold ez; lia).
    rewrite <- Qmult_assoc, <- pow2_add.
    replace (ex - ez + ez) with ex by lia. reflexivity. }
  assert (EB : (inject_Z (Z.pos my) * 2 ^ ey == inject_Z B * 2 ^ ez)%Q).
  { unfold B. rewrite inject_Z_mult, pow2_inject by (unfold ez; lia).
    rewrite <- Qmult_assoc, <- pow2_add.
    replace (ey - ez + ez) with ey by lia. reflexivity. }
  assert (Vx : (value (S754_finite false mx ex) == inject_Z A * 2 ^ ez)%Q)
    by (rewrite value_finite; exact EA).
  assert (Vy : (value (S754_finite false my ey) == inject_Z B * 2 ^ ez)%Q)
    by (rewrite value_finite; exact EB).
  pose proof (digits2_pos_bounds mx) as [_ Ux]. rewrite Dx in Ux.
  pose proof (digits2_pos_bounds my) as [_ Uy]. rewrite Dy in Uy.
  assert (PA : 0 < A < 2 ^ (53 + (ex - ez))).
  { unfold A. rewrite Z.pow_add_r by (unfold ez; lia).
    assert (0 < 2 ^ (ex - ez)) by (apply Z.pow_pos_nonneg; unfold ez; lia). nia. }
  assert (PB : 0 < B < 2 ^ (53 + (ey - ez))).
  { unfold B. rewrite Z.pow_add_r by (unfold ez; lia).
    assert (0 < 2 ^ (ey - ez)) by (apply Z.pow_pos_nonneg; unfold ez; lia). nia. }
  assert (Hord : forall a b : Z, (inject_Z a * 2 ^ ez < inject_Z b * 2 ^ ez)%Q -> a < b).
  { intros a b H. rewrite Zlt_Qlt. nra. }
  assert (Heq : forall a b : Z, (inject_Z a * 2 ^ ez == inject_Z b * 2 ^ ez)%Q -> a = b).
  { intros a b H. apply inject_Z_injective. nra. }
  split; [| split].
  - intros H. rewrite Vx, Vy in H. apply Heq in H.
    replace (A - B) with 0 by lia. reflexivity.
  - intros H. rewrite Vx, Vy in H. apply Hord in H.
    destruct (A - B) as [|p|p] eqn:ED; try lia.
    assert (Hp : 0 < Z.pos p < 2 ^ (53 + (ex - ez))) by lia.
    pose proof (Zdigits2_below _ _ Hp) as Hdp.
    change (Zdigits2 (Z.pos p)) with (Z.pos (digits2_pos p)) in Hdp.
    cbn [binary_normalize].
    destruct (binary_round_near false p ez ltac:(unfold ez in *; lia))
      as (m' & e' & E & Hdig & Hmag & Hn).
    rewrite E. split; [cbn [ranged]; lia |].
    assert (Ed : (inject_Z A * 2 ^ ez - inject_Z B * 2 ^ ez
                  == inject_Z (Z.pos p) * 2 ^ ez)%Q).
    { rewrite <- ED. unfold Z.sub. rewrite inject_Z_plus, inject_Z_opp. ring. }
    unfold near in *. rewrite Vx, Vy, Ed, value_finite. exact Hn.
  - intros H. rewrite Vx, Vy in H. apply Hord in H.
    destruct (A - B) as [|p|p] eqn:ED; try lia.
    assert (Hp : 0 < Z.pos p < 2 ^ (53 + (ey - ez))) by lia.
    pose proof (Zdigits2_below _ _ Hp) as Hdp.
    change (Zdigits2 (Z.pos p)) with (Z.pos (digits2_pos p)) in Hdp.
    cbn [binary_normalize].
    destruct (binary_round_near true p ez ltac:(unfold ez in *; lia))
      as (m' & e' & E & Hdig & Hmag & Hn).
    rewrite E. cbn [fabs SFabs]. split; [cbn [ranged]; lia |].
    assert (Ed : (inject_Z B * 2 ^ ez - inject_Z A * 2 ^ ez
                  == inject_Z (Z.pos p) * 2 ^ ez)%Q).
    { assert (E2 : B - A = Z.pos p) by lia.
      rewrite <- E2. unfold Z.sub. rewrite inject_Z_plus, inject_Z_opp. ring. }
    unfold near in *. rewrite Vx, Vy, Ed, value_finite. exact Hn.
Qed.

Lemma ranged_signed lo hi f : ranged lo hi f -> signed false f.
Proof. destruct f as [| | |[|] m e]; try contradiction. reflexivity. Qed.

Lemma ranged_not_zero lo hi f : ranged lo hi f -> is_zero f = false.
Proof. destruct f as [| | |[|] m e]; try contradiction. reflexivity. Qed.

(** [int] of a positive normal double returns, with its floor. *)
Lemma ranged_floor lo hi f : ranged lo hi f -> exists n, floor_of f n.
Proof.
  intros R. pose proof (ranged_signed _ _ _ R) as S.
  destruct f as [| | |[|] m e]; try contradiction.
  eexists. apply int_of_float_floor; [exact S | reflexivity].
Qed.

Lemma ranged_weaken lo hi lo' hi' f :
  ranged lo hi f -> lo' <= lo -> hi <= hi' -> ranged lo' hi' f.
Proof.
  destruct f as [| | |[|] m e]; try contradiction.
  cbn [ranged]. intros [D M] Hlo Hhi. split; [exact D | lia].
Qed.

(** [a / b] on positive ints below [2^k]: a normal double within three
    units in the last place of the exact quotient. *)
Lemma truediv_int_near (a b k : Z) :
  0 < a < 2 ^ k -> 0 < b < 2 ^ k -> 0 <= k <= 53 ->
  exists f, truediv (Int a) (Int b) = Ok f /\
            ranged (1 - k) (k + 1) f /\
            near (3 * ulp) (value f) (inject_Z a / inject_Z b).
Proof.
  intros Ha Hb Hk.
  destruct (float_of_int_exact a k Ha ltac:(lia)) as (x & Ex & Rx & Vx).
  destruct (float_of_int_exact b k Hb ltac:(lia)) as (y & Ey & Ry & Vy).
  unfold truediv. cbn [to_float]. rewrite Ex, Ey. cbn [bind]. unfold fdiv.
  rewrite (ranged_not_zero _ _ _ Ry).
  eexists. split; [reflexivity |].
  destruct (fdiv_near 1 k 1 k x y Rx Ry ltac:(lia) ltac:(lia)) as [R N].
  split; [replace (k + 1) with (k - 1 + 2) by lia; exact R |].
  unfold near in *. rewrite <- Vx, <- Vy. exact N.
Qed.

(** [n * f] for a positive int below [2^k] and a normal double. *)
Lemma mulf_int_near (n k lo hi : Z) (f : float) :
  0 < n < 2 ^ k -> 0 <= k <= 53 -> ranged lo hi f -> -900 <= lo -> hi <= 800 ->
  exists p, mulf (Int n) (Float f) = Ok p /\
            ranged lo (hi + k + 1) p /\
            near ulp (value p) (inject_Z n * value f).
Proof.
  intros Hn Hk Rf Hlo Hhi.
  destruct (float_of_int_exact n k Hn ltac:(lia)) as (x & Ex & Rx & Vx).
  unfold mulf. cbn [to_float]. rewrite Ex. cbn [bind].
  eexists. split; [reflexivity |].
  destruct (fmul_near 1 k lo hi x f Rx Rf ltac:(lia) ltac:(lia)) as [R N].
  split; [eapply ranged_weaken; [exact R | lia | lia] |].
  unfold near in *. rewrite <- Vx. exact N.
Qed.

(** [n / f] for a positive int below [2^k] and a normal double. *)
Lemma truediv_float_near (n k lo hi : Z) (f : float) :
  0 < n < 2 ^ k -> 0 <= k <= 53 -> ranged lo hi f -> -800 <= lo -> hi <= 900 ->
  exists q, truediv (Int n) (Float f) = Ok q /\
            ranged (1 - hi) (k - lo + 2) q /\
            near (3 * ulp) (value q) (inject_Z n / value f).
Proof.
  intros Hn Hk Rf Hlo Hhi.
  destruct (float_of_int_exact n k Hn ltac:(lia)) as (x & Ex & Rx & Vx).
  unfold truediv. cbn [to_float]. rewrite Ex. cbn [bind]. unfold fdiv.
  rewrite (ranged_not_zero _ _ _ Rf).
  eexists. split; [reflexivity |].
  destruct (fdiv_near 1 k lo hi x f Rx Rf ltac:(lia) ltac:(lia)) as [R N].
  split; [exact R |].
  unfold near in *. rewrite <- Vx. exact N.
Qed.

Lemma inject_Z_bound (z k : Z) :
  0 < z < k -> (1 <= inject_Z z)%Q /\ (inject_Z z + 1 <= inject_Z k)%Q.
Proof.
  intros [H1 H2]. split.
  - change 1%Q with (inject_Z 1). rewrite <- Zle_Qle. lia.
  - change 1%Q with (inject_Z 1). rewrite <- inject_Z_plus, <- Zle_Qle. lia.
Qed.


Lemma floor_above (p : float) (n k : Z) :
  floor_of p n -> (inject_Z k <= value p)%Q -> k <= n.
Proof.
  intros (_ & _ & _ & Hhi) H.
  assert (Hlt : (inject_Z k < inject_Z (n + 1))%Q) by lra.
  rewrite <- Zlt_Qlt in Hlt. lia.
Qed.

End FloatRange.

(* ===================================================================== *)
(** * Pixel arithmetic on doubles                                         *)
(* ===================================================================== *)

Section PixelArithmetic.

(** Monotonicity of the product on rationals, in the forms the bounds
    below are combined with. *)
Lemma Qmul_le_l (x y z : Q) : (0 <= z)%Q -> (x <= y)%Q -> (z * x <= z * y)%Q.
Proof. intros Hz Hxy. rewrite !(Qmult_comm z). apply Qmult_le_compat_r; assumption. Qed.

Lemma Qmul_le_cancel (x y z : Q) : (0 < z)%Q -> (z * x <= z * y)%Q -> (x <= y)%Q.
Proof. intros Hz H. apply (Qmult_le_l x y z Hz). exact H. Qed.

Lemma Qmul_pos_l (x y : Q) : (0 < x * y)%Q -> (0 < y)%Q -> (0 < x)%Q.
Proof.
  intros Hxy Hy. destruct (Qlt_le_dec 0 x) as [H | H]; [exact H |].
  exfalso. assert (Hle : (x * y <= 0 * y)%Q) by (apply Qmult_le_compat_r; lra). lra.
Qed.





(** The literal [0.01]. *)
Lemma f0_01_ranged : ranged (-10) 0 PhotoProcessor.f0_01.
Proof. vm_compute. split; [reflexivity |]. split; discriminate. Qed.

Lemma f0_01_value : (995 # 100000 <= value PhotoProcessor.f0_01)%Q.
Proof. vm_compute. discriminate. Qed.

Lemma fabs_ranged lo hi f : ranged lo hi f -> fabs f = f.
Proof. destruct f as [| | |[|] m e]; try contradiction. reflexivity. Qed.

(** Two normal doubles that the test of line 315 finds not close are at
    least 0.0099 apart. *)
Lemma ratios_far (lo hi : Z) (x y : float) :
  ranged lo hi x -> ranged lo hi y -> -900 <= lo -> hi <= 900 ->
  PhotoProcessor.ratios_close x y = false ->
  (value x + (99 # 10000) <= value y)%Q \/ (value y + (99 # 10000) <= value x)%Q.
Proof.
  intros Rx Ry Hlo Hhi Hc. unfold PhotoProcessor.ratios_close in Hc.
  destruct (fsub_near lo hi x y Rx Ry Hlo Hhi) as (Heq & Hgt & Hlt).
  pose proof f0_01_value as V01.
  assert (Hfar : forall d, ranged (-1000) 901 d -> fltb d PhotoProcessor.f0_01 = false ->
                           (995 # 100000 <= value d)%Q).
  { intros d Rd Hd.
    assert (Hn : ~ (value d < value PhotoProcessor.f0_01)%Q).
    { intros Hv. apply (fltb_value _ _ _ _ _ _ Rd f0_01_ranged) in Hv. congruence. }
    apply Qnot_lt_le in Hn. lra. }
  destruct (Q_dec (value x) (value y)) as [[Hxy | Hxy] | Hxy].
  - destruct (Hlt Hxy) as [Rd Nd]. left.
    pose proof (Hfar _ Rd Hc) as Hd.
    unfold near, ulp in Nd. change (1 # 2 ^ 52)%Q with (1 # 4503599627370496)%Q in Nd.
    lra.
  - destruct (Hgt Hxy) as [Rd Nd]. right.
    rewrite (fabs_ranged _ _ _ Rd) in Hc.
    pose proof (Hfar _ Rd Hc) as Hd.
    unfold near, ulp in Nd. change (1 # 2 ^ 52)%Q with (1 # 4503599627370496)%Q in Nd.
    lra.
  - rewrite (Heq Hxy) in Hc. vm_compute in Hc. discriminate.
Qed.

(** The arithmetic of lines 322-324, on values: [P] is the rounded
    [th * C] for a crop ratio [C] at least 0.0099 above the rounded target
    ratio [TR]; it is not below the target width. *)
Lemma cover_wide_core (P C TR T th tw : Q) :
  near ulp P (th * C) -> near (3 * ulp) TR T ->
  (TR + (99 # 10000) <= C)%Q ->
  (T * th == tw)%Q -> (1 <= th)%Q -> (1 <= tw)%Q -> (tw + 1 <= 2147483648)%Q ->
  (0 < P)%Q -> (0 < TR)%Q ->
  (tw <= P)%Q.
Proof.
  unfold near, ulp. change (1 # 2 ^ 52)%Q with (1 # 4503599627370496)%Q.
  intros [_ N1] [_ N2] Hgap ET Hth Htw Bt PP PT.
  assert (M1 : (th * (TR + (99 # 10000)) <= th * C)%Q)
    by (apply Qmul_le_l; [lra | exact Hgap]).
  assert (M2 : (th * T <= th * (TR * (1 + 3 * (1 # 4503599627370496))))%Q)
    by (apply Qmul_le_l; [lra | exact N2]).
  assert (M3 : (0 <= th * TR)%Q) by (apply Qmult_le_0_compat; lra).
  lra.
Qed.

(** The arithmetic of lines 326-328: [Q'] is the rounded [X = tw / C]
    for a crop ratio [C] at least 0.0099 below the rounded target ratio;
    it is not below the target height. *)
Lemma cover_tall_core (Q' X C TR T th tw : Q) :
  near (3 * ulp) Q' X -> near (3 * ulp) TR T ->
  (C + (99 # 10000) <= TR)%Q ->
  (X * C == tw)%Q -> (T * th == tw)%Q ->
  (1 <= th)%Q -> (1 <= tw)%Q -> (tw + 1 <= 2147483648)%Q ->
  (0 < Q')%Q -> (0 < C)%Q -> (0 < TR)%Q ->
  (th <= Q')%Q.
Proof.
  unfold near, ulp. change (1 # 2 ^ 52)%Q with (1 # 4503599627370496)%Q.
  intros [_ N1] [N2 _] Hgap EX ET Hth Htw Bt PQ PC PT.
  assert (P0 : (0 < T)%Q) by (apply (Qmul_pos_l T th); lra).
  assert (M0 : (T * 1 <= T * th)%Q) by (apply Qmul_le_l; lra).
  assert (M1 : (th * (C * (1 + 3 * (1 # 4503599627370496))) <= th * T)%Q)
    by (apply Qmul_le_l; lra).
  assert (M2 : (C * X <= C * (Q' * (1 + 3 * (1 # 4503599627370496))))%Q)
    by (apply Qmul_le_l; [lra | exact N1]).
  apply (Qmul_le_cancel th Q' C PC). lra.
Qed.

(** Lines 321-328 on positive sizes below [2^31], for ratios the test of
    line 315 finds not close: the size the crop is resized to is at least
    the target's in both directions. *)
Lemma scaled_size_covers (tw th cw ch : Z) (tr cr : float) :
  0 < tw < 2 ^ 31 -> 0 < th < 2 ^ 31 -> 0 < cw < 2 ^ 31 -> 0 < ch < 2 ^ 31 ->
  truediv (Int tw) (Int th) = Ok tr ->
  truediv (Int cw) (Int ch) = Ok cr ->
  PhotoProcessor.ratios_close cr tr = false ->
  exists nw nh,
    PhotoProcessor.scaled_size tw th tr cr = Ok (nw, nh) /\ tw <= nw /\ th <= nh.
Proof.
  intros Htw Hth Hcw Hch Etr Ecr Hfar.
  destruct (truediv_int_near tw th 31 Htw Hth ltac:(lia)) as (tr' & Et & Rt & Nt).
  destruct (truediv_int_near cw ch 31 Hcw Hch ltac:(lia)) as (cr' & Ec & Rc & Nc).
  rewrite Etr in Et. inversion Et. subst tr'. clear Et.
  rewrite Ecr in Ec. inversion Ec. subst cr'. clear Ec.
  pose proof (ranged_value_pos _ _ _ Rt) as PT.
  pose proof (ranged_value_pos _ _ _ Rc) as PC.
  destruct (inject_Z_bound tw (2 ^ 31) Htw) as [Btw1 Btw2].
  destruct (inject_Z_bound th (2 ^ 31) Hth) as [Bth1 Bth2].
  change (inject_Z (2 ^ 31)) with 2147483648%Q in *.
  assert (ET : (inject_Z tw / inject_Z th * inject_Z th == inject_Z tw)%Q)
    by (field; lra).
  pose proof (ratios_far _ _ cr tr Rc Rt ltac:(lia) ltac:(lia) Hfar) as Hgap.
  unfold PhotoProcessor.scaled_size.
  destruct (fltb tr cr) eqn:Elt.
  - apply (fltb_value _ _ _ _ _ _ Rt Rc) in Elt.
    assert (Hg : (value tr + (99 # 10000) <= value cr)%Q) by (destruct Hgap; lra).
    destruct (mulf_int_near th 31 _ _ cr Hth ltac:(lia) Rc ltac:(lia) ltac:(lia))
      as (p & Ep & Rp & Np).
    rewrite Ep. cbn [bind].
    destruct (ranged_floor _ _ _ Rp) as [n Fn].
    pose proof Fn as (En & _).
    rewrite En. cbn [bind].
    pose proof (ranged_value_pos _ _ _ Rp) as PP.
    exists n, th. split; [reflexivity |]. split; [| lia].
    apply (floor_above p n tw Fn).
    exact (cover_wide_core _ _ _ _ _ _ Np Nt Hg ET Bth1 Btw1 Btw2 PP PT).
  - assert (Hge : (value cr <= value tr)%Q).
    { apply Qnot_lt_le. intros Hlt.
      apply (fltb_value _ _ _ _ _ _ Rt Rc) in Hlt. congruence. }
    assert (Hg : (value cr + (99 # 10000) <= value tr)%Q) by (destruct Hgap; lra).
    destruct (truediv_float_near tw 31 _ _ cr Htw ltac:(lia) Rc ltac:(lia) ltac:(lia))
      as (q & Eq & Rq & Nq).
    rewrite Eq. cbn [bind].
    destruct (ranged_floor _ _ _ Rq) as [n Fn].
    pose proof Fn as (En & _).
    rewrite En. cbn [bind].
    pose proof (ranged_value_pos _ _ _ Rq) as PQ.
    assert (EX : (inject_Z tw / value cr * value cr == inject_Z tw)%Q)
      by (field; lra).
    exists tw, n. split; [reflexivity |]. split; [lia |].
    apply (floor_above q n th Fn).
    exact (cover_tall_core _ _ _ _ _ _ _ Nq Nt Hg EX ET Bth1 Btw1 Btw2 PQ PC PT).
Qed.






End PixelArithmetic.

(* ===================================================================== *)
(** * The dimension resolver                                              *)
(* ===================================================================== *)

Section Resolver.

(** The double under [int(...)] in [_mm_to_px] and [_cm_to_px]. *)
Lemma _mm_to_px_product self mm w :
  _mm_to_px self mm = Ok w ->
  exists q p, truediv mm (Float f25_4) = Ok q /\
              mulf (Float q) (Int (dpi self)) = Ok p /\
              int_of_float p = Ok w.
Proof.
  unfold _mm_to_px, bind.
  destruct (truediv mm (Float f25_4)) as [q|] eqn:Eq; try discriminate.
  destruct (mulf (Float q) (Int (dpi self))) as [p|] eqn:Ep; try discriminate.
  intros H. exists q, p. auto.
Qed.

Lemma _cm_to_px_product self cm w :
  _cm_to_px self cm = Ok w ->
  exists q p, truediv cm (Float f2_54) = Ok q /\
              mulf (Float q) (Int (dpi self)) = Ok p /\
              int_of_float p = Ok w.
Proof.
  unfold _cm_to_px, bind.
  destruct (truediv cm (Float f2_54)) as [q|] eqn:Eq; try discriminate.
  destruct (mulf (Float q) (Int (dpi self))) as [p|] eqn:Ep; try discriminate.
  intros H. exists q, p. auto.
Qed.






End Resolver.

Section ResolverClaims.

Import Inputs.





(** C10. For every CropDimensions whose unit is none of 'px', 'mm' and
    'cm', [to_pixels] returns (width, height) unchanged: no error is
    raised for an unknown unit. *)
Theorem to_pixels_unknown_unit (self : CropDimensions.t) :
  unit self <> "px"%string -> unit self <> "mm"%string -> unit self <> "cm"%string ->
  to_pixels self = Ok (width self, height self).
Proof.
  intros Hpx Hmm Hcm. unfold to_pixels.
  apply String.eqb_neq in Hpx, Hmm, Hcm.
  rewrite Hpx, Hmm, Hcm. reflexivity.
Qed.

Lemma to_pixels_unknown_unit_witness :
  unit in_inches <> "px"%string /\ unit in_inches <> "mm"%string /\
  unit in_inches <> "cm"%string /\
  to_pixels in_inches = Ok (Int 2, Int 3).
Proof.
  assert (Hpx : unit in_inches <> "px"%string) by (simpl; discriminate).
  assert (Hmm : unit in_inches <> "mm"%string) by (simpl; discriminate).
  assert (Hcm : unit in_inches <> "cm"%string) by (simpl; discriminate).
  exact (conj Hpx (conj Hmm (conj Hcm
           (to_pixels_unknown_unit in_inches Hpx Hmm Hcm)))).
Defined.





(** C4, as stated, fails: 35 x 45 mm at 300 DPI with a 400 DPI floor
    resolves to 413 x 531 pixels, the size at 300 DPI; computed from the
    raised DPI it would be 551 x 708. *)
Lemma to_pixels_min_dpi_counterexample :
  min_dpi e_okul_floor_400 = Some 400 /\
  dpi e_okul_floor_400 < 400 /\
  effective_dpi e_okul_floor_400 = 400 /\
  to_pixels e_okul_floor_400 = Ok (Int 413, Int 531) /\
  spec_to_pixels_raised e_okul_floor_400 = Ok (Int 551, Int 708) /\
  to_pixels e_okul_floor_400 <> spec_to_pixels_raised e_okul_floor_400.
Proof.
  assert (H1 : to_pixels e_okul_floor_400 = Ok (Int 413, Int 531))
    by (vm_compute; reflexivity).
  assert (H2 : spec_to_pixels_raised e_okul_floor_400 = Ok (Int 551, Int 708))
    by (vm_compute; reflexivity).
  split; [reflexivity | split; [simpl; lia | split; [reflexivity |]]].
  split; [exact H1 | split; [exact H2 |]].
  rewrite H1, H2. discriminate.
Qed.

End ResolverClaims.


(* ===================================================================== *)
(** * The compositors                                                     *)
(* ===================================================================== *)

Lemma bind_ok {A B : Type} (m : result A) (k : A -> result B) (b : B) :
  bind m k = Ok b -> exists a, m = Ok a /\ k a = Ok b.
Proof.
  destruct m as [a|e]; simpl; intros H; [exists a; auto | discriminate].
Qed.

Tactic Notation "bind_inv" hyp(H) ident(a) ident(E) :=
  apply bind_ok in H; destruct H as (a & E & H).

Section Compositor.

Import PIL PhotoProcessor Inputs.

Lemma as_int_ok n z : as_int n = Ok z -> n = Int z.
Proof. destruct n; simpl; intros H; inversion H; reflexivity. Qed.

Lemma resize_size K im w h r :
  resize K im w h = Ok r -> size r = (w, h).
Proof.
  unfold resize.
  destruct ((w =? width im) && (h =? height im)) eqn:Esame.
  - apply andb_prop in Esame. destruct Esame as [Ew Eh].
    apply Z.eqb_eq in Ew, Eh. intros H; inversion H; subst. reflexivity.
  - destruct ((w <? 1) || (h <? 1)); intros H; inversion H. reflexivity.
Qed.

Lemma resize_ok K im w h :
  1 <= w -> 1 <= h -> exists r, resize K im w h = Ok r.
Proof.
  intros Hw Hh. unfold resize.
  destruct ((w =? width im) && (h =? height im)); eauto.
  assert (E : (w <? 1) || (h <? 1) = false).
  { apply orb_false_iff. split; apply Z.ltb_ge; lia. }
  rewrite E. eauto.
Qed.

Lemma new_size w h c im : new w h c = Ok im -> size im = (w, h).
Proof.
  unfold new. destruct ((w <? 0) || (h <? 0)); intros H; inversion H. reflexivity.
Qed.

Lemma paste_size canvas im x y : size (paste canvas im x y) = size canvas.
Proof. reflexivity. Qed.

Lemma enhance_size K im : size (enhance K im) = size im.
Proof. reflexivity. Qed.

(** [final_img] has the target size on every branch of lines 310-339. *)
Lemma compose_size K cropped target_width target_height wb img :
  compose K cropped target_width target_height wb = Ok img ->
  exists tw th, target_width = Int tw /\ target_height = Int th /\
                size img = (tw, th).
Proof.
  unfold compose. intros H.
  bind_inv H target_ratio Etr. bind_inv H cropped_ratio Ecr.
  destruct wb.
  - bind_inv H tw Etw. bind_inv H th Eth. bind_inv H white_bg Ebg.
    apply as_int_ok in Etw, Eth. exists tw, th.
    split; [assumption | split; [assumption |]].
    destruct (ratios_close cropped_ratio target_ratio).
    + eapply resize_size; eassumption.
    + bind_inv H nwh Enwh. destruct nwh as [new_width new_height].
      bind_inv H resized Ers. inversion H; subst.
      rewrite paste_size. eapply new_size; eassumption.
  - bind_inv H tw Etw. bind_inv H th Eth.
    apply as_int_ok in Etw, Eth. exists tw, th.
    split; [assumption | split; [assumption |]].
    eapply resize_size; eassumption.
Qed.

Lemma returns_ok body art : returns body = (true, Some art) -> body = Ok art.
Proof. destruct body; simpl; intros H; inversion H; reflexivity. Qed.

Lemma returns_true body :
  fst (returns body) = true -> exists art, returns body = (true, Some art).
Proof. destruct body as [art|e]; simpl; intros H; [eauto | discriminate]. Qed.

Lemma optimized_size K c dimensions x y width height wb art :
  crop_image_with_white_background_optimized K c dimensions x y width height wb
  = (true, Some art) ->
  exists tw th,
    to_pixels dimensions = Ok (Int tw, Int th) /\
    size (art_image art) = (tw, th).
Proof.
  intros H. apply returns_ok in H.
  bind_inv H tp Et. destruct tp as [target_width target_height].
  bind_inv H img Eimg. cbv zeta in H.
  destruct (size img) as [orig_width orig_height].
  bind_inv H r Er. destruct r as [[[x' y'] w'] h'].
  bind_inv H cropped Ecrop. bind_inv H final_img Efinal.
  bind_inv H u Eu.
  destruct (compose_size _ _ _ _ _ _ Efinal) as (tw & th & -> & -> & Hs).
  exists tw, th. split; [exact Et |].
  destruct (_ =? ".png")%string; inversion H; subst; simpl art_image;
    rewrite enhance_size; exact Hs.
Qed.

Lemma crop_image_size K c dimensions x y width height art :
  crop_image K c dimensions x y width height = (true, Some art) ->
  exists tw th,
    to_pixels dimensions = Ok (Int tw, Int th) /\
    size (art_image art) = (tw, th).
Proof.
  intros H. apply returns_ok in H.
  cbv zeta in H. bind_inv H img Eimg.
  destruct (size img) as [orig_width orig_height].
  bind_inv H tp Et. destruct tp as [target_width target_height].
  bind_inv H r Er. destruct r as [[[x' y'] w'] h'].
  bind_inv H cropped Ecrop.
  bind_inv H tw Etw. bind_inv H th Eth. bind_inv H resized Ers.
  bind_inv H u Eu.
  apply as_int_ok in Etw, Eth. subst.
  exists tw, th. split; [exact Et |].
  destruct (_ =? ".png")%string; inversion H; subst; simpl art_image;
    rewrite enhance_size; eapply resize_size; eassumption.
Qed.

(** C1. For every input image, crop region and target spec, the composed
    output bitmap has exactly the resolved target pixel dimensions: on the
    white-background path of [crop_image_with_white_background_optimized]
    (white canvas of the target size, or direct resize when the ratios
    agree), on its direct-resize path, and in [crop_image]; sharpening and
    saving keep that size. *)
Theorem composed_size_is_target (K : filters) (c : call)
    (dimensions : CropDimensions.t) (x y width height : option Z)
    (white_background : bool) (art : Artifact) :
  crop_image_with_white_background_optimized K c dimensions x y width height
    white_background = (true, Some art)
  \/ crop_image K c dimensions x y width height = (true, Some art) ->
  exists tw th,
    to_pixels dimensions = Ok (Int tw, Int th) /\
    size (art_image art) = (tw, th).
Proof.
  intros [H | H]; [eapply optimized_size | eapply crop_image_size]; exact H.
Qed.

Lemma composed_size_is_target_witness :
  exists art,
    crop_image_with_white_background_optimized nearest (readable portrait)
      acik_lise (Some 250) (Some 60) (Some 660) (Some 1020) true = (true, Some art) /\
    to_pixels acik_lise = Ok (Int 394, Int 512) /\
    size (art_image art) = (394, 512).
Proof.
  destruct (returns_true _ (eq_refl :
    fst (crop_image_with_white_background_optimized nearest (readable portrait)
           acik_lise (Some 250) (Some 60) (Some 660) (Some 1020) true) = true))
    as [art Hart].
  exists art. split; [exact Hart |].
  destruct (composed_size_is_target nearest (readable portrait) acik_lise
              (Some 250) (Some 60) (Some 660) (Some 1020) true art (or_introl Hart))
    as (tw & th & Hpx & Hsize).
  assert (E : tw = 394 /\ th = 512).
  { vm_compute in Hpx. inversion Hpx. split; reflexivity. }
  destruct E as [-> ->]. split; [exact Hpx | exact Hsize].
Defined.

End Compositor.

Section WhiteBackground.

Import PIL PhotoProcessor Inputs.

(** C2, as stated, fails: a 200 x 100 crop for a 100 x 100 target (ratio
    2.0 against 1.0) is resized to 200 x 100, which does not fit within
    the target, and is pasted at (-50, 0): it hides the whole canvas, and
    the four corner pixels of the output are the crop's black, not white
    (in the saved file too, under filters that leave pixels alone). *)
Lemma white_background_fit_counterexample :
  truediv (Int 100) (Int 100) = Ok (literal 1 1) /\
  truediv (Int (width wide_black)) (Int (height wide_black)) = Ok (literal 2 1) /\
  ratios_close (literal 2 1) (literal 1 1) = false /\
  scaled_size 100 100 (literal 1 1) (literal 2 1) = Ok (200, 100) /\
  ~ fits_within (200, 100) (100, 100) /\
  size_of (compose nearest wide_black (Int 100) (Int 100) true) = Some (100, 100) /\
  pixel_of (compose nearest wide_black (Int 100) (Int 100) true) 0 0 = Some black /\
  pixel_of (compose nearest wide_black (Int 100) (Int 100) true) 99 0 = Some black /\
  pixel_of (compose nearest wide_black (Int 100) (Int 100) true) 0 99 = Some black /\
  pixel_of (compose nearest wide_black (Int 100) (Int 100) true) 99 99 = Some black /\
  pixel_of_saved
    (crop_image_with_white_background_optimized nearest (readable wide_black)
       square_100 (Some 0) (Some 0) (Some 200) (Some 100) true) 0 0 = Some black /\
  black <> white.
Proof.
  split; [vm_compute; reflexivity |].
  split; [vm_compute; reflexivity |].
  split; [vm_compute; reflexivity |].
  split; [vm_compute; reflexivity |].
  split; [unfold fits_within; simpl; lia |].
  split; [vm_compute; reflexivity |].
  split; [vm_compute; reflexivity |].
  split; [vm_compute; reflexivity |].
  split; [vm_compute; reflexivity |].
  split; [vm_compute; reflexivity |].
  split; [vm_compute; reflexivity |].
  discriminate.
Qed.

(** Whatever the filters: the crop already has the size it is resized
    to, so the output's corner is the crop's own pixel (50, 0). *)
Lemma white_background_corner_any_kernel K :
  pixel_of (compose K wide_black (Int 100) (Int 100) true) 0 0 = Some black.
Proof. vm_compute. reflexivity. Qed.

Lemma scaled_size_edge tw th tr cr nw nh :
  scaled_size tw th tr cr = Ok (nw, nh) ->
  if fltb tr cr
  then nh = th /\
       exists p, mulf (Int th) (Float cr) = Ok p /\ int_of_float p = Ok nw
  else nw = tw /\
       exists q, truediv (Int tw) (Float cr) = Ok q /\ int_of_float q = Ok nh.
Proof.
  unfold scaled_size. destruct (fltb tr cr); intros H.
  - bind_inv H p Ep. bind_inv H w Ew. inversion H. subst.
    split; [reflexivity | exists p; split; assumption].
  - bind_inv H q Eq. bind_inv H h Eh. inversion H. subst.
    split; [reflexivity | exists q; split; assumption].
Qed.

Lemma centred_offset_covers t n i :
  t <= n -> 0 <= i < t -> (t - n) / 2 <= i /\ i < (t - n) / 2 + n.
Proof.
  intros Htn Hi.
  pose proof (Z.div_mod (t - n) 2 ltac:(lia)) as Hdm.
  pose proof (Z.mod_pos_bound (t - n) 2 ltac:(lia)) as Hb.
  lia.
Qed.

(** C2, amended. When white_background is true and the crop's aspect
    ratio differs from the target's by 0.01 or more (all sizes positive
    and below 2^31), the crop is resized with one edge set to the target
    edge - the height when the crop is relatively wider than the target
    (the width is then int(height * crop ratio)), the width otherwise
    (the height is then int(width / crop ratio)) - so that it is at least
    as large as the target in both directions: it covers the target
    instead of fitting within it.  It is pasted at the centred offset
    ((tw - nw) // 2, (th - nh) // 2), which is never positive, on a white
    canvas of exactly the target size, and every pixel of the output,
    corners included, is a pixel of the resized crop: none is left to the
    white canvas. *)
Theorem white_background_paste (K : filters) (cropped : Image)
    (tw th : Z) (tr cr : float) :
  0 < tw < 2 ^ 31 -> 0 < th < 2 ^ 31 ->
  0 < width cropped < 2 ^ 31 -> 0 < height cropped < 2 ^ 31 ->
  truediv (Int tw) (Int th) = Ok tr ->
  truediv (Int (width cropped)) (Int (height cropped)) = Ok cr ->
  ratios_close cr tr = false ->
  exists nw nh resized out,
    scaled_size tw th tr cr = Ok (nw, nh) /\
    (if fltb tr cr
     then nh = th /\
          exists p, mulf (Int th) (Float cr) = Ok p /\ int_of_float p = Ok nw
     else nw = tw /\
          exists q, truediv (Int tw) (Float cr) = Ok q /\ int_of_float q = Ok nh) /\
    tw <= nw /\ th <= nh /\
    resize K cropped nw nh = Ok resized /\
    size resized = (nw, nh) /\
    compose K cropped (Int tw) (Int th) true = Ok out /\
    size out = (tw, th) /\
    (tw - nw) / 2 <= 0 /\ (th - nh) / 2 <= 0 /\
    (forall i j,
        getpixel out i j =
        if covers resized ((tw - nw) / 2) ((th - nh) / 2) i j
        then getpixel resized (i - (tw - nw) / 2) (j - (th - nh) / 2)
        else white) /\
    (forall i j, 0 <= i < tw -> 0 <= j < th ->
        getpixel out i j = getpixel resized (i - (tw - nw) / 2) (j - (th - nh) / 2)).
Proof.
  intros Htw Hth Hcw Hch Htr Hcr Hclose.
  destruct (scaled_size_covers tw th (width cropped) (height cropped) tr cr
              Htw Hth Hcw Hch Htr Hcr Hclose) as (nw & nh & Enwh & Hnw & Hnh).
  destruct (resize_ok K cropped nw nh ltac:(lia) ltac:(lia)) as [resized Ers].
  pose proof (resize_size _ _ _ _ _ Ers) as Hrs.
  set (white_bg := mkImage tw th (fun _ _ => white)).
  assert (Ebg : new tw th white = Ok white_bg).
  { unfold new.
    assert (E : (tw <? 0) || (th <? 0) = false)
      by (apply orb_false_iff; split; apply Z.ltb_ge; lia).
    rewrite E. reflexivity. }
  assert (Hpix : forall i j,
    getpixel (paste white_bg resized ((tw - nw) / 2) ((th - nh) / 2)) i j =
    if covers resized ((tw - nw) / 2) ((th - nh) / 2) i j
    then getpixel resized (i - (tw - nw) / 2) (j - (th - nh) / 2)
    else white).
  { intros i j. cbn [paste getpixel].
    destruct (covers resized _ _ i j); reflexivity. }
  exists nw, nh, resized, (paste white_bg resized ((tw - nw) / 2) ((th - nh) / 2)).
  split; [exact Enwh |].
  split; [exact (scaled_size_edge _ _ _ _ _ _ Enwh) |].
  split; [exact Hnw |].
  split; [exact Hnh |].
  split; [exact Ers |].
  split; [exact Hrs |].
  split.
  { unfold compose. rewrite Htr, Hcr. cbn [bind as_int]. rewrite Ebg. cbn [bind].
    rewrite Hclose, Enwh. cbn [bind]. rewrite Ers. reflexivity. }
  split; [reflexivity |].
  split; [Z.div_mod_to_equations; lia |].
  split; [Z.div_mod_to_equations; lia |].
  split; [exact Hpix |].
  assert (Hw : width resized = nw) by (unfold size in Hrs; congruence).
  assert (Hh : height resized = nh) by (unfold size in Hrs; congruence).
  intros i j Hi Hj. rewrite Hpix.
  destruct (centred_offset_covers tw nw i Hnw Hi) as [A1 A2].
  destruct (centred_offset_covers th nh j Hnh Hj) as [B1 B2].
  unfold covers. rewrite Hw, Hh.
  apply Z.leb_le in A1. apply Z.ltb_lt in A2.
  apply Z.leb_le in B1. apply Z.ltb_lt in B2.
  rewrite A1, A2, B1, B2. reflexivity.
Qed.

Lemma white_background_paste_witness :
  exists nw nh resized out,
    scaled_size 100 100 (literal 1 1) (literal 2 1) = Ok (nw, nh) /\
    (if fltb (literal 1 1) (literal 2 1)
     then nh = 100 /\
          exists p, mulf (Int 100) (Float (literal 2 1)) = Ok p /\
                    int_of_float p = Ok nw
     else nw = 100 /\
          exists q, truediv (Int 100) (Float (literal 2 1)) = Ok q /\
                    int_of_float q = Ok nh) /\
    100 <= nw /\ 100 <= nh /\
    resize nearest wide_black nw nh = Ok resized /\
    size resized = (nw, nh) /\
    compose nearest wide_black (Int 100) (Int 100) true = Ok out /\
    size out = (100, 100) /\
    (100 - nw) / 2 <= 0 /\ (100 - nh) / 2 <= 0 /\
    (forall i j,
        getpixel out i j =
        if covers resized ((100 - nw) / 2) ((100 - nh) / 2) i j
        then getpixel resized (i - (100 - nw) / 2) (j - (100 - nh) / 2)
        else white) /\
    (forall i j, 0 <= i < 100 -> 0 <= j < 100 ->
        getpixel out i j = getpixel resized (i - (100 - nw) / 2) (j - (100 - nh) / 2)).
Proof.
  apply (white_background_paste nearest wide_black 100 100 (literal 1 1) (literal 2 1)).
  - split; reflexivity.
  - split; reflexivity.
  - split; reflexivity.
  - split; reflexivity.
  - vm_compute. reflexivity.
  - vm_compute. reflexivity.
  - vm_compute. reflexivity.
Defined.

End WhiteBackground.

Section DpiFloor.

Import PIL PhotoProcessor Inputs.

Lemma to_pixels_ignores_min_dpi self m :
  to_pixels (with_min_dpi self m) = to_pixels self.
Proof. reflexivity. Qed.

Lemma final_dpi_effective self :
  min_dpi self <> Some 0 -> final_dpi self = effective_dpi self.
Proof.
  unfold final_dpi, effective_dpi, truthy. intros H0.
  destruct (min_dpi self) as [m|]; [| reflexivity].
  destruct (m =? 0) eqn:Em.
  - apply Z.eqb_eq in Em. subst. congruence.
  - reflexivity.
Qed.

Lemma optimized_dpi K c dimensions x y width height wb art :
  crop_image_with_white_background_optimized K c dimensions x y width height wb
  = (true, Some art) ->
  art_dpi art = (final_dpi dimensions, final_dpi dimensions).
Proof.
  intros H. apply returns_ok in H.
  bind_inv H tp Et. destruct tp as [target_width target_height].
  bind_inv H img Eimg. cbv zeta in H.
  destruct (size img) as [orig_width orig_height].
  bind_inv H r Er. destruct r as [[[x' y'] w'] h'].
  bind_inv H cropped Ecrop. bind_inv H final_img Efinal.
  bind_inv H u Eu.
  destruct (_ =? ".png")%string; inversion H; reflexivity.
Qed.

(** C4, amended. For every spec, whatever its unit, the pixel dimensions
    are computed from dpi and do not depend on min_dpi.  The raise to
    min_dpi (when min_dpi is set and dpi < min_dpi) affects only the DPI
    metadata that [crop_image_with_white_background_optimized] writes
    into the file. *)
Theorem min_dpi_only_tags (self : CropDimensions.t) :
  (forall m, to_pixels (with_min_dpi self m) = to_pixels self) /\
  (forall K c x y width height wb art,
      crop_image_with_white_background_optimized K c self x y width height wb
      = (true, Some art) ->
      art_dpi art = (final_dpi self, final_dpi self)) /\
  (min_dpi self <> Some 0 -> final_dpi self = effective_dpi self).
Proof.
  split; [intros m; apply to_pixels_ignores_min_dpi |].
  split; [intros K c x y width height wb art; apply optimized_dpi |].
  apply final_dpi_effective.
Qed.

Lemma min_dpi_only_tags_witness :
  to_pixels (with_min_dpi e_okul_floor_400 None) = to_pixels e_okul_floor_400 /\
  (exists art,
      crop_image_with_white_background_optimized nearest (readable portrait)
        e_okul_floor_400 (Some 250) (Some 60) (Some 660) (Some 1020) true
      = (true, Some art) /\
      art_dpi art = (400, 400)) /\
  final_dpi e_okul_floor_400 = 400.
Proof.
  destruct (min_dpi_only_tags e_okul_floor_400) as (H1 & H2 & H3).
  split; [exact (H1 None) |].
  split.
  - destruct (returns_true _ (eq_refl :
      fst (crop_image_with_white_background_optimized nearest (readable portrait)
             e_okul_floor_400 (Some 250) (Some 60) (Some 660) (Some 1020) true) = true))
      as [art Hart].
    exists art. split; [exact Hart |].
    exact (H2 nearest (readable portrait) (Some 250) (Some 60) (Some 660) (Some 1020)
              true art Hart).
  - rewrite H3; [reflexivity | simpl; discriminate].
Defined.

End DpiFloor.

Section CentreCrop.

Import PIL PhotoProcessor Inputs.








End CentreCrop.

(* ===================================================================== *)
(** * The face locator                                                    *)
(* ===================================================================== *)

Section Locator.

Import PhotoProcessor Inputs.

Context {Path Mat Cascade : Type}.
Variable cv2 : opencv Path Mat Cascade.

Lemma detect_faces_returns (face_cascade : option Cascade) (image_path : Path) :
  exists faces, detect_faces cv2 face_cascade image_path = Ok faces.
Proof.
  unfold detect_faces. destruct face_cascade as [cascade|]; [| eauto].
  destruct (detect_faces_try cv2 cascade image_path) as [faces|e]; [eauto |].
  destruct e; eauto.
Qed.

Lemma detect_faces_handles (cascade : Cascade) (image_path : Path) (e : exn) :
  detect_faces_try cv2 cascade image_path = Raise e ->
  detect_faces cv2 (Some cascade) image_path = Ok [].
Proof.
  unfold detect_faces. intros ->. destruct e; reflexivity.
Qed.

Lemma detect_faces_unreadable (cascade : Cascade) (image_path : Path) :
  imread cv2 image_path = Ok None \/ (exists e, imread cv2 image_path = Raise e) ->
  detect_faces cv2 (Some cascade) image_path = Ok [].
Proof.
  intros Hread. unfold detect_faces, detect_faces_try.
  destruct (import_cv2 cv2) as [u|e0]; cbn [bind]; [| destruct e0; reflexivity].
  destruct Hread as [-> | [e ->]]; cbn [bind]; [reflexivity |].
  destruct e; reflexivity.
Qed.

End Locator.

Section LocatorClaim.

Import PhotoProcessor Inputs.

(** C8. For every input the face locator returns a list and never
    raises; with the detector unavailable it returns the empty list, and
    for an image that cannot be read or decoded ([imread] answers None or
    raises) it returns the empty list, as it does whenever anything in
    its body raises. *)
Theorem detect_faces_never_raises {Path Mat Cascade : Type}
    (cv2 : opencv Path Mat Cascade) (face_cascade : option Cascade)
    (image_path : Path) :
  (exists faces, detect_faces cv2 face_cascade image_path = Ok faces) /\
  detect_faces cv2 None image_path = Ok [] /\
  (forall cascade,
      imread cv2 image_path = Ok None \/ (exists e, imread cv2 image_path = Raise e) ->
      detect_faces cv2 (Some cascade) image_path = Ok []) /\
  (forall cascade e,
      detect_faces_try cv2 cascade image_path = Raise e ->
      detect_faces cv2 (Some cascade) image_path = Ok []).
Proof.
  split; [apply detect_faces_returns |].
  split; [reflexivity |].
  split; [intros cascade; apply detect_faces_unreadable |].
  intros cascade e. apply detect_faces_handles.
Qed.

Lemma detect_faces_never_raises_witness :
  imread undecodable "corrupt.jpg"%string = Ok None /\
  detect_faces undecodable (Some tt) "corrupt.jpg"%string = Ok [] /\
  detect_faces undecodable None "corrupt.jpg"%string = Ok [].
Proof.
  destruct (detect_faces_never_raises undecodable (Some tt) "corrupt.jpg"%string)
    as (_ & Hnone & Hread & _).
  split; [reflexivity |].
  split; [| exact Hnone].
  apply Hread. left. reflexivity.
Defined.

End LocatorClaim.

(* ===================================================================== *)
(** * The size optimiser                                                  *)
(* ===================================================================== *)

Section OptimizerFacts.

Import VesiKolayApp Inputs.

Context {File : Type}.
Variable C : codec File.

Lemma descending_snoc q n :
  descending (q - 5) n ++ [q - 5] = descending q (S n).
Proof.
  induction n as [|n IH].
  - simpl; f_equal; lia.
  - change (descending (q - 5) (S n)) with
      ((q - 5 - 5 * Z.of_nat (S n)) :: descending (q - 5) n).
    rewrite <- app_comm_cons, IH.
    change (descending q (S (S n))) with
      ((q - 5 * Z.of_nat (S (S n))) :: descending q (S n)).
    f_equal. lia.
Qed.

Lemma descending_length q n : List.length (descending q n) = n.
Proof. induction n as [|n IH]; simpl; [reflexivity | rewrite IH; reflexivity]. Qed.

Lemma shrink_shrunk max_bytes st : shrunk C max_bytes st (shrink C max_bytes st).
Proof.
  apply (shrink_elim C (fun max_bytes st r => shrunk C max_bytes st r)).
  - (* the loop condition is false *)
    clear. intros max_bytes st Hcond _. exists O. simpl.
    split; [reflexivity |]. split; [lia |]. split; [congruence |].
    split; [| reflexivity].
    intros _. apply andb_false_iff in Hcond.
    destruct Hcond as [H | H]; [left; apply Z.ltb_ge in H | right; apply Z.ltb_ge in H];
      exact H.
  - (* one pass, then the loop again *)
    clear. intros max_bytes st f' Hcond IH _ _.
    destruct IH as (n & Hp & Hq & Hlast & Hexit & Htotal).
    cbn [reached passes file] in Hp, Hq, Hlast.
    apply andb_prop in Hcond. destruct Hcond as [_ Hq20]. apply Z.ltb_lt in Hq20.
    exists (S n).
    split.
    { rewrite Hp. rewrite <- descending_snoc, <- app_assoc. reflexivity. }
    split; [rewrite Hq; lia |].
    split; [| split; [exact Hexit | exact Htotal]].
    intros _. destruct n as [|n]; [simpl; lia |].
    specialize (Hlast ltac:(congruence)). lia.
  - (* the save raises *)
    clear. intros max_bytes st e Hcond Hsave _. exists O. simpl.
    split; [reflexivity |]. split; [lia |]. split; [congruence |].
    split; [discriminate |].
    intros Htotal. destruct (Htotal (file st) (reached st - 5)) as [f' Hf'].
    congruence.
Qed.

End OptimizerFacts.

Section OptimizerClaims.

Import VesiKolayApp Inputs.

(** On a file above the budget the optimiser runs the loop, then the one
    upward step. *)
Lemma optimize_file_size_oversized {File : Type} (C : codec File) (f : File)
    (cfg : size_config) (min_kb max_kb : Z) :
  file_size_limit cfg = Some (min_kb, max_kb) ->
  max_kb * 1024 < getsize C f ->
  optimize_file_size C f cfg =
  match shrink C (max_kb * 1024) (mkRun f (quality cfg) []) with
  | (st, Some _) => (false, st)
  | (st, None) =>
      match grow C (min_kb * 1024) (quality cfg) st with
      | (st', Some _) => (false, st')
      | (st', None) => (true, st')
      end
  end.
Proof.
  intros Hlimit Hbig. unfold optimize_file_size. rewrite Hlimit.
  apply Z.leb_gt in Hbig. rewrite Hbig, andb_false_r. reflexivity.
Qed.

(** C5. For every artifact and (min_kb, max_kb) budget, from starting
    quality 85 the optimiser's loop lowers the quality by 5 per pass and
    ends after at most 13 passes; when it ends normally the file size is
    at most max_kb or the quality equals 20, and it ends normally unless
    a save raises. *)
Theorem shrink_from_85 {File : Type} (C : codec File) (max_kb : Z) (f : File) :
  exists n : nat,
    (n <= 13)%nat /\
    passes (fst (shrink C (max_kb * 1024) (mkRun f 85 []))) = descending 85 n /\
    reached (fst (shrink C (max_kb * 1024) (mkRun f 85 []))) = 85 - 5 * Z.of_nat n /\
    (snd (shrink C (max_kb * 1024) (mkRun f 85 [])) = None ->
     getsize C (file (fst (shrink C (max_kb * 1024) (mkRun f 85 []))))
       <= max_kb * 1024
     \/ reached (fst (shrink C (max_kb * 1024) (mkRun f 85 []))) = 20) /\
    ((forall f q, exists f', save_jpeg C f q = Ok f') ->
     snd (shrink C (max_kb * 1024) (mkRun f 85 [])) = None).
Proof.
  destruct (shrink_shrunk C (max_kb * 1024) (mkRun f 85 []))
    as (n & Hp & Hq & Hlast & Hexit & Htotal).
  cbn [reached passes] in Hp, Hq, Hlast. rewrite app_nil_r in Hp.
  assert (Hn : (n <= 13)%nat).
  { destruct n as [|n]; [lia |]. specialize (Hlast ltac:(congruence)). lia. }
  exists n.
  split; [exact Hn |]. split; [exact Hp |]. split; [exact Hq |].
  split; [| exact Htotal].
  intros Hnone. destruct (Hexit Hnone) as [Hsize | Hq20]; [left; exact Hsize |].
  right. lia.
Qed.

Lemma shrink_from_85_witness :
  (forall f q, exists f', save_jpeg percent_codec f q = Ok f') /\
  snd (shrink percent_codec (150 * 1024) (mkRun (500 * 1024) 85 [])) = None /\
  passes (fst (shrink percent_codec (150 * 1024) (mkRun (500 * 1024) 85 [])))
    = [65; 70; 75; 80] /\
  getsize percent_codec
    (file (fst (shrink percent_codec (150 * 1024) (mkRun (500 * 1024) 85 []))))
    <= 150 * 1024.
Proof.
  assert (Htotal : forall f q, exists f', save_jpeg percent_codec f q = Ok f')
    by (intros f q; eexists; reflexivity).
  destruct (shrink_from_85 percent_codec 150 (500 * 1024))
    as (n & Hn & Hp & Hq & Hexit & Hnone).
  split; [exact Htotal |].
  split; [exact (Hnone Htotal) |].
  split; [vm_compute; reflexivity |].
  vm_compute. discriminate.
Defined.

(** A codec that never makes the file smaller drives the loop through
    all 13 passes, down to quality 20. *)
Example shrink_exhausts :
  let stubborn := mkCodec (fun f : Z => f) (fun f _ => Ok f) in
  shrink stubborn (150 * 1024) (mkRun (500 * 1024) 85 [])
  = (mkRun (500 * 1024) 20 [20; 25; 30; 35; 40; 45; 50; 55; 60; 65; 70; 75; 80],
     None).
Proof. vm_compute. reflexivity. Qed.

(** C6. If the file's size already lies within [min_kb, max_kb] the
    optimiser returns success without re-encoding: the file on disk is
    the one it was given and no save was made; a second call on the
    result therefore finds and leaves the same bytes. *)
Theorem optimize_in_range_idempotent {File : Type} (C : codec File) (f : File)
    (cfg : size_config) (min_kb max_kb : Z) :
  file_size_limit cfg = Some (min_kb, max_kb) ->
  min_kb * 1024 <= getsize C f <= max_kb * 1024 ->
  optimize_file_size C f cfg = (true, mkRun f (quality cfg) []) /\
  file (snd (optimize_file_size C f cfg)) = f /\
  passes (snd (optimize_file_size C f cfg)) = [] /\
  optimize_file_size C (file (snd (optimize_file_size C f cfg))) cfg
  = optimize_file_size C f cfg.
Proof.
  intros Hlimit [Hmin Hmax].
  assert (H : optimize_file_size C f cfg = (true, mkRun f (quality cfg) [])).
  { unfold optimize_file_size. rewrite Hlimit.
    apply Z.leb_le in Hmin. apply Z.leb_le in Hmax.
    rewrite Hmin, Hmax. reflexivity. }
  rewrite H. cbn [snd file passes].
  split; [reflexivity |]. split; [reflexivity |]. split; [reflexivity |].
  exact H.
Qed.

Lemma optimize_in_range_idempotent_witness :
  optimize_file_size percent_codec (100 * 1024) e_okul_budget
  = (true, mkRun (100 * 1024) 85 []) /\
  optimize_file_size percent_codec
    (file (snd (optimize_file_size percent_codec (100 * 1024) e_okul_budget)))
    e_okul_budget
  = optimize_file_size percent_codec (100 * 1024) e_okul_budget.
Proof.
  destruct (optimize_in_range_idempotent percent_codec (100 * 1024) e_okul_budget
              20 150 eq_refl) as (H1 & _ & _ & H4).
  - simpl. lia.
  - split; [exact H1 | exact H4].
Defined.

End OptimizerClaims.

(* ===================================================================== *)
(** * The watermark                                                       *)
(* ===================================================================== *)

Section Watermark.

Import PIL VesiKolayApp Inputs.




End Watermark.

(* ===================================================================== *)
(** * The literals and the documented scenarios, evaluated                *)
(* ===================================================================== *)

Section Scenarios.

Import PIL PhotoProcessor VesiKolayApp Inputs.

(** The literals are the doubles Python reads: 25.4 is
    0x1.9666666666666p+4, 2.54 is 0x1.451eb851eb852p+1 and 0.01 is
    0x1.47ae147ae147bp-7. *)
Example literal_25_4 : f25_4 = S754_finite false 7149464408450662 (-48).
Proof. vm_compute. reflexivity. Qed.

Example literal_2_54 : f2_54 = S754_finite false 5719571526760530 (-51).
Proof. vm_compute. reflexivity. Qed.

Example literal_0_01 : f0_01 = S754_finite false 5764607523034235 (-59).
Proof. vm_compute. reflexivity. Qed.

(** 35 x 45 mm at 300 DPI is 413 x 531 pixels, 35 x 35 mm is 413 x 413. *)
Example e_okul_pixels : to_pixels e_okul = Ok (Int 413, Int 531).
Proof. vm_compute. reflexivity. Qed.

Example passport_pixels :
  to_pixels (CropDimensions.mk (Float (literal 35 1)) (Float (literal 35 1)) "mm" 300 None)
  = Ok (Int 413, Int 413).
Proof. vm_compute. reflexivity. Qed.

(** A pixel spec passes through; its DPI floor only tags the file. *)
Example acik_lise_pixels :
  to_pixels acik_lise = Ok (Int 394, Int 512) /\ final_dpi acik_lise = 400.
Proof. split; vm_compute; reflexivity. Qed.

(** The centre crop of a 1200 x 1600 source for a square target is the
    1200 x 1200 square at (0, 200). *)
Example passport_centre_crop :
  plan 1200 1600 (Int 413) (Int 413) None None None None = Ok (0, 200, 1200, 1200).
Proof. vm_compute. reflexivity. Qed.

(** A 660 x 1020 biometric crop for the 394 x 512 target is scaled to
    394 x 608: taller than the canvas, so it is pasted 48 rows up and
    hides the canvas. *)
Example biometric_scaled :
  exists tr cr,
    truediv (Int 394) (Int 512) = Ok tr /\
    truediv (Int 660) (Int 1020) = Ok cr /\
    ratios_close cr tr = false /\
    scaled_size 394 512 tr cr = Ok (394, 608) /\
    (512 - 608) / 2 = -48.
Proof.
  exists (fdiv_ieee (literal 394 1) (literal 512 1)),
         (fdiv_ieee (literal 660 1) (literal 1020 1)).
  repeat split; vm_compute; reflexivity.
Qed.

End Scenarios.

(* ===================================================================== *)
(** * The face croppers                                                   *)
(* ===================================================================== *)

Section FaceCrop.

Import PIL PhotoProcessor Inputs.

Lemma largest_from_first pre0 best mid faces :
  (forall g, In g pre0 -> area g < area best) ->
  (forall g, In g mid -> area g <= area best) ->
  exists pre post,
    pre0 ++ best :: mid ++ faces = pre ++ largest_from best faces :: post /\
    (forall g, In g pre -> area g < area (largest_from best faces)) /\
    (forall g, In g post -> area g <= area (largest_from best faces)).
Proof.
  revert pre0 best mid.
  induction faces as [| f rest IH]; intros pre0 best mid Hpre Hmid.
  - exists pre0, mid. rewrite app_nil_r. auto.
  - cbn [largest_from]. destruct (area best <? area f) eqn:E.
    + apply Z.ltb_lt in E.
      destruct (IH (pre0 ++ best :: mid) f []) as (pre & post & Hl & H1 & H2).
      * intros g Hg. apply in_app_or in Hg. destruct Hg as [Hg | [Hg | Hg]].
        -- specialize (Hpre g Hg). lia.
        -- subst g. exact E.
        -- specialize (Hmid g Hg). lia.
      * intros g [].
      * exists pre, post. split; [| auto].
        rewrite <- Hl. cbn [app]. rewrite <- app_assoc. reflexivity.
    + apply Z.ltb_ge in E.
      destruct (IH pre0 best (mid ++ [f])) as (pre & post & Hl & H1 & H2).
      * exact Hpre.
      * intros g Hg. apply in_app_or in Hg. destruct Hg as [Hg | [Hg | []]].
        -- exact (Hmid g Hg).
        -- subst g. exact E.
      * exists pre, post. split; [| auto].
        rewrite <- Hl. rewrite <- app_assoc. reflexivity.
Qed.

(** The face the croppers work on is the first of the faces of the
    largest area: every face before it is strictly smaller, none after it
    is larger. *)
Theorem largest_face_first (faces : list face) :
  faces <> [] ->
  exists f pre post,
    largest_face faces = Ok f /\
    faces = pre ++ f :: post /\
    (forall g, In g pre -> area g < area f) /\
    (forall g, In g post -> area g <= area f).
Proof.
  intros Hne. destruct faces as [| f0 rest]; [congruence |].
  destruct (largest_from_first [] f0 [] rest) as (pre & post & Hl & H1 & H2).
  - intros g [].
  - intros g [].
  - exists (largest_from f0 rest), pre, post.
    split; [reflexivity |]. split; [exact Hl |]. split; assumption.
Qed.

Lemma largest_face_first_witness :
  exists f pre post,
    largest_face [(10, 10, 40, 40); (200, 100, 80, 90); (500, 100, 90, 80)] = Ok f /\
    [(10, 10, 40, 40); (200, 100, 80, 90); (500, 100, 90, 80)] = pre ++ f :: post /\
    (forall g, In g pre -> area g < area f) /\
    (forall g, In g post -> area g <= area f).
Proof.
  apply (largest_face_first [(10, 10, 40, 40); (200, 100, 80, 90); (500, 100, 90, 80)]).
  discriminate.
Defined.

(** The box of lines 134-143, written without the two corrections, and
    its bounds. *)
Lemma face_box_bounds (img_width img_height x y w h : Z)
    (padding_w padding_h_top padding_h_bottom : Z) :
  let crop_x := Z.max 0 (x - padding_w) in
  let crop_y := Z.max 0 (y - padding_h_top) in
  let crop_w := Z.min (w + 2 * padding_w) (img_width - crop_x) in
  let crop_h := Z.min (h + padding_h_top + padding_h_bottom) (img_height - crop_y) in
  face_box img_width img_height (x, y, w, h) padding_w padding_h_top padding_h_bottom
  = (crop_x, crop_y, crop_w, crop_h) /\
  0 <= crop_x /\ 0 <= crop_y /\
  crop_x + crop_w <= img_width /\ crop_y + crop_h <= img_height.
Proof.
  intros crop_x crop_y crop_w crop_h. unfold face_box. cbv zeta.
  fold crop_x crop_y. fold crop_w crop_h.
  assert (E1 : (img_width <? crop_x + crop_w) = false)
    by (apply Z.ltb_ge; unfold crop_w; lia).
  assert (E2 : (img_height <? crop_y + crop_h) = false)
    by (apply Z.ltb_ge; unfold crop_h; lia).
  rewrite E1, E2. split; [reflexivity |].
  unfold crop_x, crop_y, crop_w, crop_h. repeat split; lia.
Qed.

(** The crop box of a face never starts before the image's origin nor
    ends beyond its right and bottom edges, whatever the face and the
    paddings; the two corrections of lines 140-143 never change it. *)
Theorem face_box_inside (img_width img_height x y w h : Z)
    (padding_w padding_h_top padding_h_bottom : Z) :
  let crop_x := Z.max 0 (x - padding_w) in
  let crop_y := Z.max 0 (y - padding_h_top) in
  let crop_w := Z.min (w + 2 * padding_w) (img_width - crop_x) in
  let crop_h := Z.min (h + padding_h_top + padding_h_bottom) (img_height - crop_y) in
  face_box img_width img_height (x, y, w, h) padding_w padding_h_top padding_h_bottom
  = (crop_x, crop_y, crop_w, crop_h) /\
  0 <= crop_x /\ 0 <= crop_y /\
  crop_x + crop_w <= img_width /\ crop_y + crop_h <= img_height.
Proof.
  exact (face_box_bounds img_width img_height x y w h
           padding_w padding_h_top padding_h_bottom).
Qed.







Lemma returns_cases body :
  returns body = (false, None) \/ exists art, returns body = (true, Some art).
Proof. destruct body as [art | e]; simpl; eauto. Qed.

Lemma crop_image_tags K c dimensions x y width height art :
  crop_image K c dimensions x y width height = (true, Some art) ->
  art_dpi art = (300, 300) /\
  ((art_format art = PNG /\ art_quality art = None) \/
   (art_format art = JPEG /\ art_quality art = Some 95)).
Proof.
  intros H. apply returns_ok in H.
  cbv zeta in H. bind_inv H img Eimg.
  destruct (size img) as [orig_width orig_height].
  bind_inv H tp Et. destruct tp as [target_width target_height].
  bind_inv H r Er. destruct r as [[[x' y'] w'] h'].
  bind_inv H cropped Ecrop.
  bind_inv H tw Etw. bind_inv H th Eth. bind_inv H resized Ers.
  bind_inv H u Eu.
  destruct (_ =? ".png")%string; inversion H; subst; simpl; auto.
Qed.

Lemma optimized_tags K c dimensions x y width height wb art :
  crop_image_with_white_background_optimized K c dimensions x y width height wb
  = (true, Some art) ->
  (art_format art = PNG /\ art_quality art = None) \/
  (art_format art = JPEG /\ art_quality art = Some 90).
Proof.
  intros H. apply returns_ok in H.
  bind_inv H tp Et. destruct tp as [target_width target_height].
  bind_inv H img Eimg. cbv zeta in H.
  destruct (size img) as [orig_width orig_height].
  bind_inv H r Er. destruct r as [[[x' y'] w'] h'].
  bind_inv H cropped Ecrop. bind_inv H final_img Efinal.
  bind_inv H u Eu.
  destruct (_ =? ".png")%string; inversion H; subst; simpl; auto.
Qed.




(** [crop_face_auto] returns True only when a face was detected, and
    then the saved image has exactly the resolved target size, tagged 300
    DPI whatever the spec's dpi and min_dpi; in every other case it
    returns False and saves nothing. *)
Theorem crop_face_auto_outcome {Path Mat Cascade : Type}
    (cv2 : opencv Path Mat Cascade) (K : filters)
    (face_cascade : option Cascade) (image_path : Path) (c : call)
    (dimensions : CropDimensions.t) (padding_factor : float) :
  crop_face_auto cv2 K face_cascade image_path c dimensions padding_factor
  = (false, None) \/
  exists art faces tw th,
    crop_face_auto cv2 K face_cascade image_path c dimensions padding_factor
    = (true, Some art) /\
    detect_faces cv2 face_cascade image_path = Ok faces /\ faces <> [] /\
    to_pixels dimensions = Ok (Int tw, Int th) /\
    size (art_image art) = (tw, th) /\
    art_dpi art = (300, 300).
Proof.
  unfold crop_face_auto.
  destruct (detect_faces cv2 face_cascade image_path) as [faces | e] eqn:Ed;
    cbn [bind]; [| left; reflexivity].
  destruct faces as [| f rest]; [left; reflexivity |].
  destruct (padded_box (f :: rest) c padding_factor f0_8 f0_4)
    as [[[[cx cy] cw] ch] | e]; cbn [bind guarded]; [| left; reflexivity].
  destruct (crop_image K c dimensions (Some cx) (Some cy) (Some cw) (Some ch))
    as [b o] eqn:Ec.
  assert (Hc : (b, o) = (false, None) \/ exists art, (b, o) = (true, Some art)).
  { rewrite <- Ec. apply returns_cases. }
  destruct Hc as [Hf | [art Ha]]; [left; exact Hf | right].
  rewrite Ha in Ec.
  destruct (crop_image_size K c dimensions _ _ _ _ art Ec) as (tw & th & Hpx & Hsz).
  destruct (crop_image_tags K c dimensions _ _ _ _ art Ec) as [Hdpi _].
  exists art, (f :: rest), tw, th.
  split; [exact Ha |]. split; [reflexivity |]. split; [discriminate |].
  split; [exact Hpx |]. split; [exact Hsz | exact Hdpi].
Qed.

End FaceCrop.

Section FaceCropScenarios.

Import PIL PhotoProcessor Inputs.

(** With the detector finding a face, [crop_face_auto] at the padding
    the application asks for (0.15) succeeds on the E-Okul size. *)
Example crop_face_auto_succeeds :
  fst (crop_face_auto one_face nearest (Some tt) "a.jpg"%string
         (readable portrait) e_okul (literal 15 100)) = true.
Proof. reflexivity. Qed.

End FaceCropScenarios.

(* ===================================================================== *)
(** * More on the size optimiser                                          *)
(* ===================================================================== *)

Section OptimizerMore.

Import VesiKolayApp Inputs.

Context {File : Type}.
Variable C : codec File.

(** The loop does nothing on a file within the maximum. *)
Lemma shrink_small max_bytes st :
  getsize C (file st) <= max_bytes -> shrink C max_bytes st = (st, None).
Proof.
  apply (shrink_elim C (fun max_bytes st r =>
           getsize C (file st) <= max_bytes -> r = (st, None))).
  - reflexivity.
  - clear. intros max_bytes st f' Hcond _ _ _ Hsmall.
    apply andb_prop in Hcond. destruct Hcond as [Hbig _].
    apply Z.ltb_lt in Hbig. lia.
  - clear. intros max_bytes st e Hcond _ _ Hsmall.
    apply andb_prop in Hcond. destruct Hcond as [Hbig _].
    apply Z.ltb_lt in Hbig. lia.
Qed.


(** What a whole run has saved: [n] downward passes, then at most one
    upward one, which needs a downward pass before it. *)
Lemma optimize_history f cfg :
  exists (n : nat) (up : list Z),
    passes (snd (optimize_file_size C f cfg)) = up ++ descending (quality cfg) n /\
    (up = [] \/
     (up = [Z.min 95 (quality cfg - 5 * Z.of_nat n + 20)] /\ n <> O)) /\
    (n <> O -> 20 < quality cfg - 5 * (Z.of_nat n - 1)).
Proof.
  unfold optimize_file_size.
  destruct (file_size_limit cfg) as [[min_kb max_kb] |].
  2:{ exists O, []. cbn. split; [reflexivity |]. split; [left; reflexivity | congruence]. }
  destruct ((min_kb * 1024 <=? getsize C f) && (getsize C f <=? max_kb * 1024)).
  { exists O, []. cbn. split; [reflexivity |]. split; [left; reflexivity | congruence]. }
  cbv zeta.
  pose proof (shrink_shrunk C (max_kb * 1024) (mkRun f (quality cfg) [])) as Hs.
  destruct (shrink C (max_kb * 1024) (mkRun f (quality cfg) [])) as [st o].
  destruct Hs as (n & Hp & Hq & Hlast & _ & _).
  cbn [fst snd reached passes] in Hp, Hq, Hlast. rewrite app_nil_r in Hp.
  destruct o as [e |].
  { exists n, []. cbn [snd app]. split; [exact Hp |]. split; [left; reflexivity | exact Hlast]. }
  unfold grow.
  destruct ((getsize C (file st) <? min_kb * 1024) && (reached st <? quality cfg)) eqn:Eg.
  - apply andb_prop in Eg. destruct Eg as [_ Hlt]. apply Z.ltb_lt in Hlt.
    assert (Hn : n <> O) by (intros ->; cbn in Hq; lia).
    destruct (save_jpeg C (file st) (Z.min 95 (reached st + 20))) as [f' | e].
    + exists n, [Z.min 95 (reached st + 20)]. cbn [snd passes app].
      split; [rewrite Hp; reflexivity |].
      split; [right; split; [rewrite Hq; reflexivity | exact Hn] | exact Hlast].
    + exists n, []. cbn [snd app]. split; [exact Hp |].
      split; [left; reflexivity | exact Hlast].
  - exists n, []. cbn [snd app]. split; [exact Hp |].
    split; [left; reflexivity | exact Hlast].
Qed.

End OptimizerMore.

Section OptimizerMoreClaims.

Import VesiKolayApp Inputs.

(** A file that is below the minimum size (and not above the maximum) is
    never re-encoded: the upward step needs a quality below the configured
    one, which only a downward pass produces.  The optimiser answers True
    and leaves the file as it was. *)
Theorem optimize_undersized_untouched {File : Type} (C : codec File) (f : File)
    (cfg : size_config) (min_kb max_kb : Z) :
  file_size_limit cfg = Some (min_kb, max_kb) ->
  getsize C f < min_kb * 1024 ->
  getsize C f <= max_kb * 1024 ->
  optimize_file_size C f cfg = (true, mkRun f (quality cfg) []).
Proof.
  intros Hlimit Hmin Hmax. unfold optimize_file_size. rewrite Hlimit.
  assert (E : (min_kb * 1024 <=? getsize C f) = false) by (apply Z.leb_gt; exact Hmin).
  rewrite E. cbn [andb]. cbv zeta.
  rewrite (shrink_small C (max_kb * 1024) (mkRun f (quality cfg) []) Hmax).
  unfold grow. cbn [file reached].
  rewrite Z.ltb_irrefl, andb_false_r. reflexivity.
Qed.

Lemma optimize_undersized_untouched_witness :
  optimize_file_size percent_codec (5 * 1024) e_okul_budget
  = (true, mkRun (5 * 1024) 85 []).
Proof.
  apply (optimize_undersized_untouched percent_codec (5 * 1024) e_okul_budget 20 150).
  - reflexivity.
  - simpl. lia.
  - simpl. lia.
Defined.



(** Every run of the optimiser re-encodes [n] times downward, each
    quality 5 below the one before and all above 15, and then at most once
    upward, by 20 and to no more than 95; the upward step is taken only
    after a downward one. *)
Theorem optimize_passes {File : Type} (C : codec File) (f : File) (cfg : size_config) :
  exists (n : nat) (up : list Z),
    passes (snd (optimize_file_size C f cfg)) = up ++ descending (quality cfg) n /\
    (up = [] \/
     (up = [Z.min 95 (quality cfg - 5 * Z.of_nat n + 20)] /\ n <> O)) /\
    (forall q, In q (descending (quality cfg) n) -> 15 < q < quality cfg) /\
    (forall q, In q up -> q <= 95).
Proof.
  destruct (optimize_history C f cfg) as (n & up & Hp & Hup & Hlast).
  exists n, up. split; [exact Hp |]. split; [exact Hup |]. split.
  - clear Hp Hup. induction n as [| n IH]; [intros q [] |].
    intros q Hq. cbn [descending In] in Hq. destruct Hq as [Hq | Hq].
    + specialize (Hlast ltac:(congruence)). lia.
    + apply IH; [| exact Hq]. intros Hn.
      specialize (Hlast ltac:(congruence)). lia.
  - intros q Hq. destruct Hup as [-> | [-> _]]; [destruct Hq |].
    destruct Hq as [<- | []]. lia.
Qed.

End OptimizerMoreClaims.

(* ===================================================================== *)
(** * The pipeline of one photo                                           *)
(* ===================================================================== *)

Section PipelineFacts.

Import PIL PhotoProcessor VesiKolayApp Inputs.





End PipelineFacts.

Section PipelineClaims.

Import PIL PhotoProcessor VesiKolayApp Inputs.





End PipelineClaims.

(* ===================================================================== *)
(** * Facts about strings                                                 *)
(* ===================================================================== *)

Section StrFacts.

Import Str.

Lemma mem_In c chars : mem c chars = true <-> In c chars.
Proof.
  induction chars as [| d rest IH]; simpl.
  - split; [discriminate | intros []].
  - rewrite orb_true_iff, IH, N.eqb_eq. split; intros [H | H]; auto.
Qed.

Lemma mem_not_In c chars : mem c chars = false <-> ~ In c chars.
Proof.
  rewrite <- mem_In. destruct (mem c chars); split; congruence.
Qed.

Lemma startswith_length p s :
  startswith p s = true -> (List.length p <= List.length s)%nat.
Proof.
  revert s. induction p as [| a p IH]; intros [| b s] H; simpl in *;
    try lia; try discriminate.
  apply andb_prop in H. destruct H as [_ H]. apply IH in H. lia.
Qed.

Lemma startswith_app p s : startswith p s = true -> exists rest, s = p ++ rest.
Proof.
  revert s. induction p as [| a p IH]; intros s H.
  - exists s. reflexivity.
  - destruct s as [| b s]; [discriminate |]. simpl in H.
    apply andb_prop in H. destruct H as [Hab H]. apply N.eqb_eq in Hab. subst b.
    destruct (IH s H) as [rest ->]. exists rest. reflexivity.
Qed.

Lemma startswith_refl_app p rest : startswith p (p ++ rest) = true.
Proof.
  induction p as [| a p IH]; simpl; [reflexivity |].
  rewrite N.eqb_refl, IH. reflexivity.
Qed.

Lemma startswith_more p s more :
  startswith p s = true -> startswith p (s ++ more) = true.
Proof.
  intros H. destruct (startswith_app p s H) as [rest ->].
  rewrite <- app_assoc. apply startswith_refl_app.
Qed.

(** [p in s] is: [s] holds [p] somewhere. *)
Lemma contains_infix p s :
  contains p s = true <-> exists pre post, s = pre ++ p ++ post.
Proof.
  split.
  - induction s as [| c rest IH]; simpl; intros H.
    + rewrite orb_false_r in H. destruct (startswith_app p [] H) as [post E].
      exists [], post. exact E.
    + apply orb_true_iff in H. destruct H as [H | H].
      * destruct (startswith_app p _ H) as [post E]. exists [], post. exact E.
      * destruct (IH H) as (pre & post & E). exists (c :: pre), post.
        rewrite E. reflexivity.
  - intros (pre & post & ->). induction pre as [| c pre IH].
    + cbn [app]. pose proof (startswith_refl_app p post) as H.
      destruct (p ++ post); cbn [contains]; rewrite H; reflexivity.
    + cbn [app contains]. rewrite IH. apply orb_true_r.
Qed.

Lemma contains_within p pre s post :
  contains p (pre ++ s ++ post) = false -> contains p s = false.
Proof.
  intros H. destruct (contains p s) eqn:E; [| reflexivity].
  apply contains_infix in E. destruct E as (a & b & ->).
  assert (Hc : contains p (pre ++ (a ++ p ++ b) ++ post) = true).
  { apply contains_infix. exists (pre ++ a), (b ++ post).
    rewrite <- !app_assoc. reflexivity. }
  congruence.
Qed.

(** ** [replace] *)

Lemma replace_single c new s :
  replace [c] new s = flat_map (fun x => if (x =? c)%N then new else [x]) s.
Proof.
  unfold replace. induction s as [| x rest IH]; [reflexivity |].
  cbn [replace_from startswith flat_map List.length Nat.sub].
  rewrite N.eqb_sym. destruct (x =? c)%N; cbn [andb].
  - rewrite IH. destruct rest; reflexivity.
  - rewrite IH. destruct rest; reflexivity.
Qed.

Lemma replace_single_In c new s x :
  In x (replace [c] new s) -> In x new \/ (In x s /\ x <> c).
Proof.
  rewrite replace_single. induction s as [| y rest IH]; simpl; [intros [] |].
  intros H. apply in_app_or in H. destruct H as [H | H].
  - destruct (y =? c)%N eqn:E.
    + left. exact H.
    + destruct H as [<- | []]. apply N.eqb_neq in E. right. auto.
  - destruct (IH H) as [H' | [H' Hn]]; auto.
Qed.

Lemma replace_single_absent c new s : ~ In c s -> replace [c] new s = s.
Proof.
  rewrite replace_single. induction s as [| y rest IH]; simpl; [reflexivity |].
  intros H. destruct (y =? c)%N eqn:E.
  - apply N.eqb_eq in E. subst. tauto.
  - simpl. f_equal. apply IH. tauto.
Qed.

Lemma replace_from_In skip old new s x :
  In x (replace_from skip old new s) -> In x new \/ In x s.
Proof.
  revert skip. induction s as [| c rest IH]; intros skip; cbn [replace_from];
    [intros [] |].
  destruct skip as [| k].
  - destruct (startswith old (c :: rest)).
    + intros H. apply in_app_or in H. destruct H as [H | H]; [left; exact H |].
      destruct (IH _ H); [left | right; right]; assumption.
    + intros [<- | H]; [right; left; reflexivity |].
      destruct (IH _ H); [left | right; right]; assumption.
  - intros H. destruct (IH _ H); [left | right; right]; assumption.
Qed.

Lemma replace_from_absent old new s :
  contains old s = false -> replace_from 0 old new s = s.
Proof.
  induction s as [| c rest IH]; [reflexivity |].
  cbn [contains replace_from]. intros H. apply orb_false_iff in H.
  destruct H as [H1 H2]. rewrite H1, (IH H2). reflexivity.
Qed.

(** ** The loop that removes doubled separators *)

Lemma dedupe_done sep s :
  is_empty sep = false ->
  contains (sep ++ sep) (dedupe sep s) = false /\
  (forall x, In x (dedupe sep s) -> In x s).
Proof.
  intros Hne.
  apply (dedupe_elim (fun sep s r =>
           is_empty sep = false ->
           contains (sep ++ sep) r = false /\ (forall x, In x r -> In x s)));
    [| | exact Hne]; clear.
  - intros sep s Hc IH _ Hne. destruct (IH Hne) as [H1 H2]. split; [exact H1 |].
    intros x Hx. specialize (H2 x Hx). unfold replace in H2.
    apply replace_from_In in H2. destruct H2 as [H2 | H2]; [| exact H2].
    apply andb_prop in Hc. destruct Hc as [_ Hc].
    apply contains_infix in Hc. destruct Hc as (pre & post & ->).
    apply in_or_app. right. apply in_or_app. left. apply in_or_app. left. exact H2.
  - intros sep s Hc _ Hne. rewrite Hne in Hc. cbn [negb andb] in Hc.
    split; [exact Hc | auto].
Qed.

Lemma dedupe_fixed sep s : contains (sep ++ sep) s = false -> dedupe sep s = s.
Proof.
  apply (dedupe_elim (fun sep s r => contains (sep ++ sep) s = false -> r = s)); clear.
  - intros sep s Hc _ _ H. rewrite H, andb_false_r in Hc. discriminate.
  - reflexivity.
Qed.

End StrFacts.
Section StripFacts.

Import Str.

Lemma lstrip_split chars s :
  exists pre, s = pre ++ lstrip chars s /\ (forall x, In x pre -> In x chars).
Proof.
  induction s as [| c rest IH]; [exists []; simpl; split; [reflexivity | intros x []] |].
  cbn [lstrip]. destruct (mem c chars) eqn:E.
  - destruct IH as (pre & Hs & Hp). exists (c :: pre). split.
    + cbn [app]. rewrite <- Hs. reflexivity.
    + intros x [<- | H]; [apply mem_In; exact E | auto].
  - exists []. split; [reflexivity | intros x []].
Qed.

Lemma lstrip_head chars s c rest :
  lstrip chars s = c :: rest -> ~ In c chars.
Proof.
  induction s as [| d s IH]; cbn [lstrip]; [discriminate |].
  destruct (mem d chars) eqn:E; [exact IH |].
  intros H. inversion H. subst. apply mem_not_In. exact E.
Qed.

Lemma lstrip_fixed chars s :
  (forall c rest, s = c :: rest -> ~ In c chars) -> lstrip chars s = s.
Proof.
  destruct s as [| c rest]; [reflexivity |]. intros H. cbn [lstrip].
  specialize (H c rest eq_refl). apply mem_not_In in H. rewrite H. reflexivity.
Qed.

(** What [strip] leaves: a part of [s] that neither starts nor ends with
    a character of [chars]. *)
Lemma strip_spec chars s :
  exists pre post,
    s = pre ++ strip chars s ++ post /\
    (forall c rest, strip chars s = c :: rest -> ~ In c chars) /\
    (forall c rest, rev (strip chars s) = c :: rest -> ~ In c chars).
Proof.
  unfold strip, rstrip.
  destruct (lstrip_split chars s) as (pre & Hs & _).
  set (m := lstrip chars s) in *.
  destruct (lstrip_split chars (rev m)) as (post & Hm & _).
  set (r := lstrip chars (rev m)) in *.
  exists pre, (rev post). split; [| split].
  - rewrite Hs at 1. f_equal. rewrite <- rev_app_distr, <- Hm, rev_involutive.
    reflexivity.
  - intros c rest E.
    (* the first character of [rev r] is the first of [m], unless [r] is
       shorter; in both cases it is not in [chars] *)
    destruct m as [| c0 m'] eqn:Em.
    + cbn in Hm. subst r. cbn in E. discriminate.
    + assert (Hc0 : ~ In c0 chars) by (apply (lstrip_head chars s c0 m'); exact Em).
      assert (Hrev : rev (c0 :: m') = post ++ r) by exact Hm.
      apply (f_equal (@rev N)) in Hrev. rewrite rev_involutive, rev_app_distr in Hrev.
      rewrite E in Hrev. cbn [app] in Hrev. inversion Hrev. subst. exact Hc0.
  - intros c rest E. rewrite rev_involutive in E.
    exact (lstrip_head chars (rev m) c rest E).
Qed.

Lemma strip_fixed chars s :
  (forall c rest, s = c :: rest -> ~ In c chars) ->
  (forall c rest, rev s = c :: rest -> ~ In c chars) ->
  strip chars s = s.
Proof.
  intros H1 H2. unfold strip, rstrip.
  rewrite (lstrip_fixed chars s H1), (lstrip_fixed chars (rev s) H2).
  apply rev_involutive.
Qed.

End StripFacts.

Section SplitFacts.

Import Str.

Lemma split_from_words word s :
  (forall x, In x word -> isspace x = false) ->
  Forall nospace_word (split_from word s).
Proof.
  revert word. induction s as [| c rest IH]; intros word Hw; cbn [split_from].
  - destruct word as [| a word]; cbn [is_empty]; constructor; [| constructor].
    split.
    + intros E. apply (f_equal (@rev N)) in E. rewrite rev_involutive in E.
      discriminate.
    + intros x Hx. apply in_rev in Hx. auto.
  - destruct (isspace c) eqn:Ec.
    + destruct word as [| a word]; cbn [is_empty].
      * apply IH. intros x [].
      * constructor; [| apply IH; intros x []].
        split.
        -- intros E. apply (f_equal (@rev N)) in E. rewrite rev_involutive in E.
           discriminate.
        -- intros x Hx. apply in_rev in Hx. auto.
    + apply IH. intros x [<- | Hx]; auto.
Qed.

Lemma split_from_In word s w x :
  In w (split_from word s) -> In x w -> In x word \/ In x s.
Proof.
  revert word. induction s as [| c rest IH]; intros word; cbn [split_from].
  - destruct word as [| a word]; cbn [is_empty]; [intros [] |].
    intros [<- | []] Hx. left. apply in_rev. exact Hx.
  - destruct (isspace c).
    + destruct word as [| a word]; cbn [is_empty].
      * intros Hw Hx. destruct (IH [] Hw Hx) as [[] | H]. right. right. exact H.
      * intros [<- | Hw] Hx.
        -- left. apply in_rev. exact Hx.
        -- destruct (IH [] Hw Hx) as [[] | H]. right. right. exact H.
    + intros Hw Hx. destruct (IH (c :: word) Hw Hx) as [[<- | H] | H].
      * right. left. reflexivity.
      * left. exact H.
      * right. right. exact H.
Qed.

Lemma join_In sep ws x :
  In x (join sep ws) -> In x sep \/ exists w, In w ws /\ In x w.
Proof.
  induction ws as [| p rest IH]; cbn [join]; [intros [] |].
  destruct rest as [| q rest].
  - intros H. right. exists p. split; [left; reflexivity | exact H].
  - intros H. apply in_app_or in H. destruct H as [H | H].
    + right. exists p. split; [left; reflexivity | exact H].
    + apply in_app_or in H. destruct H as [H | H]; [left; exact H |].
      destruct (IH H) as [H' | (w & Hw & Hx)]; [left; exact H' |].
      right. exists w. split; [right; exact Hw | exact Hx].
Qed.

Lemma split_from_word word w rest :
  (forall x, In x w -> isspace x = false) ->
  split_from word (w ++ rest) = split_from (rev w ++ word) rest.
Proof.
  revert word. induction w as [| c w IH]; intros word Hw; [reflexivity |].
  cbn [app split_from]. rewrite (Hw c (or_introl eq_refl)).
  rewrite IH by (intros x Hx; apply Hw; right; exact Hx).
  cbn [rev]. rewrite <- app_assoc. reflexivity.
Qed.

(** Splitting what was joined with single spaces gives the words back. *)
Lemma split_join ws :
  Forall nospace_word ws -> split (join (of_ascii " ") ws) = ws.
Proof.
  unfold split. induction ws as [| p rest IH]; intros Hws; [reflexivity |].
  inversion Hws as [| p' rest' [Hne Hp] Hrest]. subst.
  cbn [join]. destruct rest as [| q rest].
  - rewrite <- (app_nil_r p) at 1. rewrite (split_from_word [] p [] Hp).
    rewrite app_nil_r. cbn [split_from].
    destruct (rev p) eqn:E.
    + apply (f_equal (@rev N)) in E. rewrite rev_involutive in E. contradiction.
    + cbn [is_empty]. rewrite <- E, rev_involutive. reflexivity.
  - rewrite (split_from_word [] p _ Hp). rewrite app_nil_r.
    change (of_ascii " " ++ join (of_ascii " ") (q :: rest))
      with (32%N :: join (of_ascii " ") (q :: rest)).
    cbn [split_from]. change (isspace 32) with true. cbv iota.
    destruct (rev p) eqn:E.
    + apply (f_equal (@rev N)) in E. rewrite rev_involutive in E. contradiction.
    + cbn [is_empty]. rewrite <- E, rev_involutive. rewrite (IH Hrest). reflexivity.
Qed.

End SplitFacts.

(* ===================================================================== *)
(** * [clean_filename]                                                    *)
(* ===================================================================== *)

Section CleanFilename.

Import Str VesiKolayApp.

(** Replacing each character of [chars] in turn by a text without any of
    them leaves none of them. *)
Lemma fold_replace_absent new chars done s :
  (forall c, In c done -> ~ In c s) ->
  (forall c, In c (done ++ chars) -> ~ In c new) ->
  forall c, In c (done ++ chars) ->
    ~ In c (fold_left (fun acc char => replace [char] new acc) chars s).
Proof.
  revert done s. induction chars as [| d chars IH]; intros done s Hdone Hnew c Hc.
  - rewrite app_nil_r in Hc. cbn [fold_left]. auto.
  - cbn [fold_left].
    apply (IH (done ++ [d]) (replace [d] new s)).
    + intros x Hx Hin. apply replace_single_In in Hin.
      destruct Hin as [Hin | [Hin Hne]].
      * apply (Hnew x); [| exact Hin].
        apply in_app_or in Hx. apply in_or_app.
        destruct Hx as [Hx | [<- | []]]; [left; exact Hx | right; left; reflexivity].
      * apply in_app_or in Hx. destruct Hx as [Hx | [<- | []]].
        -- exact (Hdone x Hx Hin).
        -- congruence.
    + intros x Hx. apply Hnew. rewrite <- app_assoc in Hx. exact Hx.
    + rewrite <- app_assoc. exact Hc.
Qed.

Lemma fold_replace_In new chars s x :
  In x (fold_left (fun acc char => replace [char] new acc) chars s) ->
  In x new \/ In x s.
Proof.
  revert s. induction chars as [| d chars IH]; intros s; cbn [fold_left]; [auto |].
  intros H. destruct (IH _ H) as [H' | H']; [left; exact H' |].
  apply replace_single_In in H'. tauto.
Qed.

Lemma fold_replace_fixed new chars s :
  (forall c, In c chars -> ~ In c s) ->
  fold_left (fun acc char => replace [char] new acc) chars s = s.
Proof.
  induction chars as [| d chars IH]; intros H; cbn [fold_left]; [reflexivity |].
  rewrite (replace_single_absent d new s) by (apply H; left; reflexivity).
  apply IH. intros c Hc. apply H. right. exact Hc.
Qed.

Lemma unnamed_clean b : clean_name b (of_ascii "unnamed").
Proof.
  assert (Hin : forall c, In c invalid_chars -> ~ In c (of_ascii "unnamed")).
  { assert (H : forallb (fun x => negb (mem x invalid_chars)) (of_ascii "unnamed") = true)
      by (vm_compute; reflexivity).
    rewrite forallb_forall in H. intros c Hc Hu. specialize (H c Hu).
    apply mem_In in Hc. rewrite Hc in H. discriminate. }
  split; [discriminate |]. split; [exact Hin |].
  destruct b.
  - vm_compute. reflexivity.
  - split; [intros H; apply mem_In in H; vm_compute in H; discriminate |].
    split; [vm_compute; reflexivity |].
    split.
    + intros c rest E. vm_compute in E. inversion E. discriminate.
    + intros c rest E. vm_compute in E. inversion E. discriminate.
Qed.

Lemma invalid_not_underscore : ~ In 95%N invalid_chars.
Proof. intros H. apply mem_In in H. vm_compute in H. discriminate. Qed.

Lemma invalid_not_space : ~ In 32%N invalid_chars.
Proof. intros H. apply mem_In in H. vm_compute in H. discriminate. Qed.

Lemma clean_filename_clean s b : clean_name b (clean_filename s b).
Proof.
  unfold clean_filename.
  set (s1 := fold_left (fun filename char => replace [char] (of_ascii "_") filename)
               invalid_chars s).
  assert (H1 : forall c, In c invalid_chars -> ~ In c s1).
  { intros c Hc. apply (fold_replace_absent (of_ascii "_") invalid_chars [] s).
    - intros x [].
    - cbn [app]. intros x Hx [<- | []]. exact (invalid_not_underscore Hx).
    - exact Hc. }
  destruct b; cbn [negb]; cbv zeta.
  - (* spaces preserved *)
    pose proof (split_from_words [] s1 ltac:(intros x [])) as Hws.
    fold (split s1) in Hws.
    destruct (is_empty (join (of_ascii " ") (split s1))) eqn:Ee;
      [apply unnamed_clean |].
    split; [intros E; rewrite E in Ee; discriminate |].
    split.
    + intros c Hc Hin. apply join_In in Hin.
      destruct Hin as [[<- | []] | (w & Hw & Hx)].
      * exact (invalid_not_space Hc).
      * destruct (split_from_In [] s1 w c Hw Hx) as [[] | Hs]. exact (H1 c Hc Hs).
    + rewrite (split_join _ Hws). reflexivity.
  - (* spaces become underscores *)
    set (s2 := replace (of_ascii " ") (of_ascii "_") s1).
    assert (H2 : forall x, In x s2 -> x = 95%N \/ (In x s1 /\ x <> 32%N)).
    { intros x Hx. apply (replace_single_In 32%N (of_ascii "_") s1) in Hx.
      destruct Hx as [[<- | []] | Hx]; auto. }
    destruct (dedupe_done (of_ascii "_") s2 eq_refl) as [H3 H3'].
    set (s3 := dedupe (of_ascii "_") s2) in *.
    destruct (strip_spec (of_ascii "_") s3) as (pre & post & Hs & Hhd & Hlast).
    set (s4 := strip (of_ascii "_") s3) in *.
    destruct (is_empty s4) eqn:Ee; [apply unnamed_clean |].
    assert (H4 : forall x, In x s4 -> In x s2).
    { intros x Hx. apply H3'. rewrite Hs. apply in_or_app. right.
      apply in_or_app. left. exact Hx. }
    split; [intros E; rewrite E in Ee; discriminate |].
    split.
    { intros c Hc Hin. destruct (H2 c (H4 c Hin)) as [-> | [Hin1 _]].
      - exact (invalid_not_underscore Hc).
      - exact (H1 c Hc Hin1). }
    split.
    { intros Hin. destruct (H2 _ (H4 _ Hin)) as [E | [_ E]]; [discriminate | congruence]. }
    split.
    { apply (contains_within _ pre s4 post). rewrite <- Hs. exact H3. }
    split.
    { intros c rest E -> . apply (Hhd _ _ E). left. reflexivity. }
    { intros c rest E -> . apply (Hlast _ _ E). left. reflexivity. }
Qed.

Lemma clean_name_fixed b r : clean_name b r -> clean_filename r b = r.
Proof.
  intros (Hne & Hinv & Hshape). unfold clean_filename.
  rewrite (fold_replace_fixed (of_ascii "_") invalid_chars r Hinv).
  destruct b; cbn [negb]; cbv zeta.
  - rewrite <- Hshape. destruct r; [congruence | reflexivity].
  - destruct Hshape as (Hsp & Hdd & Hhd & Hlast).
    change (of_ascii " ") with [32%N].
    rewrite (replace_single_absent 32%N (of_ascii "_") r Hsp).
    rewrite (dedupe_fixed (of_ascii "_") r Hdd).
    rewrite strip_fixed.
    + destruct r; [congruence | reflexivity].
    + intros c rest E [<- | []]. exact (Hhd _ _ E eq_refl).
    + intros c rest E [<- | []]. exact (Hlast _ _ E eq_refl).
Qed.

End CleanFilename.

Section CleanFilenameClaims.

Import Str VesiKolayApp.

(** Whatever the text and the mode, [clean_filename] returns a name that
    is not empty and holds none of the invalid characters.  Without
    [preserve_spaces] the name has no space, no doubled underscore and no
    underscore at either end; with it, the words of the name are separated
    by single spaces, with no other whitespace. *)
Theorem clean_filename_safe (filename : str) (preserve_spaces : bool) :
  clean_filename filename preserve_spaces <> [] /\
  (forall c, In c invalid_chars -> ~ In c (clean_filename filename preserve_spaces)) /\
  (preserve_spaces = false ->
     ~ In 32%N (clean_filename filename false) /\
     contains (of_ascii "__") (clean_filename filename false) = false /\
     startswith (of_ascii "_") (clean_filename filename false) = false /\
     startswith (of_ascii "_") (rev (clean_filename filename false)) = false) /\
  (preserve_spaces = true ->
     clean_filename filename true
     = join (of_ascii " ") (split (clean_filename filename true))).
Proof.
  pose proof (clean_filename_clean filename preserve_spaces) as (Hne & Hinv & Hshape).
  split; [exact Hne |]. split; [exact Hinv |]. split.
  - intros ->. destruct Hshape as (Hsp & Hdd & Hhd & Hlast).
    split; [exact Hsp |]. split; [exact Hdd |]. split.
    + destruct (clean_filename filename false) as [| c rest] eqn:E; [reflexivity |].
      change (startswith (of_ascii "_") (c :: rest)) with ((95 =? c)%N && true).
      specialize (Hhd c rest eq_refl).
      destruct (N.eqb_spec 95 c) as [Hc | Hc]; [congruence | reflexivity].
    + destruct (rev (clean_filename filename false)) as [| c rest] eqn:E;
        [reflexivity |].
      change (startswith (of_ascii "_") (c :: rest)) with ((95 =? c)%N && true).
      specialize (Hlast c rest eq_refl).
      destruct (N.eqb_spec 95 c) as [Hc | Hc]; [congruence | reflexivity].
  - intros ->. exact Hshape.
Qed.

(** Cleaning a cleaned name changes nothing. *)
Theorem clean_filename_idempotent (filename : str) (preserve_spaces : bool) :
  clean_filename (clean_filename filename preserve_spaces) preserve_spaces
  = clean_filename filename preserve_spaces.
Proof.
  apply clean_name_fixed. apply clean_filename_clean.
Qed.

(** "9/A  sinifi: <liste>" in the two modes, and a name of invalid
    characters only. *)
Example clean_filename_examples :
  clean_filename (of_ascii "9/A  sinifi: <liste>") false = of_ascii "9_A_sinifi_liste" /\
  clean_filename (of_ascii "9/A  sinifi: <liste>") true = of_ascii "9_A sinifi_ _liste_" /\
  clean_filename (of_ascii "?? **") false = of_ascii "unnamed".
Proof. vm_compute. repeat split. Qed.

End CleanFilenameClaims.

Section StrScenarios.

Import Str.

(** [replace] takes the occurrences from the left, without overlap;
    [split] cuts at every run of whitespace; [strip] takes a set of
    characters. *)
Example replace_examples :
  replace (of_ascii "__") (of_ascii "_") (of_ascii "a___b_____c") = of_ascii "a__b___c" /\
  replace (of_ascii "aa") (of_ascii "b") (of_ascii "aaa") = of_ascii "ba" /\
  dedupe (of_ascii "_") (of_ascii "a___b_____c") = of_ascii "a_b_c" /\
  split (of_ascii "  ali   veli ") = [of_ascii "ali"; of_ascii "veli"] /\
  strip (of_ascii "_-") (of_ascii "-_a_b_-") = of_ascii "a_b".
Proof. vm_compute. repeat split. Qed.

End StrScenarios.

(* ===================================================================== *)
(** * The fitting variant and the logo watermark                          *)
(* ===================================================================== *)

Section Variants.

Import PIL PhotoProcessor Inputs.

(** [crop_image_with_white_background] saves an image of exactly the
    resolved target size, whatever Pillow's thumbnail returns, always as
    JPEG at quality 90 and always tagged 400 DPI: the dpi and min_dpi of
    the spec and the suffix of the output path play no part. *)
Theorem white_background_variant_tags (K : filters)
    (thumbnail : Image -> Z -> Z -> result Image) (c : call)
    (dimensions : CropDimensions.t) (x y width height : option Z)
    (white_background : bool) (art : Artifact) :
  crop_image_with_white_background K thumbnail c dimensions x y width height
    white_background = (true, Some art) ->
  exists tw th,
    to_pixels dimensions = Ok (Int tw, Int th) /\
    size (art_image art) = (tw, th) /\
    art_format art = JPEG /\ art_quality art = Some 90 /\
    art_dpi art = (400, 400).
Proof.
  intros H. apply returns_ok in H.
  bind_inv H tp Et. destruct tp as [target_width target_height].
  bind_inv H img Eimg. cbv zeta in H.
  destruct (size img) as [orig_width orig_height].
  bind_inv H r Er. destruct r as [[[x' y'] w'] h'].
  bind_inv H cropped Ecrop. bind_inv H final_img Efinal. bind_inv H u Eu.
  inversion H. subst art. cbn [art_image art_format art_quality art_dpi].
  rewrite enhance_size.
  destruct white_background.
  - bind_inv Efinal tw Etw. bind_inv Efinal th Eth.
    bind_inv Efinal white_bg Ebg. bind_inv Efinal thumb Eth'.
    inversion Efinal. subst final_img.
    apply as_int_ok in Etw, Eth. subst.
    exists tw, th. split; [exact Et |].
    split; [rewrite paste_size; exact (new_size _ _ _ _ Ebg) |].
    repeat split.
  - bind_inv Efinal tw Etw. bind_inv Efinal th Eth.
    apply as_int_ok in Etw, Eth. subst.
    exists tw, th. split; [exact Et |].
    split; [exact (resize_size _ _ _ _ _ Efinal) |].
    repeat split.
Qed.

Lemma white_background_variant_tags_witness :
  dpi e_okul = 300 /\
  exists art tw th,
    crop_image_with_white_background nearest (fun im w h => Ok im)
      (readable portrait) e_okul None None None None true = (true, Some art) /\
    to_pixels e_okul = Ok (Int tw, Int th) /\
    size (art_image art) = (tw, th) /\
    art_format art = JPEG /\ art_quality art = Some 90 /\
    art_dpi art = (400, 400).
Proof.
  split; [reflexivity |].
  destruct (returns_true _ (eq_refl :
    fst (crop_image_with_white_background nearest (fun im w h => Ok im)
           (readable portrait) e_okul None None None None true) = true))
    as [art Hart].
  destruct (white_background_variant_tags nearest (fun im w h => Ok im)
              (readable portrait) e_okul None None None None true art Hart)
    as (tw & th & H).
  exists art, tw, th. split; [exact Hart | exact H].
Defined.

Lemma watermark_position_inside position bw bh ww wh :
  0 <= ww -> 0 <= wh -> ww + 10 <= bw -> wh + 10 <= bh ->
  0 <= fst (watermark_position position bw bh ww wh) /\
  0 <= snd (watermark_position position bw bh ww wh) /\
  fst (watermark_position position bw bh ww wh) + ww <= bw /\
  snd (watermark_position position bw bh ww wh) + wh <= bh.
Proof.
  intros Hw Hh Hbw Hbh. unfold watermark_position. cbv zeta.
  repeat (match goal with |- context [if ?b then _ else _] => destruct b end);
    cbn [fst snd]; repeat split; try lia;
    Z.div_mod_to_equations; lia.
Qed.

(** [add_watermark] changes no pixel outside the box of the resized
    watermark and keeps the image's size.  The box is placed 10 pixels
    from the named corner, or centred; a name that is none of the five
    means bottom_right; and when the watermark with its margin fits in the
    image the box lies within the image. *)
Theorem add_watermark_box (K : filters) (blend : Image -> Z -> Z -> rgb -> rgb)
    (base_opened watermark_opened : result Image) (save : result Datatypes.unit)
    (watermark_size : Z * Z) (position : string) (out : Image) :
  add_watermark K blend base_opened watermark_opened save watermark_size position
  = (true, Some out) ->
  exists base wm x y,
    base_opened = Ok base /\
    size wm = watermark_size /\
    (x, y) = watermark_position position (width base) (height base)
               (fst watermark_size) (snd watermark_size) /\
    size out = size base /\
    (forall i j, covers wm x y i j = false -> getpixel out i j = getpixel base i j) /\
    (position <> "bottom_left"%string -> position <> "top_right"%string ->
     position <> "top_left"%string -> position <> "center"%string ->
     (x, y) = (width base - fst watermark_size - 10,
               height base - snd watermark_size - 10)) /\
    (0 <= fst watermark_size -> 0 <= snd watermark_size ->
     fst watermark_size + 10 <= width base ->
     snd watermark_size + 10 <= height base ->
     0 <= x /\ 0 <= y /\
     x + fst watermark_size <= width base /\ y + snd watermark_size <= height base).
Proof.
  unfold add_watermark. intros H.
  destruct base_opened as [base | e]; cbn [bind] in H; [| discriminate].
  destruct watermark_opened as [wimg | e]; cbn [bind] in H; [| discriminate].
  destruct (resize K wimg (fst watermark_size) (snd watermark_size)) as [wm | e] eqn:Er;
    cbn [bind] in H; [| discriminate].
  pose proof (resize_size _ _ _ _ _ Er) as Hwm.
  unfold size in H at 1. cbv iota in H.
  rewrite Hwm in H. cbv iota in H. cbv zeta in H.
  destruct save as [u | e]; cbn [bind] in H; [| discriminate].
  inversion H as [Hout]. clear H.
  set (pos := watermark_position position (width base) (height base)
                (fst watermark_size) (snd watermark_size)) in *.
  exists base, wm, (fst pos), (snd pos).
  split; [reflexivity |].
  split; [destruct watermark_size; exact Hwm |].
  split; [symmetry; apply surjective_pairing |].
  subst out.
  split; [reflexivity |].
  split.
  { intros i j Hc. cbn [paste_masked getpixel]. rewrite Hc. reflexivity. }
  split.
  { intros H1 H2 H3 H4. unfold pos, watermark_position. cbv zeta.
    apply String.eqb_neq in H1, H2, H3, H4. rewrite H1, H2, H3, H4.
    destruct (position =? "bottom_right")%string; reflexivity. }
  intros Hw Hh Hbw Hbh.
  exact (watermark_position_inside position _ _ _ _ Hw Hh Hbw Hbh).
Qed.

Lemma add_watermark_box_witness :
  exists out base wm x y,
    add_watermark nearest (fun im i j under => getpixel im i j)
      (Ok portrait) (Ok wide_black) (Ok tt) (50, 50) "somewhere"
    = (true, Some out) /\
    Ok portrait = Ok base /\
    size wm = (50, 50) /\
    (x, y) = (1140, 1540) /\
    size out = size base /\
    (forall i j, covers wm x y i j = false -> getpixel out i j = getpixel base i j).
Proof.
  assert (E : exists out,
    add_watermark nearest (fun im i j under => getpixel im i j)
      (Ok portrait) (Ok wide_black) (Ok tt) (50, 50) "somewhere" = (true, Some out))
    by (eexists; reflexivity).
  destruct E as [out Hout].
  destruct (add_watermark_box nearest (fun im i j under => getpixel im i j)
              (Ok portrait) (Ok wide_black) (Ok tt) (50, 50) "somewhere" out Hout)
    as (base & wm & x & y & Hb & Hs & Hp & Hsz & Hpix & Hdef & _).
  exists out, base, wm, x, y.
  split; [exact Hout |]. split; [exact Hb |]. split; [exact Hs |].
  split; [| split; [exact Hsz | exact Hpix]].
  inversion Hb. subst base.
  rewrite (Hdef ltac:(discriminate) ltac:(discriminate) ltac:(discriminate)
                ltac:(discriminate)).
  reflexivity.
Defined.

End Variants.

(* ===================================================================== *)
(** * Dicts, and matching photos to people                                *)
(* ===================================================================== *)

Section DictFacts.

Import Str Dict.

Lemma str_eqb_eq s u : Str.eqb s u = true <-> s = u.
Proof.
  revert u. induction s as [| a s IH]; intros [| b u]; simpl;
    try (split; [discriminate | congruence]); [tauto |].
  rewrite andb_true_iff, N.eqb_eq, IH. split.
  - intros [-> ->]. reflexivity.
  - intros H. inversion H. auto.
Qed.

Lemma str_eqb_refl s : Str.eqb s s = true.
Proof. apply str_eqb_eq. reflexivity. Qed.

Lemma str_eqb_neq s u : Str.eqb s u = false <-> s <> u.
Proof.
  rewrite <- str_eqb_eq. destruct (Str.eqb s u); split; congruence.
Qed.

Context {V : Type}.

Lemma lookup_insert (k k' : str) (v : V) (d : dict V) :
  lookup k' (insert k v d) = if Str.eqb k k' then Some v else lookup k' d.
Proof.
  induction d as [| [k0 v0] rest IH]; cbn [insert lookup].
  - reflexivity.
  - destruct (Str.eqb k0 k) eqn:E0.
    + apply str_eqb_eq in E0. subst k0. cbn [lookup].
      destruct (Str.eqb k k'); reflexivity.
    + cbn [lookup]. rewrite IH.
      destruct (Str.eqb k0 k') eqn:E1; [| reflexivity].
      apply str_eqb_eq in E1. subst k0. apply str_eqb_neq in E0.
      assert (E : Str.eqb k k' = false) by (apply str_eqb_neq; congruence).
      rewrite E. reflexivity.
Qed.

Lemma lookup_In (k : str) (d : dict V) (v : V) :
  lookup k d = Some v -> In (k, v) d.
Proof.
  induction d as [| [k0 v0] rest IH]; cbn [lookup]; [discriminate |].
  destruct (Str.eqb k0 k) eqn:E.
  - apply str_eqb_eq in E. subst. intros H. inversion H. left. reflexivity.
  - intros H. right. exact (IH H).
Qed.

End DictFacts.

Section SequentialFacts.

Import Str Dict PhotoProcessor.

Context {Path : Type}.

Lemma sequential_spec i (photos : list Path) people m0 m :
  sequential i photos people m0 = Some m ->
  (forall n p k,
      nth_error people n = Some p -> _get_person_key p = Some k ->
      (forall j q, (n < j)%nat -> nth_error people j = Some q ->
                   _get_person_key q <> Some k) ->
      lookup k m = Some (nth_error photos (i + n))) /\
  (forall k, (forall p, In p people -> _get_person_key p <> Some k) ->
             lookup k m = lookup k m0).
Proof.
  revert i m0. induction people as [| p0 rest IH]; intros i m0 H.
  - cbn in H. inversion H. subst m. split.
    + intros [| n] p k Hn; discriminate Hn.
    + reflexivity.
  - cbn [sequential] in H. destruct (_get_person_key p0) as [k0 |] eqn:Ek0;
      [| discriminate].
    destruct (IH _ _ H) as [IH1 IH2]. split.
    + intros [| n] p k Hn Hk Hlater.
      * cbn in Hn. inversion Hn. subst p.
        rewrite Ek0 in Hk. inversion Hk. subst k0.
        rewrite IH2.
        -- rewrite lookup_insert, str_eqb_refl, Nat.add_0_r. reflexivity.
        -- intros q Hq. apply In_nth_error in Hq. destruct Hq as [j Hj].
           apply (Hlater (S j) q); [lia | exact Hj].
      * cbn in Hn. replace (i + S n)%nat with (S i + n)%nat by lia.
        apply (IH1 n p k Hn Hk).
        intros j q Hj Hq. apply (Hlater (S j) q); [lia | exact Hq].
    + intros k Hk. rewrite IH2 by (intros p Hp; apply Hk; right; exact Hp).
      rewrite lookup_insert.
      destruct (Str.eqb k0 k) eqn:E; [| reflexivity].
      apply str_eqb_eq in E. subst k0. exfalso.
      exact (Hk p0 (or_introl eq_refl) Ek0).
Qed.

Lemma sequential_defined i (photos : list Path) people m0 :
  (forall p, In p people -> _get_person_key p <> None) ->
  exists m, sequential i photos people m0 = Some m.
Proof.
  revert i m0. induction people as [| p0 rest IH]; intros i m0 H.
  - exists m0. reflexivity.
  - cbn [sequential]. destruct (_get_person_key p0) as [k0 |] eqn:Ek0.
    + apply IH. intros p Hp. apply H. right. exact Hp.
    + exfalso. exact (H p0 (or_introl eq_refl) Ek0).
Qed.

End SequentialFacts.

Section SequentialClaims.

Import Str Dict PhotoProcessor.

(** Sequential matching, for people who all have a first and a last
    name: the person at position [n] gets the photo at position [n], or
    None when the photos have run out - unless a later person has the
    same key, who then takes the entry; and the table has no other
    keys. *)
Theorem sequential_matching {Path : Type}
    (path_eqb : Path -> Path -> bool) (stem : Path -> str) (lower : str -> str)
    (photos : list Path) (people : list person) :
  (forall p, In p people -> _get_person_key p <> None) ->
  exists matches,
    match_photos_to_people path_eqb stem lower photos people "sequential"
    = Some matches /\
    (forall n p k,
        nth_error people n = Some p -> _get_person_key p = Some k ->
        (forall j q, (n < j)%nat -> nth_error people j = Some q ->
                     _get_person_key q <> Some k) ->
        lookup k matches = Some (nth_error photos n)) /\
    (forall k, (forall p, In p people -> _get_person_key p <> Some k) ->
               lookup k matches = None).
Proof.
  intros Hkeys. unfold match_photos_to_people. cbn [String.eqb Ascii.eqb Bool.eqb].
  destruct (sequential_defined 0 photos people [] Hkeys) as [m Hm].
  exists m. split; [exact Hm |].
  destruct (sequential_spec 0 photos people [] m Hm) as [H1 H2].
  split; [exact H1 | exact H2].
Qed.

End SequentialClaims.

Section SequentialWitness.

Import Str Dict PhotoProcessor Inputs.

Lemma sequential_matching_witness :
  exists matches,
    match_photos_to_people Str.eqb stem_of ascii_lower
      [of_ascii "1.jpg"; of_ascii "2.jpg"] [ali; veli; ali] "sequential"
    = Some matches /\
    lookup (of_ascii "Veli_Demir") matches = Some (Some (of_ascii "2.jpg")) /\
    lookup (of_ascii "101_Ali_Kaya") matches = Some None.
Proof.
  destruct (sequential_matching Str.eqb stem_of ascii_lower
              [of_ascii "1.jpg"; of_ascii "2.jpg"] [ali; veli; ali])
    as (m & Hm & H1 & _).
  - intros p [<- | [<- | [<- | []]]]; vm_compute; discriminate.
  - exists m. split; [exact Hm |]. split.
    + apply (H1 1%nat veli); [reflexivity | reflexivity |].
      intros [| [| [| j]]] q Hj Hq; try lia.
      * cbn in Hq. inversion Hq. subst q. vm_compute. discriminate.
      * destruct j; discriminate Hq.
    + apply (H1 2%nat ali); [reflexivity | reflexivity |].
      intros [| [| [| j]]] q Hj Hq; try lia.
      destruct j; discriminate Hq.
Defined.

(** A person without a first name stops the matching ([KeyError]); a
    method that is none of the three gives the empty table. *)
Example matching_edges :
  match_photos_to_people Str.eqb stem_of ascii_lower
    [of_ascii "1.jpg"] [ali; anonymous] "sequential" = None /\
  match_photos_to_people Str.eqb stem_of ascii_lower
    [of_ascii "1.jpg"] [ali; anonymous] "by_face" = Some [].
Proof. vm_compute. split; reflexivity. Qed.

End SequentialWitness.

Section AssignedFacts.

Import Str Dict PhotoProcessor.

Context {Path : Type}.

Lemma assigned_insert_In k (v : option Path) m x :
  In x (assigned (insert k v m)) -> v = Some x \/ In x (assigned m).
Proof.
  induction m as [| [k0 v0] rest IH]; cbn [insert].
  - cbn. destruct v as [p |]; cbn; [intros [<- | []]; left; reflexivity | intros []].
  - destruct (Str.eqb k0 k).
    + unfold assigned. cbn [flat_map snd]. intros H. apply in_app_or in H.
      destruct H as [H | H].
      * destruct v as [p |]; [destruct H as [<- | []]; left; reflexivity | destruct H].
      * right. apply in_or_app. right. exact H.
    + unfold assigned. cbn [flat_map snd]. intros H. apply in_app_or in H.
      destruct H as [H | H].
      * right. apply in_or_app. left. exact H.
      * destruct (IH H) as [H' | H']; [left; exact H' |].
        right. apply in_or_app. right. exact H'.
Qed.

Lemma assigned_insert_NoDup k (v : option Path) m :
  NoDup (assigned m) ->
  (forall x, v = Some x -> ~ In x (assigned m)) ->
  NoDup (assigned (insert k v m)).
Proof.
  induction m as [| [k0 v0] rest IH]; cbn [insert]; intros Hnd Hnew.
  - unfold assigned. cbn. destruct v as [p |]; cbn;
      [constructor; [intros [] | constructor] | constructor].
  - unfold assigned in *. cbn [flat_map snd] in *.
    assert (Hrest : NoDup (flat_map
               (fun item : str * option Path =>
                  match snd item with Some p => [p] | None => [] end) rest)).
    { destruct v0; [inversion Hnd; assumption | exact Hnd]. }
    destruct (Str.eqb k0 k).
    + cbn [flat_map snd]. destruct v as [p |]; [| exact Hrest].
      cbn [app]. constructor; [| exact Hrest].
      intros Hin. apply (Hnew p eq_refl). apply in_or_app. right. exact Hin.
    + cbn [flat_map snd].
      assert (IH' := IH Hrest (fun x Hx Hin =>
                 Hnew x Hx (in_or_app _ _ _ (or_intror Hin)))).
      destruct v0 as [y |]; [| exact IH'].
      cbn [app]. constructor; [| exact IH'].
      intros Hin. apply assigned_insert_In in Hin. destruct Hin as [Hv | Hin].
      * apply (Hnew y Hv). left. reflexivity.
      * inversion Hnd. contradiction.
Qed.

Lemma assigned_lookup k m (p : Path) :
  lookup k m = Some (Some p) -> In p (assigned m).
Proof.
  intros H. apply lookup_In in H. unfold assigned.
  apply in_flat_map. exists (k, Some p). split; [exact H | left; reflexivity].
Qed.

Variable path_eqb : Path -> Path -> bool.
Hypothesis path_eqb_eq : forall a b, path_eqb a b = true <-> a = b.

Lemma not_used (photo : Path) used :
  existsb (path_eqb photo) used = false -> ~ In photo used.
Proof.
  intros H Hin.
  assert (E : existsb (path_eqb photo) used = true).
  { apply existsb_exists. exists photo. split; [exact Hin |].
    apply path_eqb_eq. reflexivity. }
  congruence.
Qed.

Variable stem : Path -> str.
Variable lower : str -> str.

Lemma first_with_number_spec used student_no photos best :
  first_with_number path_eqb stem used student_no photos = Some best ->
  In best photos /\ ~ In best used /\ contains student_no (stem best) = true.
Proof.
  induction photos as [| photo rest IH]; cbn [first_with_number]; [discriminate |].
  destruct (existsb (path_eqb photo) used) eqn:Eu.
  - intros H. destruct (IH H) as (H1 & H2 & H3). auto using in_cons.
  - destruct (contains student_no (stem photo)) eqn:Ec.
    + intros H. inversion H. subst best.
      split; [left; reflexivity |]. split; [apply not_used; exact Eu | exact Ec].
    + intros H. destruct (IH H) as (H1 & H2 & H3). auto using in_cons.
Qed.

Lemma sound_insert_none (justified : str -> Path -> Prop) k
    (matches : dict (option Path)) used :
  sound justified matches used -> sound justified (insert k None matches) used.
Proof.
  intros (Hnd & Hused & Hj). split; [| split].
  - apply assigned_insert_NoDup; [exact Hnd | discriminate].
  - intros p Hp. apply assigned_insert_In in Hp.
    destruct Hp as [Hp | Hp]; [discriminate | auto].
  - intros k' p. rewrite lookup_insert. destruct (Str.eqb k k'); [discriminate | apply Hj].
Qed.

Lemma sound_insert_some (justified : str -> Path -> Prop) k best matches used :
  sound justified matches used -> ~ In best used -> justified k best ->
  sound justified (insert k (Some best) matches) (best :: used).
Proof.
  intros (Hnd & Hused & Hj) Hfresh Hk. split; [| split].
  - apply assigned_insert_NoDup; [exact Hnd |].
    intros x Hx Hin. inversion Hx. subst x. exact (Hfresh (Hused _ Hin)).
  - intros p Hp. apply assigned_insert_In in Hp.
    destruct Hp as [Hp | Hp]; [inversion Hp; left; reflexivity | right; auto].
  - intros k' p. rewrite lookup_insert. destruct (Str.eqb k k') eqn:E; [| apply Hj].
    intros H. inversion H. subst p. apply str_eqb_eq in E. subst k'. exact Hk.
Qed.

Lemma by_student_number_sound photos all people matches used m :
  (forall p, In p people -> In p all) ->
  let justified := fun k photo =>
    In photo photos /\
    exists p student_no,
      In p all /\ _get_person_key p = Some k /\
      filled (of_ascii "student_no") (fields p) = Some student_no /\
      contains student_no (stem photo) = true in
  sound justified matches used ->
  by_student_number path_eqb stem photos people matches used = Some m ->
  exists used', sound justified m used'.
Proof.
  intros Hall justified. revert matches used Hall.
  induction people as [| p0 rest IH]; intros matches used Hall Hs H.
  - cbn in H. inversion H. subst m. exists used. exact Hs.
  - cbn [by_student_number] in H.
    assert (Hrest : forall p, In p rest -> In p all)
      by (intros p Hp; apply Hall; right; exact Hp).
    destruct (_get_person_key p0) as [k0 |] eqn:Ek; [| discriminate].
    destruct (filled (of_ascii "student_no") (fields p0)) as [no |] eqn:En.
    + destruct (first_with_number path_eqb stem used no photos) as [best |] eqn:Eb.
      * destruct (first_with_number_spec _ _ _ _ Eb) as (Hin & Hfresh & Hc).
        apply (IH _ _ Hrest) in H; [exact H |].
        apply sound_insert_some; [exact Hs | exact Hfresh |].
        split; [exact Hin |]. exists p0, no.
        split; [apply Hall; left; reflexivity |]. auto.
      * apply (IH _ _ Hrest) in H; [exact H |]. apply sound_insert_none. exact Hs.
    + apply (IH _ _ Hrest) in H; [exact H |]. apply sound_insert_none. exact Hs.
Qed.




Lemma assigned_distinct (m : dict (option Path)) k1 k2 p :
  NoDup (assigned m) ->
  lookup k1 m = Some (Some p) -> lookup k2 m = Some (Some p) -> k1 = k2.
Proof.
  induction m as [| [k0 v0] rest IH]; cbn [lookup]; [discriminate |].
  unfold assigned. cbn [flat_map snd]. fold (assigned rest). intros Hnd.
  destruct (Str.eqb k0 k1) eqn:E1; destruct (Str.eqb k0 k2) eqn:E2.
  - apply str_eqb_eq in E1, E2. congruence.
  - intros H1 H2. inversion H1. subst v0. cbn [app] in Hnd. inversion Hnd.
    exfalso. apply H3. exact (assigned_lookup _ _ _ H2).
  - intros H1 H2. inversion H2. subst v0. cbn [app] in Hnd. inversion Hnd.
    exfalso. apply H3. exact (assigned_lookup _ _ _ H1).
  - apply IH. destruct v0; [inversion Hnd; assumption | exact Hnd].
Qed.

End AssignedFacts.

Section MatchingClaims.

Import Str Dict PhotoProcessor Inputs.

(** Matching by student number never hands a photo to two keys, and
    every photo handed out is one of the photos, its name holding the
    number of a person of that key. *)
Theorem match_by_student_number_distinct {Path : Type}
    (path_eqb : Path -> Path -> bool) (stem : Path -> str)
    (photos : list Path) (people : list person) (matches : dict (option Path)) :
  (forall a b, path_eqb a b = true <-> a = b) ->
  _match_by_student_number path_eqb stem photos people = Some matches ->
  NoDup (assigned matches) /\
  (forall k1 k2 p,
      lookup k1 matches = Some (Some p) -> lookup k2 matches = Some (Some p) ->
      k1 = k2) /\
  (forall k p,
      lookup k matches = Some (Some p) ->
      In p photos /\
      exists person student_no,
        In person people /\ _get_person_key person = Some k /\
        filled (of_ascii "student_no") (fields person) = Some student_no /\
        contains student_no (stem p) = true).
Proof.
  intros Heq H. unfold _match_by_student_number in H.
  destruct (by_student_number_sound path_eqb Heq stem photos people people [] [] matches
              (fun p Hp => Hp)) as (used & Hnd & _ & Hj).
  - split; [constructor |]. split; [intros p [] | intros k p Hk; discriminate Hk].
  - exact H.
  - split; [exact Hnd |]. split; [| exact Hj].
    intros k1 k2 p. apply assigned_distinct. exact Hnd.
Qed.

Lemma match_by_student_number_distinct_witness :
  exists matches,
    _match_by_student_number Str.eqb stem_of
      [of_ascii "x101.jpg"; of_ascii "veli.jpg"; of_ascii "101b.jpg"]
      [ali; veli; mkPerson (fields ali ++ [(of_ascii "x", [])]) None] = Some matches /\
    matches = [(of_ascii "101_Ali_Kaya", Some (of_ascii "101b.jpg"));
               (of_ascii "Veli_Demir", None)] /\
    NoDup (assigned matches) /\
    (forall k p,
        lookup k matches = Some (Some p) ->
        In p [of_ascii "x101.jpg"; of_ascii "veli.jpg"; of_ascii "101b.jpg"]).
Proof.
  eexists. split; [vm_compute; reflexivity |]. split; [reflexivity |].
  destruct (match_by_student_number_distinct Str.eqb stem_of
              [of_ascii "x101.jpg"; of_ascii "veli.jpg"; of_ascii "101b.jpg"]
              [ali; veli; mkPerson (fields ali ++ [(of_ascii "x", [])]) None]
              [(of_ascii "101_Ali_Kaya", Some (of_ascii "101b.jpg"));
               (of_ascii "Veli_Demir", None)] str_eqb_eq)
    as (Hnd & _ & Hj).
  - vm_compute. reflexivity.
  - split; [exact Hnd |]. intros k p Hk. exact (proj1 (Hj k p Hk)).
Defined.



End MatchingClaims.

(* ===================================================================== *)
(** * Photos by class                                                     *)
(* ===================================================================== *)

Section ByClassFacts.

Import Str Dict PhotoProcessor.

Lemma lstrip_ws_split s :
  exists pre, s = pre ++ lstrip_ws s.
Proof.
  induction s as [| c rest IH]; [exists []; reflexivity |].
  cbn [lstrip_ws]. destruct (isspace c).
  - destruct IH as [pre Hs]. exists (c :: pre). cbn [app]. rewrite <- Hs. reflexivity.
  - exists []. reflexivity.
Qed.

Lemma lstrip_ws_head s c rest : lstrip_ws s = c :: rest -> isspace c = false.
Proof.
  induction s as [| d s IH]; cbn [lstrip_ws]; [discriminate |].
  destruct (isspace d) eqn:E; [exact IH |].
  intros H. inversion H. subst. exact E.
Qed.

Lemma lstrip_ws_fixed s :
  (forall c rest, s = c :: rest -> isspace c = false) -> lstrip_ws s = s.
Proof.
  destruct s as [| c rest]; [reflexivity |]. intros H. cbn [lstrip_ws].
  rewrite (H c rest eq_refl). reflexivity.
Qed.

(** A stripped text has no whitespace at either end, so stripping it again
    changes nothing. *)
Lemma strip_ws_ends s :
  (forall c rest, strip_ws s = c :: rest -> isspace c = false) /\
  (forall c rest, rev (strip_ws s) = c :: rest -> isspace c = false).
Proof.
  unfold strip_ws.
  destruct (lstrip_ws_split (rev (lstrip_ws s))) as (post & Hm).
  remember (lstrip_ws s) as m eqn:Em.
  remember (lstrip_ws (rev m)) as r eqn:Er. split.
  - intros c rest E. destruct m as [| c0 m'].
    + destruct post as [| p post']; [| discriminate Hm].
      cbn in Hm. subst r. rewrite <- Hm in E. discriminate E.
    + assert (Hc0 : isspace c0 = false)
        by (apply (lstrip_ws_head s c0 m'); symmetry; exact Em).
      apply (f_equal (@rev N)) in Hm. rewrite rev_involutive, rev_app_distr in Hm.
      rewrite E in Hm. cbn [app] in Hm. inversion Hm. subst. exact Hc0.
  - intros c rest E. rewrite rev_involutive in E. subst r.
    exact (lstrip_ws_head (rev m) c rest E).
Qed.

Lemma strip_ws_idempotent s : strip_ws (strip_ws s) = strip_ws s.
Proof.
  destruct (strip_ws_ends s) as [H1 H2].
  set (r := strip_ws s) in *. unfold strip_ws.
  rewrite (lstrip_ws_fixed r H1), (lstrip_ws_fixed (rev r) H2).
  apply rev_involutive.
Qed.

Context {Path : Type}.
Variable lower : str -> str.

Lemma class_of_tidy record :
  class_of lower record <> [] /\
  strip_ws (class_of lower record) = class_of lower record.
Proof.
  assert (Hno : no_class <> [] /\ strip_ws no_class = no_class)
    by (split; [discriminate | vm_compute; reflexivity]).
  unfold class_of.
  destruct (_get_class_name_from_record lower record) as [name |] eqn:E; [| exact Hno].
  destruct (truthy_text name) eqn:Et; [| exact Hno].
  split; [intros ->; discriminate Et |].
  unfold _get_class_name_from_record in E.
  repeat match type of E with
         | match ?x with Some _ => _ | None => _ end = _ => destruct x
         end;
    inversion E; apply strip_ws_idempotent.
Qed.

Lemma lookup_append_to (c : str) (photo : Path) acc k :
  lookup k (append_to c photo acc)
  = if Str.eqb c k
    then Some (match lookup k acc with Some l => l | None => [] end ++ [photo])
    else lookup k acc.
Proof.
  unfold append_to. destruct (lookup c acc) as [l |] eqn:El;
    rewrite lookup_insert; destruct (Str.eqb c k) eqn:E; try reflexivity;
    apply str_eqb_eq in E; subst k; rewrite El; reflexivity.
Qed.

(** The photos of class [k]: those whose record, at the same position, is
    filed under [k]. *)
Lemma by_class_lookup (photos : list Path) (excel_data : list person)
    (acc : dict (list Path)) (k : str) :
  lookup k (by_class lower photos excel_data acc)
  = let chosen :=
      map snd (filter (fun item => Str.eqb (class_of lower (fst item)) k)
                      (combine excel_data photos)) in
    match lookup k acc with
    | Some l => Some (l ++ chosen)
    | None => match chosen with [] => None | _ :: _ => Some chosen end
    end.
Proof.
  revert photos acc. induction excel_data as [| record records IH];
    intros photos acc.
  - assert (E : by_class lower photos [] acc = acc) by (destruct photos; reflexivity).
    rewrite E. cbn [combine filter map].
    destruct (lookup k acc) as [l |]; [rewrite app_nil_r |]; reflexivity.
  - destruct photos as [| photo rest].
    + cbn [by_class combine filter map].
      destruct (lookup k acc) as [l |]; [rewrite app_nil_r |]; reflexivity.
    + cbn [by_class combine filter fst]. rewrite IH, lookup_append_to.
      cbv zeta.
      destruct (Str.eqb (class_of lower record) k).
      * cbn [map snd]. destruct (lookup k acc) as [l |].
        -- rewrite <- app_assoc. reflexivity.
        -- reflexivity.
      * reflexivity.
Qed.

End ByClassFacts.

Section ByClassClaims.

Import Str Dict PhotoProcessor Inputs.

(** Grouping by class files each photo under the class of the record at
    the same position (photos or records beyond the shorter list are left
    out): the list of a class holds exactly those photos, in their order,
    and a class without a photo has no entry. *)
Theorem photos_by_class_lookup {Path : Type} (lower : str -> str)
    (photos : list Path) (excel_data : list person) (naming_pattern : string)
    (selected_column : option str) (k : str) :
  lookup k (get_photos_by_class_from_data lower photos excel_data
              naming_pattern selected_column)
  = match map snd (filter (fun item => Str.eqb (class_of lower (fst item)) k)
                          (combine excel_data photos)) with
    | [] => None
    | photo :: rest => Some (photo :: rest)
    end.
Proof.
  unfold get_photos_by_class_from_data. rewrite by_class_lookup. cbn [lookup].
  cbv zeta. destruct (map snd _); reflexivity.
Qed.

(** The name a record is filed under is never empty and has no
    whitespace at either end: a class that is missing, empty or blank is
    filed under the fixed name "Sınıf_Bilgisi_Yok". *)
Theorem class_name_tidy (lower : str -> str) (record : person) :
  class_of lower record <> [] /\
  strip_ws (class_of lower record) = class_of lower record /\
  (forall name, _get_class_name_from_record lower record = Some name ->
                name = strip_ws name) /\
  (_get_class_name_from_record lower record = None \/
   _get_class_name_from_record lower record = Some [] ->
   class_of lower record = no_class).
Proof.
  destruct (class_of_tidy lower record) as [H1 H2].
  split; [exact H1 |]. split; [exact H2 |]. split.
  - intros name E. unfold _get_class_name_from_record in E.
    repeat match type of E with
           | match ?x with Some _ => _ | None => _ end = _ => destruct x
           end;
      inversion E; symmetry; apply strip_ws_idempotent.
  - unfold class_of. intros [-> | ->]; reflexivity.
Qed.

Example photos_by_class_example :
  get_photos_by_class_from_data ascii_lower
    [of_ascii "1.jpg"; of_ascii "2.jpg"; of_ascii "3.jpg"; of_ascii "4.jpg"]
    [ali; veli; anonymous] "first_last" None
  = [(of_ascii "9A", [of_ascii "1.jpg"]);
     (of_ascii "9B", [of_ascii "2.jpg"]);
     (no_class, [of_ascii "3.jpg"])].
Proof. vm_compute. reflexivity. Qed.

End ByClassClaims.

(* ===================================================================== *)
(** * The name of a renamed photo                                         *)
(* ===================================================================== *)

Section RenamingFacts.

Import Str Dict PhotoProcessor VesiKolayApp.

Lemma of_uint_inj a : forall b, of_uint a = of_uint b -> a = b.
Proof.
  induction a as [| a IH | a IH | a IH | a IH | a IH | a IH | a IH | a IH | a IH | a IH];
    intros [| b | b | b | b | b | b | b | b | b | b] H; cbn [of_uint] in H;
    try discriminate H; try reflexivity;
    injection H as H; f_equal; exact (IH b H).
Qed.

Lemma str_of_int_inj a b : str_of_int a = str_of_int b -> a = b.
Proof.
  unfold str_of_int. intros H. apply of_uint_inj in H.
  rewrite <- (DecimalN.Unsigned.of_to a), <- (DecimalN.Unsigned.of_to b), H.
  reflexivity.
Qed.

Lemma of_uint_digits d c : In c (of_uint d) -> (48 <= c <= 57)%N.
Proof.
  induction d; cbn [of_uint In]; intros H; try contradiction;
    (destruct H as [<- | H]; [lia | exact (IHd H)]).
Qed.

Lemma str_of_int_digits n c : In c (str_of_int n) -> (48 <= c <= 57)%N.
Proof. apply of_uint_digits. Qed.

Lemma str_of_int_nonempty n : str_of_int n <> [].
Proof.
  unfold str_of_int. intros H.
  assert (E : N.to_uint n = Decimal.Nil) by (apply of_uint_inj; exact H).
  apply (f_equal N.of_uint) in E. rewrite DecimalN.Unsigned.of_to in E.
  cbn in E. subst n. discriminate H.
Qed.

Variable stem suffix : str -> str.
Variable existing : list str.

Lemma numbered_inj name a b :
  numbered stem suffix name a = numbered stem suffix name b -> a = b.
Proof.
  unfold numbered. intros H.
  apply app_inv_head in H. apply app_inv_head in H. apply app_inv_tail in H.
  exact (str_of_int_inj a b H).
Qed.

Lemma path_exists_In name : path_exists existing name = true <-> In name existing.
Proof.
  unfold path_exists. rewrite existsb_exists. split.
  - intros (x & Hin & E). apply str_eqb_eq in E. subst x. exact Hin.
  - intros Hin. exists name. split; [exact Hin | apply str_eqb_refl].
Qed.

(** The loop gives up only when the name it started from and every
    numbered name it tried exist. *)
Lemma free_path_none m name p c :
  free_path stem suffix existing (S m) name p c = None ->
  path_exists existing p = true /\
  forall j, (c <= j < c + N.of_nat m)%N ->
            path_exists existing (numbered stem suffix name j) = true.
Proof.
  revert p c. induction m as [| m IH]; intros p c H.
  - cbn [free_path] in H. destruct (path_exists existing p); [| discriminate H].
    split; [reflexivity | intros j Hj; lia].
  - change (free_path stem suffix existing (S (S m)) name p c)
      with (if path_exists existing p
            then free_path stem suffix existing (S m) name
                   (numbered stem suffix name c) (c + 1)
            else Some p) in H.
    destruct (path_exists existing p); [| discriminate H].
    destruct (IH _ _ H) as [Hc Hrest]. split; [reflexivity |].
    intros j Hj. destruct (N.eq_dec j c) as [-> | Hne]; [exact Hc |].
    apply Hrest. lia.
Qed.

Lemma free_path_some fuel name p c path :
  free_path stem suffix existing fuel name p c = Some path ->
  path_exists existing path = false /\
  (path = p \/
   path_exists existing p = true /\
   exists k, (c <= k)%N /\ path = numbered stem suffix name k /\
     forall j, (c <= j < k)%N ->
               path_exists existing (numbered stem suffix name j) = true).
Proof.
  revert p c. induction fuel as [| fuel IH]; intros p c H; [discriminate H |].
  cbn [free_path] in H. destruct (path_exists existing p) eqn:Ep.
  - destruct (IH _ _ H) as [Hfree [-> | (Hc & k & Hk & -> & Hbelow)]].
    + split; [exact Hfree |]. right. split; [reflexivity |].
      exists c. split; [lia |]. split; [reflexivity |]. intros j Hj. lia.
    + split; [exact Hfree |]. right. split; [reflexivity |].
      exists k. split; [lia |]. split; [reflexivity |].
      intros j Hj. destruct (N.eq_dec j c) as [-> | Hne]; [exact Hc |].
      apply Hbelow. lia.
  - injection H as <-. split; [exact Ep | left; reflexivity].
Qed.

Lemma free_path_more fuel name p c path :
  free_path stem suffix existing fuel name p c = Some path ->
  forall more, (fuel <= more)%nat ->
    free_path stem suffix existing more name p c = Some path.
Proof.
  revert p c. induction fuel as [| fuel IH]; intros p c H more Hmore;
    [discriminate H |].
  destruct more as [| more]; [lia |].
  cbn [free_path] in *. destruct (path_exists existing p); [| exact H].
  apply (IH _ _ H). lia.
Qed.

(** A directory cannot hold more numbered names than it has entries. *)
Lemma numbered_names_run_out name :
  ~ (forall j, (1 <= j < 1 + N.of_nat (S (List.length existing)))%N ->
               path_exists existing (numbered stem suffix name j) = true).
Proof.
  intros Hall.
  set (n := List.length existing) in *.
  set (names := map (fun j => numbered stem suffix name (N.of_nat j)) (seq 1 (S n))).
  assert (Hnodup : NoDup names).
  { unfold names. apply NoDup_map_NoDup_ForallPairs.
    - intros a b _ _ E. apply numbered_inj in E. lia.
    - apply seq_NoDup. }
  assert (Hincl : incl names existing).
  { intros x Hx. unfold names in Hx. apply in_map_iff in Hx.
    destruct Hx as (j & <- & Hj). apply in_seq in Hj.
    apply path_exists_In. apply Hall. lia. }
  pose proof (NoDup_incl_length Hnodup Hincl) as Hlen.
  unfold names in Hlen. rewrite length_map, length_seq in Hlen. fold n in Hlen. lia.
Qed.

Lemma free_path_found name :
  exists path,
    free_path stem suffix existing (S (S (List.length existing))) name name 1
    = Some path.
Proof.
  destruct (free_path stem suffix existing (S (S (List.length existing))) name name 1)
    as [path |] eqn:E; [exists path; reflexivity |].
  apply free_path_none in E. destruct E as [_ Hall].
  destruct (numbered_names_run_out name Hall).
Qed.

End RenamingFacts.

Section NewFilenameFacts.

Import Str Dict PhotoProcessor VesiKolayApp.

Lemma contains_absent c q s : ~ In c s -> contains (c :: q) s = false.
Proof.
  induction s as [| d s IH]; intros H; [reflexivity |].
  cbn [contains startswith].
  assert (E : (c =? d)%N = false)
    by (apply N.eqb_neq; intros ->; apply H; left; reflexivity).
  rewrite E. cbn [andb orb]. apply IH. intros Hin. apply H. right. exact Hin.
Qed.

Lemma digit_not_space c : (48 <= c <= 57)%N -> isspace c = false.
Proof.
  intros H. unfold isspace.
  repeat match goal with
         | |- context [(?a <=? ?b)%N] => destruct (N.leb_spec a b); try lia
         | |- context [(?a =? ?b)%N] => destruct (N.eqb_spec a b); try lia
         end; reflexivity.
Qed.

(** ["photo_<n>"] is a clean name already. *)
Lemma photo_name_clean b n : clean_name b (of_ascii "photo_" ++ str_of_int n).
Proof.
  set (ds := str_of_int n).
  assert (Hds : forall c, In c ds -> (48 <= c <= 57)%N)
    by (intros c; apply str_of_int_digits).
  assert (Hne : ds <> []) by apply str_of_int_nonempty.
  assert (Hin : forall c, In c (of_ascii "photo_" ++ ds) ->
                  c = 112%N \/ c = 104%N \/ c = 111%N \/ c = 116%N \/ c = 95%N \/
                  (48 <= c <= 57)%N).
  { intros c H. apply in_app_or in H. destruct H as [H | H].
    - cbn in H. intuition (subst; tauto).
    - right. right. right. right. right. exact (Hds c H). }
  assert (Hlast : forall c rest, rev (of_ascii "photo_" ++ ds) = c :: rest ->
                                 (48 <= c <= 57)%N).
  { intros c rest E. rewrite rev_app_distr in E.
    destruct (rev ds) as [| d ds'] eqn:Er.
    - apply (f_equal (@rev N)) in Er. rewrite rev_involutive in Er.
      contradiction (Hne Er).
    - cbn [app] in E. injection E as <- _. apply Hds. apply in_rev.
      rewrite Er. left. reflexivity. }
  split; [discriminate |]. split.
  - intros c Hc Hx. apply Hin in Hx. cbn in Hc.
    intuition (subst; try discriminate; lia).
  - destruct b.
    + assert (Hw : Forall nospace_word [of_ascii "photo_" ++ ds]).
      { constructor; [| constructor]. split; [discriminate |].
        intros x Hx. apply Hin in Hx.
        destruct Hx as [-> | [-> | [-> | [-> | [-> | Hx]]]]]; try reflexivity.
        apply digit_not_space. exact Hx. }
      pose proof (split_join _ Hw) as E. cbn [join] in E. rewrite E. reflexivity.
    + split; [| split; [| split]].
      * intros Hx. apply Hin in Hx. intuition (try discriminate; lia).
      * destruct ds as [| d ds']; [contradiction (Hne eq_refl) |].
        assert (Hd : (48 <= d <= 57)%N) by (apply Hds; left; reflexivity).
        change (contains (of_ascii "__") (of_ascii "photo_" ++ d :: ds'))
          with ((95 =? d)%N && startswith [] ds'
                || ((95 =? d)%N && startswith [95%N] ds'
                    || contains [95%N; 95%N] ds')).
        assert (E : (95 =? d)%N = false) by (apply N.eqb_neq; lia).
        rewrite E. cbn [andb orb]. apply contains_absent.
        intros Hx. assert (48 <= 95 <= 57)%N; [| lia].
        apply Hds. right. exact Hx.
      * intros c rest E. injection E as <- _. discriminate.
      * intros c rest E. apply Hlast in E. lia.
Qed.

Lemma flat_map_nil {A B : Type} (f : A -> list B) (l : list A) :
  (forall x, In x l -> f x = []) -> flat_map f l = [].
Proof.
  induction l as [| a l IH]; intros H; [reflexivity |].
  cbn [flat_map]. rewrite (H a (or_introl eq_refl)). apply IH.
  intros x Hx. apply H. right. exact Hx.
Qed.

End NewFilenameFacts.

Section RenamingClaims.

Import Str Dict PhotoProcessor VesiKolayApp Inputs.

(** The path a renamed photo is copied to never exists already, whatever
    the output directory holds: it is the new file name when that is
    free, and otherwise the numbered name [stem_k suffix] with the least
    [k >= 1] that is free.  The search always ends: it tests at most two
    names more than the directory has entries. *)
Theorem rename_target_is_free (stem suffix : str -> str) (existing : list str)
    (selected_columns : list str) (separator photo_suffix : str)
    (data_record : person) (i : N) :
  let name := new_filename selected_columns separator photo_suffix data_record i in
  exists path,
    (forall fuel, (List.length existing + 2 <= fuel)%nat ->
       new_path stem suffix existing fuel selected_columns separator photo_suffix
         data_record i = Some path) /\
    ~ In path existing /\
    (~ In name existing -> path = name) /\
    (In name existing ->
       exists k, (1 <= k)%N /\ path = numbered stem suffix name k /\
         forall j, (1 <= j < k)%N -> In (numbered stem suffix name j) existing).
Proof.
  intros name. unfold new_path. fold name.
  destruct (free_path_found stem suffix existing name) as [path Hpath].
  exists path.
  destruct (free_path_some stem suffix existing _ _ _ _ _ Hpath) as [Hfree Hshape].
  assert (Hnot : ~ In path existing).
  { intros Hin. apply path_exists_In in Hin. congruence. }
  split; [| split; [exact Hnot | split]].
  - intros fuel Hfuel.
    apply (free_path_more stem suffix existing _ _ _ _ _ Hpath). lia.
  - intros Hname. destruct Hshape as [E | [Hex _]]; [exact E |].
    apply path_exists_In in Hex. contradiction.
  - intros Hname. destruct Hshape as [E | (_ & k & Hk & E & Hbelow)].
    + subst path. contradiction.
    + exists k. split; [exact Hk |]. split; [exact E |].
      intros j Hj. apply path_exists_In. apply Hbelow. exact Hj.
Qed.

(** A record that has no usable value in any selected column (the column
    is missing, blank or reads 'nan') gives the name [photo_<i+1>]
    followed by the suffix of the photo, whatever the separator is. *)
Theorem new_filename_fallback (selected_columns : list str)
    (separator photo_suffix : str) (data_record : person) (i : N) :
  (forall col, In col selected_columns -> usable_value data_record col = None) ->
  new_filename selected_columns separator photo_suffix data_record i
  = of_ascii "photo_" ++ str_of_int (i + 1) ++ photo_suffix.
Proof.
  intros Hnone. unfold new_filename, name_parts.
  rewrite flat_map_nil by (intros col Hcol; rewrite (Hnone col Hcol); reflexivity).
  cbn [join]. rewrite app_assoc. f_equal.
  destruct (Str.eqb separator (of_ascii " "));
    apply clean_name_fixed; apply photo_name_clean.
Qed.

Lemma new_filename_fallback_witness :
  new_filename [of_ascii "Ad"; of_ascii "Sinif"] (of_ascii "-") (of_ascii ".jpg")
    (mkPerson [] (Some [(of_ascii "Ad", of_ascii "  "); (of_ascii "Sinif", of_ascii "nan")]))
    11
  = of_ascii "photo_12.jpg".
Proof.
  apply (new_filename_fallback [of_ascii "Ad"; of_ascii "Sinif"] (of_ascii "-")
           (of_ascii ".jpg")
           (mkPerson [] (Some [(of_ascii "Ad", of_ascii "  ");
                               (of_ascii "Sinif", of_ascii "nan")])) 11).
  intros col [<- | [<- | []]]; reflexivity.
Defined.

Example renaming_examples :
  new_filename [of_ascii "Ad"; of_ascii "Sinif"] (of_ascii " ") (of_ascii ".jpg")
    (mkPerson [] (Some [(of_ascii "Sinif", of_ascii "9/A"); (of_ascii "Ad", of_ascii " Ali  Kaya ")]))
    0 = of_ascii "Ali Kaya 9_A.jpg" /\
  new_path stem_of (fun _ => of_ascii ".jpg")
    [of_ascii "Ali.jpg"; of_ascii "Ali_1.jpg"; of_ascii "Ali_3.jpg"] 5
    [of_ascii "Ad"] (of_ascii "_") (of_ascii ".jpg")
    (mkPerson [] (Some [(of_ascii "Ad", of_ascii "Ali")])) 0
  = Some (of_ascii "Ali_2.jpg").
Proof. vm_compute. split; reflexivity. Qed.

End RenamingClaims.
